(** * The VM image vault of multipass (src/daemon/default_vm_image_vault.cpp)

    A shallow embedding of [DefaultVMImageVault]: its two catalogs, their
    JSON persistence, the fetch engine with its in-progress future map,
    expiry, update and removal, over a small model of the Qt file and JSON
    classes the code calls. *)

From stdpp Require Import base gmap sets list strings.
From Stdlib Require Import ZArith Lia Ascii.

Set Warnings "-register-all".
Local Open Scope Z_scope.

(** ** QString helpers *)

Module QString.

(** [QString::startsWith]. *)
Fixpoint startsWith (s p : string) {struct p} : bool :=
  match p, s with
  | EmptyString, _ => true
  | String a p', String b s' => if decide (a = b) then startsWith s' p' else false
  | String _ _, EmptyString => false
  end.

(** [QString::endsWith]. *)
Definition endsWith (s p : string) : bool :=
  startsWith (String.rev s) (String.rev p).

(** [QString::remove(const QString&)]: every occurrence of [p] is removed,
    scanning from the left. *)
Fixpoint remove_go (fuel : nat) (p s : string) : string :=
  match fuel with
  | O => s
  | S fuel' =>
    match s with
    | EmptyString => EmptyString
    | String c s' =>
      if startsWith s p
      then remove_go fuel' p (String.substring (String.length p) (String.length s) s)
      else String c (remove_go fuel' p s')
    end
  end.

Definition remove (s p : string) : string :=
  match p with
  | EmptyString => s
  | _ => remove_go (S (String.length s)) p s
  end.

(** Fields of [s] separated by the character [sep]. *)
Fixpoint split (sep : Ascii.ascii) (s : string) : list string :=
  match s with
  | EmptyString => [EmptyString]
  | String c s' =>
    if decide (c = sep) then EmptyString :: split sep s'
    else match split sep s' with
         | [] => [String c EmptyString]
         | f :: fs => String c f :: fs
         end
  end.

Fixpoint join (sep : string) (l : list string) : string :=
  match l with
  | [] => EmptyString
  | [f] => f
  | f :: fs => f +:+ sep +:+ join sep fs
  end.

(** [s.section(".", 0, -k)] for [k >= 1]: the fields from the first one to
    the k-th from the end, joined again; empty when there are fewer than
    [k] fields. *)
Definition section_dot_0_to (s : string) (k : nat) : string :=
  let fields := split "."%char s in
  join "." (take (length fields + 1 - k) fields).

End QString.

(** ** QJsonValue *)

(** The fragment of Qt's JSON value tree the vault reads and writes. A
    number is an IEEE double, the only numbers the vault stores are
    integers, and [JDouble d] is the double whose value is the integer [d]. *)
Inductive QJsonValue :=
| JUndefined
| JNull
| JBool (b : bool)
| JDouble (d : Z)
| JString (s : string)
| JArray (l : list QJsonValue)
| JObject (m : gmap string QJsonValue).

Module QJson.

(** Conversion of a [qint64] to the nearest double (round to nearest, ties
    to even), read back as the integer it denotes. [QJsonValue(qint64)] and
    [toDouble] go through it; integers below 2^53 in magnitude are exact. *)
Definition double_of_qint64 (n : Z) : Z :=
  let a := Z.abs n in
  if a <? 2 ^ 53 then n
  else
    let e := Z.log2 a - 52 in
    let q := a / 2 ^ e in
    let r := a mod 2 ^ e in
    let half := 2 ^ (e - 1) in
    let q' := if r <? half then q
              else if half <? r then q + 1
              else if Z.even q then q else q + 1 in
    Z.sgn n * (q' * 2 ^ e).

(** [QJsonObject::operator[]] (const): the value, or Undefined. *)
Definition get (o : gmap string QJsonValue) (key : string) : QJsonValue :=
  default JUndefined (o !! key).

(** [QJsonValue::toObject]: the empty object for a non-object. *)
Definition toObject (v : QJsonValue) : gmap string QJsonValue :=
  match v with JObject m => m | _ => ∅ end.

(** [QJsonValue::toString]: [None] is the null QString. *)
Definition toString (v : QJsonValue) : option string :=
  match v with JString s => Some s | _ => None end.

(** [toString().toStdString()]: the null QString converts to the
    empty string. *)
Definition toStdString (v : QJsonValue) : string :=
  default EmptyString (toString v).

Definition toArray (v : QJsonValue) : list QJsonValue :=
  match v with JArray l => l | _ => [] end.

Definition isBool (v : QJsonValue) : bool :=
  match v with JBool _ => true | _ => false end.

Definition toBool (v : QJsonValue) : bool :=
  match v with JBool b => b | _ => false end.

(** [QJsonValue::toInt]: 0 unless the value is a number that fits an int. *)
Definition toInt (v : QJsonValue) : Z :=
  match v with
  | JDouble d => if (- 2 ^ 31 <=? d) && (d <? 2 ^ 31) then d else 0
  | _ => 0
  end.

Definition toDouble (v : QJsonValue) : Z :=
  match v with JDouble d => d | _ => 0 end.

Definition isEmpty (o : gmap string QJsonValue) : bool :=
  bool_decide (o = ∅).

End QJson.

(** ** The record model (multipass/query.h, vm_image.h, vm_image_info.h) *)

Module Query.

(** Modelled from the spec: the declaration of [Query::Type] is in
    multipass/query.h; the spec lists the enumerators as Alias, HttpUrl,
    LocalFile, and the vault only distinguishes Alias (the first one, 0). *)
Inductive Type_ := Alias | HttpUrl | LocalFile.

Record t := mk {
  name : string;
  release : string;
  persistent : bool;
  remote_name : string;
  query_type : Type_
}.

(** [static_cast<int>(query_type)]. *)
Definition to_int (ty : Type_) : Z :=
  match ty with Alias => 0 | HttpUrl => 1 | LocalFile => 2 end.

(** [static_cast<Query::Type>(n)]; a value that names no enumerator
    compares unequal to Alias, as HttpUrl does. *)
Definition of_int (n : Z) : Type_ :=
  if decide (n = 0) then Alias
  else if decide (n = 2) then LocalFile else HttpUrl.

End Query.

Abbreviation Query := Query.t.

Global Instance Query_Type_eq_dec : EqDecision Query.Type_.
Proof. solve_decision. Defined.

Global Instance Query_eq_dec : EqDecision Query.
Proof. solve_decision. Defined.

Module VMImage.

Record t := mk {
  image_path : string;
  kernel_path : string;
  initrd_path : string;
  id : string;
  original_release : string;
  current_release : string;
  release_date : string;
  aliases : list string
}.

(** A default-constructed [VMImage]. *)
Definition empty : t :=
  mk EmptyString EmptyString EmptyString EmptyString EmptyString EmptyString
     EmptyString [].

End VMImage.

Abbreviation VMImage := VMImage.t.

Global Instance VMImage_eq_dec : EqDecision VMImage.
Proof. solve_decision. Defined.

Module VMImageInfo.

Record t := mk {
  aliases : list string;
  release : string;
  release_title : string;
  image_location : string;
  kernel_location : string;
  initrd_location : string;
  id : string;
  version : string;
  size : Z
}.

End VMImageInfo.

Abbreviation VMImageInfo := VMImageInfo.t.

(** A catalog entry; [last_accessed] is the tick count of the
    [system_clock] time point. *)
Module VaultRecord.

Record t := mk {
  image : VMImage;
  query : Query;
  last_accessed : Z
}.

End VaultRecord.

Abbreviation VaultRecord := VaultRecord.t.

Global Instance VaultRecord_eq_dec : EqDecision VaultRecord.
Proof. solve_decision. Defined.

(** ** The JSON codec *)

Definition query_to_json (query : Query) : QJsonValue :=
  JObject (<["release" := JString (Query.release query)]>
          (<["persistent" := JBool (Query.persistent query)]>
          (<["remote_name" := JString (Query.remote_name query)]>
          (<["query_type" := JDouble (Query.to_int (Query.query_type query))]> ∅)))).

Definition image_to_json (image : VMImage) : QJsonValue :=
  let aliases :=
    (λ alias, JObject (<["alias" := JString alias]> ∅)) <$> VMImage.aliases image in
  JObject (<["path" := JString (VMImage.image_path image)]>
          (<["kernel_path" := JString (VMImage.kernel_path image)]>
          (<["initrd_path" := JString (VMImage.initrd_path image)]>
          (<["id" := JString (VMImage.id image)]>
          (<["original_release" := JString (VMImage.original_release image)]>
          (<["current_release" := JString (VMImage.current_release image)]>
          (<["release_date" := JString (VMImage.release_date image)]>
          (<["aliases" := JArray aliases]> ∅)))))))).

Definition record_to_json (record : VaultRecord) : QJsonValue :=
  JObject (<["image" := image_to_json (VaultRecord.image record)]>
          (<["query" := query_to_json (VaultRecord.query record)]>
          (<["last_accessed" := JDouble (QJson.double_of_qint64 (VaultRecord.last_accessed record))]> ∅))).

(** The document [persist_records] hands to [write_json]. *)
Definition records_to_json (records : gmap string VaultRecord) : QJsonValue :=
  JObject (record_to_json <$> records).

(** The body of the loop of [load_db] for one entry: [None] is the early
    [return {}]. [now] is the reading of the system clock. *)
Definition load_record (now : Z) (value : QJsonValue) : option VaultRecord :=
  let record := QJson.toObject value in
  if QJson.isEmpty record then None else
  let image := QJson.toObject (QJson.get record "image") in
  if QJson.isEmpty image then None else
  match QJson.toString (QJson.get image "path") with
  | None => None
  | Some image_path =>
    let kernel_path := QJson.toStdString (QJson.get image "kernel_path") in
    let initrd_path := QJson.toStdString (QJson.get image "initrd_path") in
    let image_id := QJson.toStdString (QJson.get image "id") in
    let original_release := QJson.toStdString (QJson.get image "original_release") in
    let current_release := QJson.toStdString (QJson.get image "current_release") in
    let release_date := QJson.toStdString (QJson.get image "release_date") in
    let aliases :=
      (λ entry, QJson.toStdString (QJson.get (QJson.toObject entry) "alias"))
        <$> QJson.toArray (QJson.get image "aliases") in
    let query := QJson.toObject (QJson.get record "query") in
    if QJson.isEmpty query then None else
    let release := QJson.toStdString (QJson.get query "release") in
    let persistent := QJson.get query "persistent" in
    if negb (QJson.isBool persistent) then None else
    let remote_name := QJson.toStdString (QJson.get query "remote_name") in
    let query_type := Query.of_int (QJson.toInt (QJson.get query "type")) in
    let last_accessed_count := QJson.toDouble (QJson.get record "last_accessed") in
    let last_accessed :=
      if decide (last_accessed_count = 0) then now else last_accessed_count in
    Some (VaultRecord.mk
            (VMImage.mk image_path kernel_path initrd_path image_id original_release
                        current_release release_date aliases)
            (Query.mk EmptyString release (QJson.toBool persistent) remote_name query_type)
            last_accessed)
  end.

(** The loop of [load_db] over the entries of the document. *)
Fixpoint load_records (now : Z) (entries : list (string * QJsonValue))
    (reconstructed_records : gmap string VaultRecord) : gmap string VaultRecord :=
  match entries with
  | [] => reconstructed_records
  | (key, value) :: rest =>
    match load_record now value with
    | None => ∅
    | Some record => load_records now rest (<[key := record]> reconstructed_records)
    end
  end.

(** ** Paths and the file system *)

(** What a file holds: raw bytes (an image, a kernel) or, for the two
    catalog files, the JSON document [write_json] stored there. *)
Inductive FileData :=
| Blob (bytes : string)
| JsonDoc (doc : QJsonValue).

(** The disk: regular files with their content, and directories. *)
Record FS := mkFS {
  files : gmap string FileData;
  dirs : gset string
}.

Module QDir.

(** Splits a path at its last '/': the directory part, if there is a
    '/', and the file name. *)
Fixpoint split_path (path : string) : option string * string :=
  match path with
  | EmptyString => (None, EmptyString)
  | String c rest =>
    match split_path rest with
    | (Some d, f) => (Some (String c d), f)
    | (None, f) =>
      if decide (c = "/"%char) then (Some EmptyString, f) else (None, String c f)
    end
  end.

(** [QFileInfo::fileName]. *)
Definition fileName (path : string) : string := (split_path path).2.

(** [QFileInfo::dir] / [absoluteDir]: the path of the enclosing directory. *)
Definition dir (path : string) : string :=
  default "." (split_path path).1.

(** [QDir::filePath] for a relative [fileName]. *)
Definition filePath (d fileName : string) : string :=
  match fileName with
  | EmptyString => d
  | _ => if QString.endsWith d "/" then d +:+ fileName else d +:+ "/" +:+ fileName
  end.

(** [path] lies strictly below the directory [d]. *)
Definition below (d path : string) : bool :=
  QString.startsWith path (d +:+ "/").

(** [QFile::exists] / [QFileInfo::exists]: a file or a directory. *)
Definition exists_ (path : string) (fs : FS) : bool :=
  bool_decide (is_Some (files fs !! path)) || bool_decide (path ∈ dirs fs).

(** [QDir::mkpath]. *)
Definition mkpath (d : string) (fs : FS) : FS :=
  mkFS (files fs) ({[d]} ∪ dirs fs).

(** [QDir::removeRecursively]: the directory and everything below it. *)
Definition removeRecursively (d : string) (fs : FS) : FS :=
  mkFS (filter (λ kv, below d kv.1 = false) (files fs))
       (filter (λ p, p ≠ d ∧ below d p = false) (dirs fs)).

(** [QDir::cd]: the path of the sub-directory, when it exists; an empty
    name stays in place. *)
Definition cd (d dirName : string) (fs : FS) : option string :=
  match dirName with
  | EmptyString => Some d
  | _ => let newPath := filePath d dirName in
         if bool_decide (newPath ∈ dirs fs) then Some newPath else None
  end.

End QDir.

Module QFile.

(** [QFile::remove]. *)
Definition remove (path : string) (fs : FS) : FS :=
  mkFS (delete path (files fs)) (dirs fs).

(** [QFile::copy]: copies a regular file unless the target exists. *)
Definition copy (src dst : string) (fs : FS) : FS :=
  match files fs !! src with
  | Some data =>
    if QDir.exists_ dst fs then fs else mkFS (<[dst := data]> (files fs)) (dirs fs)
  | None => fs
  end.

(** Writing a whole file, as a download or a decoder does. *)
Definition write (path : string) (data : FileData) (fs : FS) : FS :=
  mkFS (<[path := data]> (files fs)) (dirs fs).

End QFile.

(** Modelled from the spec: [mp::write_json] (json_writer.h) is not among
    the sources; it replaces the file at [path] by the document as a whole. *)
Definition write_json (root : QJsonValue) (path : string) (fs : FS) : FS :=
  QFile.write path (JsonDoc root) fs.

(** Modelled from the spec: [mp::utils::make_dir] (utils.h) is not among the
    sources; it creates the directory [name] inside [a_dir] and returns its
    path. *)
Definition make_dir (a_dir name : string) (fs : FS) : string * FS :=
  let path := QDir.filePath a_dir name in
  (path, QDir.mkpath path fs).

(** [load_db]: an unreadable file, a document that is not a non-empty
    object, or a malformed entry give the empty catalog. *)
Definition load_db (now : Z) (db_name : string) (fs : FS) : gmap string VaultRecord :=
  match files fs !! db_name with
  | Some (JsonDoc doc) =>
    let records := QJson.toObject doc in
    if QJson.isEmpty records then ∅
    else load_records now (map_to_list records) ∅
  | _ => ∅
  end.

(** [persist_records]. *)
Definition persist_records (records : gmap string VaultRecord) (path : string)
    (fs : FS) : FS :=
  write_json (records_to_json records) path fs.

(** ** Exceptions, events and collaborators *)

(** The exceptions the vault sees: everything derived from
    [std::exception] other than [CreateImageException] is a
    [runtime_error] here. *)
Inductive exception :=
| runtime_error (what : string)
| CreateImageException (what : string).

Definition what (e : exception) : string :=
  match e with runtime_error w => w | CreateImageException w => w end.

Inductive result (A : Type) :=
| Ok (a : A)
| Throw (e : exception).

Arguments Ok {A} a.
Arguments Throw {A} e.

Inductive FetchType := ImageOnly | ImageKernelAndInitrd.

Global Instance FetchType_eq_dec : EqDecision FetchType.
Proof. solve_decision. Defined.

Inductive LaunchProgress := IMAGE | KERNEL | INITRD | VERIFY | WAITING.

Global Instance LaunchProgress_eq_dec : EqDecision LaunchProgress.
Proof. solve_decision. Defined.

(** Calls that leave the vault: to the downloader, to an image host, to
    the decoder, to the caller's prepare action and progress monitor. *)
Inductive Event :=
| EvDownloadTo (url path : string) (size : Z) (phase : LaunchProgress)
| EvLastModified (url : string)
| EvInfoFor (query : Query)
| EvDecodeTo (src dst : string)
| EvPrepare (source_image : VMImage)
| EvMonitor (phase : LaunchProgress) (percent : Z).

Global Instance Event_eq_dec : EqDecision Event.
Proof. solve_decision. Defined.

(** What [QDateTime] gives the vault: validity and its two renderings. *)
Record QDateTime := mkQDateTime {
  isValid : bool;
  toString : string;
  toString_yyyyMMdd : string
}.

(** The [VMImageHost] interface. *)
Record VMImageHost := mkVMImageHost {
  host_info_for : Query → option VMImageInfo;
  supported_remotes : list string
}.

(** What [URLDownloader::download_to] does for a URL: the whole payload,
    or an exception, possibly after part of the file was written. *)
Inductive Download :=
| Downloaded (data : FileData)
| Aborted (partial : option FileData) (what : string).

(** The caller's [PrepareAction]: it may rewrite files and may throw. *)
Definition PrepareAction : Type := VMImage → FS → result VMImage * FS.

(** The collaborators and construction parameters of the vault. *)
Class Collaborators := {
  image_hosts : list VMImageHost;
  download : string → Download;
  last_modified : string → QDateTime;
  xz_decode : FileData → option FileData;
  sha256_hex : FileData → string;
  is_image_url_supported : bool;
  is_remote_supported : string → bool;
  is_alias_supported : string → string → bool;
  QUrl_isLocalFile : string → bool;
  QUrl_path : string → string;
  cache_dir_path : string;
  data_dir_path : string;
  days_to_expire : Z;
  ticks_per_day : Z
}.

(** ** The vault and the monad of its operations *)

(** The closure handed to [QtConcurrent::run] in the alias branch. *)
Record FetchTask := mkFetchTask {
  task_fetch_type : FetchType;
  task_prepare : PrepareAction;
  task_info : VMImageInfo;
  task_source_image : VMImage;
  task_image_dir : string;
  task_id : string
}.

Inductive QFuture :=
| Running (task : FetchTask)
| Finished (r : result VMImage).

(** The vault object together with the disk it works on, the futures of
    the thread pool (a [QFuture] handle is an index into them) and the
    trace of calls to collaborators. *)
Record Vault := mkVault {
  fs : FS;
  prepared_image_records : gmap string VaultRecord;
  instance_image_records : gmap string VaultRecord;
  in_progress_image_fetches : gmap string nat;
  thread_pool : list QFuture;
  trace : list Event
}.

Definition set_fs (f : FS → FS) (v : Vault) : Vault :=
  mkVault (f (fs v)) (prepared_image_records v) (instance_image_records v)
          (in_progress_image_fetches v) (thread_pool v) (trace v).

Definition set_prepared (f : gmap string VaultRecord → gmap string VaultRecord)
    (v : Vault) : Vault :=
  mkVault (fs v) (f (prepared_image_records v)) (instance_image_records v)
          (in_progress_image_fetches v) (thread_pool v) (trace v).

Definition set_instances (f : gmap string VaultRecord → gmap string VaultRecord)
    (v : Vault) : Vault :=
  mkVault (fs v) (prepared_image_records v) (f (instance_image_records v))
          (in_progress_image_fetches v) (thread_pool v) (trace v).

Definition set_in_progress (f : gmap string nat → gmap string nat) (v : Vault) : Vault :=
  mkVault (fs v) (prepared_image_records v) (instance_image_records v)
          (f (in_progress_image_fetches v)) (thread_pool v) (trace v).

Definition set_thread_pool (f : list QFuture → list QFuture) (v : Vault) : Vault :=
  mkVault (fs v) (prepared_image_records v) (instance_image_records v)
          (in_progress_image_fetches v) (f (thread_pool v)) (trace v).

Definition set_trace (f : list Event → list Event) (v : Vault) : Vault :=
  mkVault (fs v) (prepared_image_records v) (instance_image_records v)
          (in_progress_image_fetches v) (thread_pool v) (f (trace v)).

(** A computation on the vault: it returns or throws, and leaves a vault
    behind either way. *)
Definition M (A : Type) : Type := Vault → result A * Vault.

Definition ret {A} (a : A) : M A := λ v, (Ok a, v).

Definition throw {A} (e : exception) : M A := λ v, (Throw e, v).

Definition bind {A B} (m : M A) (k : A → M B) : M B :=
  λ v, match m v with
       | (Ok a, v') => k a v'
       | (Throw e, v') => (Throw e, v')
       end.

Global Instance M_ret : MRet M := @ret.
Global Instance M_bind : MBind M := λ A B k m, bind m k.

(** [try { m } catch (const std::exception& e) { handler e }]. *)
Definition try_catch {A} (m : M A) (handler : exception → M A) : M A :=
  λ v, match m v with
       | (Ok a, v') => (Ok a, v')
       | (Throw e, v') => handler e v'
       end.

Definition gets {A} (f : Vault → A) : M A := λ v, (Ok (f v), v).

Definition modify (f : Vault → Vault) : M unit := λ v, (Ok tt, f v).

Definition emit (e : Event) : M unit := modify (set_trace (λ t, t ++ [e])).

(** The scope of a [DeleteOnException] guard on [path]: when [body] leaves
    by an exception the file is removed. *)
Definition DeleteOnException {A} (path : string) (body : M A) : M A :=
  λ v, match body v with
       | (Ok a, v') => (Ok a, v')
       | (Throw e, v') => (Throw e, set_fs (QFile.remove path) v')
       end.

(** ** The vault's operations *)

Section vault.
Context `{Collaborators}.

Definition dquote : string := String (ascii_of_nat 34) EmptyString.

Definition instance_db_name : string := "multipassd-instance-image-records.json".
Definition image_db_name : string := "multipassd-image-records.json".

Definition cache_dir : string := QDir.filePath cache_dir_path "vault".
Definition data_dir : string := QDir.filePath data_dir_path "vault".
Definition instances_dir : string := QDir.filePath data_dir "instances".
Definition images_dir : string := QDir.filePath cache_dir "images".

(** The map from remote name to host the constructor builds: a later
    host replaces an earlier one that serves the same remote. *)
Definition remote_image_host_map : gmap string VMImageHost :=
  foldl (λ m image_host,
           foldl (λ m remote, <[remote := image_host]> m) m (supported_remotes image_host))
        ∅ image_hosts.

(** The constructor: both catalogs are loaded from the disk. *)
Definition DefaultVMImageVault (now : Z) (disk : FS) : Vault :=
  mkVault disk
          (load_db now (QDir.filePath cache_dir image_db_name) disk)
          (load_db now (QDir.filePath data_dir instance_db_name) disk)
          ∅ [] [].

Definition persist_instance_records : M unit :=
  instances ← gets instance_image_records;
  modify (set_fs (persist_records instances (QDir.filePath data_dir instance_db_name))).

Definition persist_image_records : M unit :=
  prepared ← gets prepared_image_records;
  modify (set_fs (persist_records prepared (QDir.filePath cache_dir image_db_name))).

Definition filename_for (path : string) : string := QDir.fileName path.

(** [mp::utils::make_dir] run on the vault's disk. *)
Definition make_dir_in (a_dir name : string) : M string :=
  λ v, let '(path, disk) := make_dir a_dir name (fs v) in
       (Ok path, set_fs (λ _, disk) v).

Definition copy (file_name output_dir : string) : M string :=
  if decide (file_name = EmptyString) then mret EmptyString
  else
    disk ← gets fs;
    if negb (QDir.exists_ file_name disk)
    then throw (runtime_error (file_name +:+ " missing"))
    else
      let new_path := QDir.filePath output_dir (QDir.fileName file_name) in
      modify (set_fs (QFile.copy file_name new_path));;
      mret new_path.

Definition delete_file (path : string) : M unit :=
  modify (set_fs (QFile.remove path)).

Definition remove_source_images (source_image prepared_image : VMImage) : M unit :=
  (if decide (VMImage.image_path source_image ≠ VMImage.image_path prepared_image)
   then delete_file (VMImage.image_path source_image) else mret tt);;
  (if decide (VMImage.kernel_path source_image ≠ VMImage.kernel_path prepared_image)
   then delete_file (VMImage.kernel_path source_image) else mret tt);;
  (if decide (VMImage.initrd_path source_image ≠ VMImage.initrd_path prepared_image)
   then delete_file (VMImage.initrd_path source_image) else mret tt).

Definition verify_image_download (image_path image_hash : string) : M unit :=
  disk ← gets fs;
  match files disk !! image_path with
  | None => throw (runtime_error "Cannot open image file for computing hash")
  | Some data =>
    if decide (sha256_hex data ≠ image_hash)
    then throw (runtime_error "Downloaded image hash does not match")
    else mret tt
  end.

(** [URLDownloader::download_to]. *)
Definition download_to (url path : string) (size : Z) (phase : LaunchProgress) : M unit :=
  emit (EvDownloadTo url path size phase);;
  match download url with
  | Downloaded data => modify (set_fs (QFile.write path data))
  | Aborted partial what =>
    match partial with
    | Some data => modify (set_fs (QFile.write path data))
    | None => mret tt
    end;;
    throw (runtime_error what)
  end.

(** [XzImageDecoder(src).decode_to(dst, monitor)]. *)
Definition decode_to (src dst : string) : M unit :=
  emit (EvDecodeTo src dst);;
  disk ← gets fs;
  match files disk !! src with
  | None => throw (runtime_error "failed to open file for reading")
  | Some data =>
    match xz_decode data with
    | None => throw (runtime_error "failed to decode image")
    | Some decoded => modify (set_fs (QFile.write dst decoded))
    end
  end.

(** A call of the caller's prepare action. *)
Definition call_prepare (prepare : PrepareAction) (source_image : VMImage) : M VMImage :=
  λ v, let '(r, disk) := prepare source_image (fs v) in (r, set_fs (λ _, disk) v).

Definition run_prepare (prepare : PrepareAction) (source_image : VMImage) : M VMImage :=
  emit (EvPrepare source_image);;
  call_prepare prepare source_image.

(** The loop of [info_for] over the hosts when no remote is named. *)
Fixpoint info_for_any (hosts : list VMImageHost) (query : Query) : M VMImageInfo :=
  match hosts with
  | [] =>
    throw (runtime_error ("Unable to find an image matching " +:+ dquote +:+ Query.release query +:+ dquote))
  | image_host :: rest =>
    emit (EvInfoFor query);;
    match host_info_for image_host query with
    | Some info => mret info
    | None => info_for_any rest query
    end
  end.

Definition info_for (query : Query) : M VMImageInfo :=
  if decide (Query.remote_name query ≠ EmptyString) then
    match remote_image_host_map !! Query.remote_name query with
    | None =>
      throw (runtime_error ("Remote " +:+ dquote +:+ Query.remote_name query +:+ dquote +:+ " is unknown."))
    | Some image_host =>
      emit (EvInfoFor query);;
      match host_info_for image_host query with
      | Some info => mret info
      | None =>
        throw (runtime_error
                 ("Unable to find an image matching " +:+ dquote +:+ Query.release query +:+ dquote))
      end
    end
  else info_for_any image_hosts query.

Definition set_image_path (image : VMImage) (path : string) : VMImage :=
  VMImage.mk path (VMImage.kernel_path image) (VMImage.initrd_path image)
             (VMImage.id image) (VMImage.original_release image)
             (VMImage.current_release image) (VMImage.release_date image)
             (VMImage.aliases image).

Definition set_release_date (image : VMImage) (date : string) : VMImage :=
  VMImage.mk (VMImage.image_path image) (VMImage.kernel_path image)
             (VMImage.initrd_path image) (VMImage.id image)
             (VMImage.original_release image) (VMImage.current_release image)
             date (VMImage.aliases image).

Definition set_kernel_and_initrd (image : VMImage) (kernel initrd : string) : VMImage :=
  VMImage.mk (VMImage.image_path image) kernel initrd (VMImage.id image)
             (VMImage.original_release image) (VMImage.current_release image)
             (VMImage.release_date image) (VMImage.aliases image).

Definition extract_image_from (instance_name : string) (source_image : VMImage)
    : M VMImage :=
  output_dir ← make_dir_in instances_dir instance_name;
  let image_name := QString.remove (QDir.fileName (VMImage.image_path source_image)) ".xz" in
  let image_path := QDir.filePath output_dir image_name in
  decode_to (VMImage.image_path source_image) image_path;;
  mret (set_image_path source_image image_path).

Definition extract_downloaded_image (source_image : VMImage) : M VMImage :=
  let image_path := QString.remove (VMImage.image_path source_image) ".xz" in
  decode_to (VMImage.image_path source_image) image_path;;
  delete_file (VMImage.image_path source_image);;
  mret (set_image_path source_image image_path).

Definition image_instance_from (instance_name : string) (prepared_image : VMImage)
    : M VMImage :=
  output_dir ← make_dir_in instances_dir instance_name;
  image_path ← copy (VMImage.image_path prepared_image) output_dir;
  kernel_path ← copy (VMImage.kernel_path prepared_image) output_dir;
  initrd_path ← copy (VMImage.initrd_path prepared_image) output_dir;
  mret (VMImage.mk image_path kernel_path initrd_path
                   (VMImage.id prepared_image)
                   (VMImage.original_release prepared_image)
                   (VMImage.current_release prepared_image)
                   (VMImage.release_date prepared_image) []).

Definition fetch_kernel_and_initrd (info : VMImageInfo) (source_image : VMImage)
    (image_dir : string) : M VMImage :=
  let kernel_path := QDir.filePath image_dir (filename_for (VMImageInfo.kernel_location info)) in
  let initrd_path := QDir.filePath image_dir (filename_for (VMImageInfo.initrd_location info)) in
  let image := set_kernel_and_initrd source_image kernel_path initrd_path in
  DeleteOnException kernel_path
    (DeleteOnException initrd_path
       (download_to (VMImageInfo.kernel_location info) kernel_path (-1) KERNEL;;
        download_to (VMImageInfo.initrd_location info) initrd_path (-1) INITRD;;
        mret image)).

Definition finalize_image_records (query : Query) (prepared_image : VMImage) (now : Z)
    : M VMImage :=
  vm_image ←
    (if decide (Query.name query ≠ EmptyString) then
       vm_image ← image_instance_from (Query.name query) prepared_image;
       modify (set_instances (<[Query.name query := VaultRecord.mk vm_image query now]>));;
       mret vm_image
     else mret VMImage.empty);
  persist_instance_records;;
  persist_image_records;;
  mret vm_image.

(** *** [fetch_image], the branch for URLs and local files *)

(** The kernel and initrd of the default image, fetched beside a custom
    image when the caller asks for them. *)
Definition fetch_default_kernel_and_initrd (fetch_type : FetchType) (query : Query)
    (source_image : VMImage) : M VMImage :=
  if decide (fetch_type = ImageKernelAndInitrd) then
    let kernel_query := Query.mk (Query.name query) "default" false EmptyString Query.Alias in
    info ← info_for kernel_query;
    fetch_kernel_and_initrd info source_image (QDir.dir (VMImage.image_path source_image))
  else mret source_image.

Definition fetch_local_file (fetch_type : FetchType) (query : Query)
    (prepare : PrepareAction) : M VMImage :=
  let path := QUrl_path (Query.release query) in
  disk ← gets fs;
  if negb (QDir.exists_ path disk)
  then throw (runtime_error ("Custom image `" +:+ path +:+ "` does not exist."))
  else
    let source_image := set_image_path VMImage.empty path in
    source_image ←
      (if QString.endsWith (VMImage.image_path source_image) ".xz"
       then extract_image_from (Query.name query) source_image
       else image_instance_from (Query.name query) source_image);
    source_image ← fetch_default_kernel_and_initrd fetch_type query source_image;
    vm_image ← run_prepare prepare source_image;
    remove_source_images source_image vm_image;;
    mret vm_image.

(** The download of the HTTP branch, from the [DeleteOnException] guard to
    the per-instance copy. *)
Definition download_http_image (fetch_type : FetchType) (query : Query)
    (prepare : PrepareAction) (hash : string) (modified : QDateTime)
    (source_image : VMImage) (now : Z) : M VMImage :=
  DeleteOnException (VMImage.image_path source_image)
    (download_to (Query.release query) (VMImage.image_path source_image) 0 IMAGE;;
     source_image ← fetch_default_kernel_and_initrd fetch_type query source_image;
     source_image ←
       (if QString.endsWith (VMImage.image_path source_image) ".xz"
        then extract_downloaded_image source_image
        else mret source_image);
     vm_image ← run_prepare prepare source_image;
     let vm_image := set_release_date vm_image (toString modified) in
     modify (set_prepared (<[hash := VaultRecord.mk vm_image query now]>));;
     remove_source_images source_image vm_image;;
     persist_image_records;;
     image_instance_from (Query.name query) vm_image).

(** The HTTP branch: [inl] is the early return of an unchanged cached
    image, [inr] the image that goes on to the instance catalog. *)
Definition fetch_http_url (fetch_type : FetchType) (query : Query)
    (prepare : PrepareAction) (now : Z) : M (VMImage + VMImage) :=
  let image_url := Query.release query in
  let hash := sha256_hex (Blob (Query.release query)) in
  emit (EvLastModified image_url);;
  let modified := last_modified image_url in
  prepared ← gets prepared_image_records;
  match prepared !! hash with
  | Some record =>
    if isValid modified
       && bool_decide (toString modified = VMImage.release_date (VaultRecord.image record))
    then
      modify (set_prepared (<[hash := VaultRecord.mk (VaultRecord.image record) (VaultRecord.query record) now]>));;
      vm_image ← finalize_image_records query (VaultRecord.image record) now;
      mret (inl vm_image)
    else
      vm_image ← download_http_image fetch_type query prepare hash modified
                   (VaultRecord.image record) now;
      mret (inr vm_image)
  | None =>
    let image_filename := filename_for (QUrl_path image_url) in
    let image_dir_name :=
      QString.section_dot_0_to image_filename
        (if QString.endsWith image_filename ".xz" then 3 else 2)%nat
      +:+ "-" +:+ toString_yyyyMMdd modified in
    image_dir ← make_dir_in images_dir image_dir_name;
    let source_image :=
      VMImage.mk (QDir.filePath image_dir image_filename) EmptyString EmptyString hash
                 EmptyString EmptyString EmptyString [] in
    vm_image ← download_http_image fetch_type query prepare hash modified
                 source_image now;
    mret (inr vm_image)
  end.

Definition fetch_custom_image (fetch_type : FetchType) (query : Query)
    (prepare : PrepareAction) (now : Z) : M VMImage :=
  if negb is_image_url_supported
  then throw (runtime_error "http and file based images are not supported")
  else
    fetched ←
      (if QUrl_isLocalFile (Query.release query)
       then vm_image ← fetch_local_file fetch_type query prepare; mret (inr vm_image)
       else fetch_http_url fetch_type query prepare now);
    match fetched with
    | inl vm_image => mret vm_image
    | inr vm_image =>
      modify (set_instances (<[Query.name query := VaultRecord.mk vm_image query now]>));;
      persist_instance_records;;
      mret vm_image
    end.

(** *** [fetch_image], the alias branch *)

(** Lines 383-394: the host is asked and the platform policy checked,
    before the mutex is taken. *)
Definition resolve_alias (query : Query) : M VMImageInfo :=
  info ← info_for query;
  if negb (is_remote_supported (Query.remote_name query)) then
    throw (runtime_error
             (Query.remote_name query
              +:+ " is not a supported remote. Please use `multipass find` for supported images."))
  else if negb (is_alias_supported (Query.release query) (Query.remote_name query)) then
    throw (runtime_error
             (Query.release query
              +:+ " is not a supported alias. Please use `multipass find` for supported image aliases."))
  else mret info.

(** The body of the lambda run by [QtConcurrent::run]. *)
Definition fetch_task_body (task : FetchTask) : M VMImage :=
  let info := task_info task in
  let source_image := task_source_image task in
  try_catch
    (download_to (VMImageInfo.image_location info) (VMImage.image_path source_image)
                 (VMImageInfo.size info) IMAGE;;
     emit (EvMonitor VERIFY (-1));;
     verify_image_download (VMImage.image_path source_image) (task_id task);;
     source_image ←
       (if decide (task_fetch_type task = ImageKernelAndInitrd)
        then fetch_kernel_and_initrd info source_image (task_image_dir task)
        else mret source_image);
     source_image ←
       (if QString.endsWith (VMImage.image_path source_image) ".xz"
        then extract_downloaded_image source_image
        else mret source_image);
     prepared_image ← run_prepare (task_prepare task) source_image;
     remove_source_images source_image prepared_image;;
     mret prepared_image)
    (λ e, throw (CreateImageException (what e))).

(** [QtConcurrent::run]: the task is queued and its handle returned. *)
Definition spawn (task : FetchTask) : M nat :=
  λ v, (Ok (length (thread_pool v)), set_thread_pool (λ pool, pool ++ [Running task]) v).

(** A worker of the thread pool runs the task behind [future] to its end. *)
Definition run_future (future : nat) : M unit :=
  λ v, match thread_pool v !! future with
       | Some (Running task) =>
         let '(r, v') := fetch_task_body task v in
         (Ok tt, set_thread_pool (<[future := Finished r]>) v')
       | _ => (Ok tt, v)
       end.

(** [future.result()] once the task has finished: its value, or its
    exception thrown again. *)
Definition take_result (future : nat) : M VMImage :=
  pool ← gets thread_pool;
  match pool !! future with
  | Some (Finished (Ok prepared_image)) => mret prepared_image
  | Some (Finished (Throw e)) => throw e
  | _ => throw (runtime_error "future has no result")
  end.

(** [future.result()] as a single caller sees it: the worker finishes the
    task while the caller blocks. *)
Definition future_result (future : nat) : M VMImage :=
  run_future future;;
  take_result future.

(** [prepared_image_records[id].last_accessed = now]: [operator[]] first
    inserts a value-initialised record when [id] has none. *)
Definition touch_prepared (id : string) (now : Z) : M unit :=
  modify (set_prepared (λ records,
    let record :=
      default (VaultRecord.mk VMImage.empty
                 (Query.mk EmptyString EmptyString false EmptyString Query.Alias) 0)
              (records !! id) in
    <[id := VaultRecord.mk (VaultRecord.image record) (VaultRecord.query record) now]>
      records)).

(** The scan of the prepared catalog for an image that serves the query
    (lines 416-441). [Some] is the image returned at line 431; [None]
    means no record served it, or the copy failed and the loop was left. *)
Fixpoint find_prepared (records : list (string * VaultRecord)) (query : Query)
    (id : string) (now : Z) : M (option VMImage) :=
  match records with
  | [] => mret None
  | (key, record) :: rest =>
    if decide (Query.remote_name (VaultRecord.query record) ≠ Query.remote_name query)
    then find_prepared rest query id now
    else
      let aliases := VMImage.aliases (VaultRecord.image record) in
      if bool_decide (id = key) || bool_decide (Query.release query ∈ aliases) then
        let prepared_image := VaultRecord.image record in
        try_catch
          (touch_prepared key now;;
           vm_image ← finalize_image_records query prepared_image now;
           mret (Some vm_image))
          (λ _, mret None)
      else find_prepared rest query id now
  end.

(** How the first critical section of the alias branch ends. *)
Inductive Locked :=
| WaitFor (future : nat)
| Hit (vm_image : VMImage)
| Started (future : nat) (source_path : string).

(** Lines 396-488, run with [fetch_mutex] held: an in-progress fetch of
    [id] is joined; otherwise a prepared image is reused or a new future
    is started and registered. *)
Definition fetch_alias_locked (fetch_type : FetchType) (query : Query)
    (prepare : PrepareAction) (info : VMImageInfo) (now : Z) : M Locked :=
  let id := VMImageInfo.id info in
  in_progress ← gets in_progress_image_fetches;
  match in_progress !! id with
  | Some future =>
    emit (EvMonitor WAITING (-1));;
    mret (WaitFor future)
  | None =>
    found ←
      (if decide (Query.name query ≠ EmptyString) then
         prepared ← gets prepared_image_records;
         find_prepared (map_to_list prepared) query id now
       else mret None);
    match found with
    | Some vm_image => mret (Hit vm_image)
    | None =>
      let image_dir_name :=
        VMImageInfo.release info +:+ "-" +:+ VMImageInfo.version info in
      image_dir ← make_dir_in images_dir image_dir_name;
      let source_image :=
        VMImage.mk (QDir.filePath image_dir (filename_for (VMImageInfo.image_location info)))
                   EmptyString EmptyString id (VMImageInfo.release_title info)
                   EmptyString EmptyString (VMImageInfo.aliases info) in
      future ← spawn (mkFetchTask fetch_type prepare info source_image image_dir id);
      modify (set_in_progress (<[id := future]>));;
      mret (Started future (VMImage.image_path source_image))
    end
  end.

(** Lines 406-411, with the mutex held again after the wait. *)
Definition fetch_alias_joined (query : Query) (id : string) (prepared_image : VMImage)
    (now : Z) : M VMImage :=
  touch_prepared id now;;
  finalize_image_records query prepared_image now.

(** Lines 492-499, with the mutex held again by the call that started the
    future. *)
Definition fetch_alias_finish (query : Query) (id : string) (prepared_image : VMImage)
    (now : Z) : M VMImage :=
  modify (set_prepared (<[id := VaultRecord.mk prepared_image query now]>));;
  vm_image ← finalize_image_records query prepared_image now;
  modify (set_in_progress (delete id));;
  mret vm_image.

Definition fetch_alias_image (fetch_type : FetchType) (query : Query)
    (prepare : PrepareAction) (now : Z) : M VMImage :=
  info ← resolve_alias query;
  let id := VMImageInfo.id info in
  locked ← fetch_alias_locked fetch_type query prepare info now;
  match locked with
  | WaitFor future =>
    prepared_image ← future_result future;
    fetch_alias_joined query id prepared_image now
  | Hit vm_image => mret vm_image
  | Started future source_path =>
    DeleteOnException source_path
      (prepared_image ← future_result future;
       fetch_alias_finish query id prepared_image now)
  end.

(** *** The public operations *)

Definition fetch_image (fetch_type : FetchType) (query : Query) (prepare : PrepareAction)
    (now : Z) : M VMImage :=
  instances ← gets instance_image_records;
  match instances !! Query.name query with
  | Some record => mret (VaultRecord.image record)
  | None =>
    if decide (Query.query_type query ≠ Query.Alias)
    then fetch_custom_image fetch_type query prepare now
    else fetch_alias_image fetch_type query prepare now
  end.

Definition remove (name : string) : M unit :=
  instances ← gets instance_image_records;
  match instances !! name with
  | None => mret tt
  | Some _ =>
    disk ← gets fs;
    match QDir.cd instances_dir name disk with
    | Some instance_dir => modify (set_fs (QDir.removeRecursively instance_dir))
    | None => mret tt
    end;;
    modify (set_instances (delete name));;
    persist_instance_records
  end.

Definition has_record_for (name : string) : M bool :=
  instances ← gets instance_image_records;
  mret (bool_decide (is_Some (instances !! name))).

(** The test of [prune_expired_images] on one record. *)
Definition expired (record : VaultRecord) (now : Z) : bool :=
  bool_decide (Query.query_type (VaultRecord.query record) = Query.Alias)
  && negb (Query.persistent (VaultRecord.query record))
  && (VaultRecord.last_accessed record + days_to_expire * ticks_per_day <=? now).

(** The first loop of [prune_expired_images]: the keys of the expired
    records, whose image directories are removed on the way. *)
Fixpoint collect_expired (records : list (string * VaultRecord)) (now : Z)
    : M (list string) :=
  match records with
  | [] => mret []
  | (key, record) :: rest =>
    if expired record now then
      let image_file := VMImage.image_path (VaultRecord.image record) in
      disk ← gets fs;
      (if QDir.exists_ image_file disk
       then modify (set_fs (QDir.removeRecursively (QDir.dir image_file)))
       else mret tt);;
      expired_keys ← collect_expired rest now;
      mret (key :: expired_keys)
    else collect_expired rest now
  end.

Definition prune_expired_images (now : Z) : M unit :=
  prepared ← gets prepared_image_records;
  expired_keys ← collect_expired (map_to_list prepared) now;
  modify (set_prepared (λ records, foldl (λ m key, delete key m) records expired_keys));;
  persist_image_records.

(** The first loop of [update_images]: the keys whose alias now resolves
    to another image. A record whose key begins with its [release] (an
    image asked for by hash) is not looked up. *)
Fixpoint keys_to_update (records : list (string * VaultRecord)) : M (list string) :=
  match records with
  | [] => mret []
  | (key, record) :: rest =>
    let stored := VaultRecord.query record in
    if bool_decide (Query.query_type stored = Query.Alias)
       && negb (QString.startsWith key (Query.release stored))
    then
      info ← info_for stored;
      keys ← keys_to_update rest;
      mret (if decide (VMImageInfo.id info ≠ key) then key :: keys else keys)
    else keys_to_update rest
  end.

(** The second loop of [update_images]: [operator[]] reads the record
    stored under the key at that time. *)
Fixpoint refetch (keys : list string) (fetch_type : FetchType) (prepare : PrepareAction)
    (now : Z) : M unit :=
  match keys with
  | [] => mret tt
  | key :: rest =>
    touch ← gets (λ v, prepared_image_records v !! key);
    let stored :=
      from_option VaultRecord.query
        (Query.mk EmptyString EmptyString false EmptyString Query.Alias) touch in
    (if touch is None
     then modify (set_prepared (<[key := VaultRecord.mk VMImage.empty stored 0]>))
     else mret tt);;
    fetch_image fetch_type stored prepare now;;
    refetch rest fetch_type prepare now
  end.

Definition update_images (fetch_type : FetchType) (prepare : PrepareAction) (now : Z)
    : M unit :=
  prepared ← gets prepared_image_records;
  keys ← keys_to_update (map_to_list prepared);
  refetch keys fetch_type prepare now.

End vault.

(** ** Concurrent calls of [fetch_image]

    Several threads call [fetch_image] on the one vault. A call advances
    in the steps the mutex and the future cut it into: the lookups before
    the mutex is taken (lines 271-394), the first critical section (lines
    396-488), and the critical section after the awaited future has
    finished (lines 406-411 for a call that joined a fetch, lines 490-499
    for the call that started it). The futures are run by workers of the
    thread pool. Each step is atomic; the branch for URLs and local files,
    which takes no mutex, is one step. *)

Inductive Call :=
| Called (fetch_type : FetchType) (query : Query) (prepare : PrepareAction)
| Resolved (fetch_type : FetchType) (query : Query) (prepare : PrepareAction)
           (info : VMImageInfo)
| Joined (query : Query) (id : string) (future : nat)
| Fetching (query : Query) (id : string) (future : nat) (source_path : string)
| Returned (r : result VMImage).

Record System := mkSystem {
  vault : Vault;
  calls : list Call
}.

(** Who moves next: the call with index [i], at clock reading [now], or
    the worker that runs the future [future]. *)
Inductive Move :=
| Caller (i : nat) (now : Z)
| Worker (future : nat).

Section concurrent.
Context `{Collaborators}.

(** The next step of a call; [None] when the call has returned or waits
    for a future that has not finished. *)
Definition step_call (now : Z) (c : Call) (v : Vault) : option (Call * Vault) :=
  match c with
  | Called fetch_type query prepare =>
    match instance_image_records v !! Query.name query with
    | Some record => Some (Returned (Ok (VaultRecord.image record)), v)
    | None =>
      if decide (Query.query_type query ≠ Query.Alias) then
        let '(r, v') := fetch_custom_image fetch_type query prepare now v in
        Some (Returned r, v')
      else
        match resolve_alias query v with
        | (Ok info, v') => Some (Resolved fetch_type query prepare info, v')
        | (Throw e, v') => Some (Returned (Throw e), v')
        end
    end
  | Resolved fetch_type query prepare info =>
    let id := VMImageInfo.id info in
    match fetch_alias_locked fetch_type query prepare info now v with
    | (Ok (WaitFor future), v') => Some (Joined query id future, v')
    | (Ok (Hit vm_image), v') => Some (Returned (Ok vm_image), v')
    | (Ok (Started future source_path), v') =>
      Some (Fetching query id future source_path, v')
    | (Throw e, v') => Some (Returned (Throw e), v')
    end
  | Joined query id future =>
    match thread_pool v !! future with
    | Some (Finished (Ok prepared_image)) =>
      let '(r, v') := fetch_alias_joined query id prepared_image now v in
      Some (Returned r, v')
    | Some (Finished (Throw e)) => Some (Returned (Throw e), v)
    | _ => None
    end
  | Fetching query id future source_path =>
    match thread_pool v !! future with
    | Some (Finished _) =>
      let '(r, v') :=
        DeleteOnException source_path
          (prepared_image ← take_result future;
           fetch_alias_finish query id prepared_image now) v in
      Some (Returned r, v')
    | _ => None
    end
  | Returned _ => None
  end.

(** One move of the system; [None] when the move is not enabled. *)
Definition exec (m : Move) (sys : System) : option System :=
  match m with
  | Caller i now =>
    c ← calls sys !! i;
    '(c', v') ← step_call now c (vault sys);
    Some (mkSystem v' (<[i := c']> (calls sys)))
  | Worker future =>
    match thread_pool (vault sys) !! future with
    | Some (Running _) => Some (mkSystem (run_future future (vault sys)).2 (calls sys))
    | _ => None
    end
  end.

(** A schedule, move by move. *)
Fixpoint run (schedule : list Move) (sys : System) : option System :=
  match schedule with
  | [] => Some sys
  | m :: rest => sys' ← exec m sys; run rest sys'
  end.

End concurrent.

Definition returned (c : Call) : bool :=
  match c with Returned _ => true | _ => false end.

(** Every call has returned. *)
Definition completed (sys : System) : Prop := Forall (λ c, returned c = true) (calls sys).

Definition is_image_download (e : Event) : bool :=
  match e with EvDownloadTo _ _ _ IMAGE => true | _ => false end.

(** How often [download_to] was invoked for an image. *)
Definition image_downloads (events : list Event) : nat :=
  length (filter (λ e, is_image_download e = true) events).

(** No two futures that are still running fetch the same image id. *)
Definition at_most_one_in_flight (v : Vault) : Prop :=
  ∀ future1 future2 task1 task2,
    thread_pool v !! future1 = Some (Running task1) →
    thread_pool v !! future2 = Some (Running task2) →
    task_id task1 = task_id task2 →
    future1 = future2.

(** ** Definitions used to state the properties *)

(** What [load_db] makes of a record that [persist_records] wrote: the
    name is dropped, the type is read from a key that was not written, and
    a zero tick count is replaced by the clock. *)
Definition reloaded (now : Z) (record : VaultRecord) : VaultRecord :=
  let stored := VaultRecord.query record in
  let count := QJson.double_of_qint64 (VaultRecord.last_accessed record) in
  VaultRecord.mk (VaultRecord.image record)
    (Query.mk EmptyString (Query.release stored) (Query.persistent stored)
              (Query.remote_name stored) Query.Alias)
    (if decide (count = 0) then now else count).

(** A prepared record of an image fetched from a URL for instance vm1. *)
Definition http_record : VaultRecord :=
  VaultRecord.mk
    (VMImage.mk "/cache/vault/images/x-20190101/x.img" EmptyString EmptyString "77aa"
                EmptyString EmptyString "Tue Jan 1 2019" [])
    (Query.mk "vm1" "http://h/x.img" false EmptyString Query.HttpUrl)
    1546300800.

(** A record whose tick count is zero. *)
Definition untouched_record : VaultRecord :=
  VaultRecord.mk
    (VMImage.mk "/cache/vault/images/bionic-20190101/b.img" EmptyString EmptyString "abcd"
                "18.04 LTS" EmptyString EmptyString ["bionic"])
    (Query.mk EmptyString "bionic" false "release" Query.Alias)
    0.

Definition empty_disk : FS := mkFS ∅ ∅.

(** *** A test double for the collaborators

    One host serving the remote [release], whose alias [bionic] resolves
    to the image with id [abcd]; the downloader serves that image's bytes,
    whose digest is [image_digest]. *)

Definition bionic_info : VMImageInfo :=
  VMImageInfo.mk ["bionic"; "b"] "bionic" "18.04 LTS" "http://h/b.img"
                 "http://h/b-vmlinuz" "http://h/b-initrd" "abcd" "20190101" 100.

Definition release_host : VMImageHost :=
  mkVMImageHost
    (λ query, if bool_decide (Query.release query ∈ VMImageInfo.aliases bionic_info)
              then Some bionic_info else None)
    ["release"].

Definition identity_prepare : PrepareAction := λ source_image disk, (Ok source_image, disk).

Definition mock_collaborators (image_digest : string) : Collaborators := {|
  image_hosts := [release_host];
  download := λ url, Downloaded (Blob ("bytes of " +:+ url));
  last_modified := λ url, mkQDateTime true "Tue Jan 1 00:00:00 2019" "20190101";
  xz_decode := λ data, Some data;
  sha256_hex := λ data,
    match data with
    | Blob "bytes of http://h/b.img" => image_digest
    | Blob "http://h/x.img" => "77aa"
    | _ => "0000"
    end;
  is_image_url_supported := true;
  is_remote_supported := λ _, true;
  is_alias_supported := λ _ _, true;
  QUrl_isLocalFile := λ url, QString.startsWith url "file://";
  QUrl_path := λ url,
    if QString.startsWith url "file://"
    then String.substring 7 (String.length url) url
    else "/" +:+ QDir.fileName url;
  cache_dir_path := "/cache";
  data_dir_path := "/data";
  days_to_expire := 14;
  ticks_per_day := 86400
|}.

(** A vault that was just constructed on an empty disk. *)
Definition fresh_vault : Vault := mkVault empty_disk ∅ ∅ ∅ [] [].

Definition bionic_query (name : string) : Query :=
  Query.mk name "bionic" false "release" Query.Alias.

(** The instance record of vm1, as a fetch of [bionic] leaves it. *)
Definition vm1_record : VaultRecord :=
  VaultRecord.mk
    (VMImage.mk "/data/vault/instances/vm1/b.img" EmptyString EmptyString "abcd"
                "18.04 LTS" EmptyString EmptyString [])
    (bionic_query "vm1") 1546300800.

(** A vault in which instance vm1 has been materialised. *)
Definition vault_with_vm1 : Vault :=
  mkVault
    (mkFS {[ "/data/vault/instances/vm1/b.img" := Blob "bytes of http://h/b.img" ]}
          {[ "/data/vault/instances/vm1"; "/data/vault/instances" ]})
    ∅ {[ "vm1" := vm1_record ]} ∅ [] [].

(** The prepared record of an older bionic image, whose id begins with b,
    fetched under the alias b. *)
Definition old_bionic_record : VaultRecord :=
  VaultRecord.mk
    (VMImage.mk "/cache/vault/images/bionic-20181201/b.img" EmptyString EmptyString "b7c1"
                "18.04 LTS" EmptyString EmptyString ["bionic"; "b"])
    (Query.mk EmptyString "b" false "release" Query.Alias)
    1543622400.

Definition vault_with_old_bionic : Vault :=
  mkVault
    (mkFS {[ "/cache/vault/images/bionic-20181201/b.img" := Blob "old bytes" ]}
          {[ "/cache/vault/images/bionic-20181201" ]})
    {[ "b7c1" := old_bionic_record ]} ∅ ∅ [] [].

(** Nothing of the directory [d] is left on the disk. *)
Definition gone (d : string) (disk : FS) : Prop :=
  (d ∉ dirs disk) ∧ ∀ path, QDir.below d path = true → files disk !! path = None.

(** The disk after the first loop of [prune_expired_images]. *)
Fixpoint prune_disk `{Collaborators} (records : list (string * VaultRecord)) (now : Z)
    (disk : FS) : FS :=
  match records with
  | [] => disk
  | (key, record) :: rest =>
    if expired record now then
      let image_file := VMImage.image_path (VaultRecord.image record) in
      prune_disk rest now
        (if QDir.exists_ image_file disk
         then QDir.removeRecursively (QDir.dir image_file) disk else disk)
    else prune_disk rest now disk
  end.

(** *** Frames of the vault operations *)

(** Operations that leave both catalogs, the in-progress map and the
    thread pool alone: they work on the disk and add to the trace. *)
Definition disk_only (v v' : Vault) : Prop :=
  prepared_image_records v' = prepared_image_records v
  ∧ instance_image_records v' = instance_image_records v
  ∧ in_progress_image_fetches v' = in_progress_image_fetches v
  ∧ thread_pool v' = thread_pool v
  ∧ trace v `prefix_of` trace v'.

(** Operations that leave the prepared catalog, the in-progress map and
    the thread pool alone. *)
Definition keeps_fetch_state (v v' : Vault) : Prop :=
  prepared_image_records v' = prepared_image_records v
  ∧ in_progress_image_fetches v' = in_progress_image_fetches v
  ∧ thread_pool v' = thread_pool v
  ∧ trace v `prefix_of` trace v'.

(** Every operation only adds to the trace. *)
Definition trace_grows (v v' : Vault) : Prop := trace v `prefix_of` trace v'.

Definition frame (R : relation Vault) {A} (m : M A) : Prop := ∀ v, R v (m v).2.

(** [path] names a file placed in the directory of instance [name]. *)
Definition in_instance_dir `{Collaborators} (name path : string) : Prop :=
  ∃ file_name, path = QDir.filePath (QDir.filePath instances_dir name) file_name.

(** The HTTP branch returns the cached image without downloading: the
    prepared catalog has a record under the URL's hash whose release date is
    the valid last-modified time of the URL. *)
Definition cached_unmodified `{Collaborators} (query : Query) (v : Vault) : Prop :=
  ∃ record,
    prepared_image_records v !! sha256_hex (Blob (Query.release query)) = Some record
    ∧ isValid (last_modified (Query.release query)) = true
    ∧ toString (last_modified (Query.release query))
      = VMImage.release_date (VaultRecord.image record).

(** A vault whose disk holds a local image file. *)
Definition vault_with_local_file : Vault :=
  mkVault (mkFS {[ "/home/u/custom.img" := Blob "custom bytes" ]} {[ "/home/u" ]})
          ∅ ∅ ∅ [] [].

Definition local_query : Query :=
  Query.mk EmptyString "file:///home/u/custom.img" false EmptyString Query.LocalFile.

(** Operations that leave the in-progress map and the thread pool alone. *)
Definition keeps_in_flight (v v' : Vault) : Prop :=
  in_progress_image_fetches v' = in_progress_image_fetches v
  ∧ thread_pool v' = thread_pool v.

(** Operations that add no image download to the trace. *)
Definition same_downloads (v v' : Vault) : Prop :=
  image_downloads (trace v') = image_downloads (trace v).

(** The disk [disk'] has every file and directory of [disk]. *)
Definition fs_grows (disk disk' : FS) : Prop :=
  (∀ path, is_Some (files disk !! path) → is_Some (files disk' !! path))
  ∧ dirs disk ⊆ dirs disk'.

(** Operations that remove nothing from the disk. *)
Definition disk_grows (v v' : Vault) : Prop := fs_grows (fs v) (fs v').

(** *** The bookkeeping of fetches in flight *)

(** Every running future is the one registered for its image id, a call
    that started a fetch finds its future registered, and no two calls
    have started a fetch of the same id. *)
Definition registered (sys : System) : Prop :=
  (∀ future task,
     thread_pool (vault sys) !! future = Some (Running task) →
     in_progress_image_fetches (vault sys) !! task_id task = Some future)
  ∧ (∀ i query id future source_path,
       calls sys !! i = Some (Fetching query id future source_path) →
       in_progress_image_fetches (vault sys) !! id = Some future)
  ∧ (∀ i j query1 query2 id future1 future2 path1 path2,
       calls sys !! i = Some (Fetching query1 id future1 path1) →
       calls sys !! j = Some (Fetching query2 id future2 path2) →
       i = j).

Definition called (c : Call) : bool :=
  match c with Called _ _ _ => true | _ => false end.

(** *** Concurrent calls for one image *)

Section one_image.
Context `{Collaborators}.

(** The prepared record under [key] serves an alias query that resolved
    to [id]: the test of the scan at lines 418-422. *)
Definition serves (query : Query) (id key : string) (record : VaultRecord) : Prop :=
  Query.remote_name (VaultRecord.query record) = Query.remote_name query
  ∧ (id = key ∨ Query.release query ∈ VMImage.aliases (VaultRecord.image record)).

(** A path is empty or names a regular file. *)
Definition stored_file (path : string) (disk : FS) : Prop :=
  path = EmptyString ∨ is_Some (files disk !! path).

Definition stored (image : VMImage) (disk : FS) : Prop :=
  stored_file (VMImage.image_path image) disk
  ∧ stored_file (VMImage.kernel_path image) disk
  ∧ stored_file (VMImage.initrd_path image) disk.

(** A path is empty or exists on the disk. *)
Definition present_file (path : string) (disk : FS) : Prop :=
  path = EmptyString ∨ QDir.exists_ path disk = true.

Definition present (image : VMImage) (disk : FS) : Prop :=
  present_file (VMImage.image_path image) disk
  ∧ present_file (VMImage.kernel_path image) disk
  ∧ present_file (VMImage.initrd_path image) disk.

(** Where [copy] puts a file of a prepared image for an instance. *)
Definition copied_path (instance_name path : string) : string :=
  if decide (path = EmptyString) then EmptyString
  else QDir.filePath (QDir.filePath instances_dir instance_name) (QDir.fileName path).

(** The image [image_instance_from] returns for an instance. *)
Definition instance_copy (instance_name : string) (prepared_image : VMImage) : VMImage :=
  VMImage.mk (copied_path instance_name (VMImage.image_path prepared_image))
             (copied_path instance_name (VMImage.kernel_path prepared_image))
             (copied_path instance_name (VMImage.initrd_path prepared_image))
             (VMImage.id prepared_image)
             (VMImage.original_release prepared_image)
             (VMImage.current_release prepared_image)
             (VMImage.release_date prepared_image) [].

Definition image_dir_of (info : VMImageInfo) : string :=
  QDir.filePath images_dir (VMImageInfo.release info +:+ "-" +:+ VMImageInfo.version info).

(** The task the first critical section hands to the thread pool. *)
Definition fetch_task (fetch_type : FetchType) (prepare : PrepareAction)
    (info : VMImageInfo) : FetchTask :=
  mkFetchTask fetch_type prepare info
    (VMImage.mk (QDir.filePath (image_dir_of info)
                   (filename_for (VMImageInfo.image_location info)))
                EmptyString EmptyString (VMImageInfo.id info)
                (VMImageInfo.release_title info) EmptyString EmptyString
                (VMImageInfo.aliases info))
    (image_dir_of info) (VMImageInfo.id info).

(** The downloader, the decoder and the prepare action do their work: run
    on the disk the first critical section leaves, the task returns an
    image whose files are stored. *)
Definition task_succeeds (fetch_type : FetchType) (prepare : PrepareAction)
    (info : VMImageInfo) (disk : FS) : Prop :=
  ∀ v, fs v = QDir.mkpath (image_dir_of info) disk →
    ∃ prepared_image v',
      fetch_task_body (fetch_task fetch_type prepare info) v = (Ok prepared_image, v')
      ∧ stored prepared_image (fs v').

(** One of the concurrent calls: what it was called with and the image
    info its query resolves to. *)
Record CallSpec := mkCallSpec {
  spec_fetch_type : FetchType;
  spec_query : Query;
  spec_prepare : PrepareAction;
  spec_info : VMImageInfo
}.

Section specs.
Variables (v0 : Vault) (remote id : string).

(** A call the theorem is about: an alias query of the common remote with
    a name that has no instance yet, which no prepared image serves, which
    resolves to the common id, and whose fetch would succeed. *)
Definition admissible (spec : CallSpec) : Prop :=
  let query := spec_query spec in
  Query.query_type query = Query.Alias
  ∧ Query.remote_name query = remote
  ∧ Query.name query ≠ EmptyString
  ∧ instance_image_records v0 !! Query.name query = None
  ∧ (∀ key record, prepared_image_records v0 !! key = Some record →
       ¬ serves query id key record)
  ∧ (resolve_alias query v0).1 = Ok (spec_info spec)
  ∧ VMImageInfo.id (spec_info spec) = id
  ∧ task_succeeds (spec_fetch_type spec) (spec_prepare spec) (spec_info spec) (fs v0).

(** How far the fetch of the image has come. *)
Inductive Phase :=
| Cold
| InFlight (starter : nat) (spec : CallSpec)
| Landed (starter : nat) (prepared_image : VMImage)
| Cached (prepared_image : VMImage).

Definition phase_image (phase : Phase) : option VMImage :=
  match phase with
  | Landed _ prepared_image | Cached prepared_image => Some prepared_image
  | _ => None
  end.

Definition phase_starter (phase : Phase) : option nat :=
  match phase with
  | InFlight starter _ | Landed starter _ => Some starter
  | _ => None
  end.

(** Instance records are the initial ones or copies of the fetched image. *)
Definition instances_copied (prepared_image : VMImage) (v : Vault) : Prop :=
  ∀ name record, instance_image_records v !! name = Some record →
    instance_image_records v0 !! name = Some record
    ∨ VaultRecord.image record = instance_copy name prepared_image
      ∧ present (VaultRecord.image record) (fs v).

Definition others_unchanged (v : Vault) : Prop :=
  ∀ key, key ≠ id → prepared_image_records v !! key = prepared_image_records v0 !! key.

Definition vault_inv (phase : Phase) (v : Vault) : Prop :=
  match phase with
  | Cold =>
    fs v = fs v0
    ∧ prepared_image_records v = prepared_image_records v0
    ∧ instance_image_records v = instance_image_records v0
    ∧ in_progress_image_fetches v !! id = None
    ∧ thread_pool v = []
    ∧ image_downloads (trace v) = image_downloads (trace v0)
  | InFlight _ spec =>
    fs v = QDir.mkpath (image_dir_of (spec_info spec)) (fs v0)
    ∧ prepared_image_records v = prepared_image_records v0
    ∧ instance_image_records v = instance_image_records v0
    ∧ in_progress_image_fetches v !! id = Some 0%nat
    ∧ thread_pool v
      = [Running (fetch_task (spec_fetch_type spec) (spec_prepare spec) (spec_info spec))]
    ∧ image_downloads (trace v) = image_downloads (trace v0)
    ∧ admissible spec
  | Landed _ prepared_image =>
    stored prepared_image (fs v)
    ∧ thread_pool v = [Finished (Ok prepared_image)]
    ∧ in_progress_image_fetches v !! id = Some 0%nat
    ∧ image_downloads (trace v) = S (image_downloads (trace v0))
    ∧ others_unchanged v
    ∧ instances_copied prepared_image v
  | Cached prepared_image =>
    stored prepared_image (fs v)
    ∧ thread_pool v = [Finished (Ok prepared_image)]
    ∧ in_progress_image_fetches v !! id = None
    ∧ image_downloads (trace v) = S (image_downloads (trace v0))
    ∧ others_unchanged v
    ∧ instances_copied prepared_image v
    ∧ ∃ record, prepared_image_records v !! id = Some record
        ∧ VaultRecord.image record = prepared_image
        ∧ Query.remote_name (VaultRecord.query record) = remote
  end.

(** What the call with index [i] may be doing in a phase. *)
Definition call_inv (phase : Phase) (disk : FS) (i : nat) (spec : CallSpec) (c : Call)
    : Prop :=
  match c with
  | Called fetch_type query prepare =>
    fetch_type = spec_fetch_type spec ∧ query = spec_query spec
    ∧ prepare = spec_prepare spec
  | Resolved fetch_type query prepare info =>
    fetch_type = spec_fetch_type spec ∧ query = spec_query spec
    ∧ prepare = spec_prepare spec ∧ info = spec_info spec
  | Joined query id' future =>
    query = spec_query spec ∧ id' = id ∧ future = 0%nat ∧ phase ≠ Cold
  | Fetching query id' future source_path =>
    query = spec_query spec ∧ id' = id ∧ future = 0%nat ∧ phase_starter phase = Some i
  | Returned r =>
    ∃ prepared_image,
      phase_image phase = Some prepared_image
      ∧ r = Ok (instance_copy (Query.name (spec_query spec)) prepared_image)
      ∧ present (instance_copy (Query.name (spec_query spec)) prepared_image) disk
  end.

(** The invariant of the concurrent calls described by [specs]. *)
Definition fetch_inv (specs : list CallSpec) (sys : System) : Prop :=
  ∃ phase,
    vault_inv phase (vault sys)
    ∧ length (calls sys) = length specs
    ∧ (∀ i spec c, specs !! i = Some spec → calls sys !! i = Some c →
         call_inv phase (fs (vault sys)) i spec c)
    ∧ (∀ starter, phase_starter phase = Some starter →
         ∃ query source_path,
           calls sys !! starter = Some (Fetching query id 0%nat source_path)).

End specs.
End one_image.

(** The call a thread makes for a [CallSpec]. *)
Definition call_of (spec : CallSpec) : Call :=
  Called (spec_fetch_type spec) (spec_query spec) (spec_prepare spec).

(** Two launches of bionic from the remote [release], for vmA and vmB. *)
Definition vmA_spec : CallSpec :=
  mkCallSpec ImageOnly (bionic_query "vmA") identity_prepare bionic_info.

Definition vmB_spec : CallSpec :=
  mkCallSpec ImageOnly (bionic_query "vmB") identity_prepare bionic_info.

(** The launch of bionic for vmB that names no remote. *)
Definition vmB_any_remote_spec : CallSpec :=
  mkCallSpec ImageOnly (Query.mk "vmB" "bionic" false EmptyString Query.Alias)
             identity_prepare bionic_info.

(** vmB joins the fetch that vmA started. *)
Definition joining_schedule : list Move :=
  [Caller 0 1; Caller 1 2; Caller 0 3; Caller 1 4; Worker 0; Caller 1 5; Caller 0 6].

(** vmB has asked its host before vmA takes the mutex, and takes the mutex
    itself only after vmA has returned. *)
Definition late_schedule : list Move :=
  [Caller 0 1; Caller 1 2; Caller 0 3; Worker 0; Caller 0 4; Caller 1 5; Worker 1;
   Caller 1 6].

(** *** Definitions for the remaining properties *)

(** An entry of a catalog file at which [load_db] gives up: one of the five
    early returns of its loop (lines 120, 124, 128, 146, 151). *)
Definition malformed (value : QJsonValue) : Prop :=
  let record := QJson.toObject value in
  let image := QJson.toObject (QJson.get record "image") in
  let query := QJson.toObject (QJson.get record "query") in
  record = ∅
  ∨ image = ∅
  ∨ QJson.toString (QJson.get image "path") = None
  ∨ query = ∅
  ∨ QJson.isBool (QJson.get query "persistent") = false.

(** The hosts of the constructor's list that serve a remote. *)
Definition hosts_of_remote `{Collaborators} (remote : string) : list VMImageHost :=
  filter (λ image_host, remote ∈ supported_remotes image_host) image_hosts.

(** The message of the exception [info_for] ends with. *)
Definition no_image_matching `{Collaborators} (query : Query) : exception :=
  runtime_error ("Unable to find an image matching " +:+ dquote +:+ Query.release query +:+ dquote).

(** The test double with a downloader that breaks off at [broken_url]
    after part of the file was written. *)
Definition flaky_collaborators (broken_url : string) : Collaborators := {|
  image_hosts := @image_hosts (mock_collaborators "abcd");
  download := λ url,
    if decide (url = broken_url) then Aborted (Some (Blob "partial bytes")) "Network timeout"
    else @download (mock_collaborators "abcd") url;
  last_modified := @last_modified (mock_collaborators "abcd");
  xz_decode := @xz_decode (mock_collaborators "abcd");
  sha256_hex := @sha256_hex (mock_collaborators "abcd");
  is_image_url_supported := true;
  is_remote_supported := λ _, true;
  is_alias_supported := λ _ _, true;
  QUrl_isLocalFile := @QUrl_isLocalFile (mock_collaborators "abcd");
  QUrl_path := @QUrl_path (mock_collaborators "abcd");
  cache_dir_path := "/cache";
  data_dir_path := "/data";
  days_to_expire := 14;
  ticks_per_day := 86400
|}.

(** A vault whose cache holds a downloaded, still compressed image. *)
Definition vault_with_xz : Vault :=
  mkVault (mkFS {[ "/cache/vault/images/x-20190101/x.img.xz" := Blob "xz bytes" ]}
                {[ "/cache/vault/images/x-20190101" ]})
          ∅ ∅ ∅ [] [].

(** Where the HTTP branch of [fetch_image] downloads to (lines 335-348):
    the path of the stale cached image, or a file named after the URL in a
    fresh directory of the image cache. *)
Definition http_source_path `{Collaborators} (query : Query) (v : Vault) : string :=
  match prepared_image_records v !! sha256_hex (Blob (Query.release query)) with
  | Some record => VMImage.image_path (VaultRecord.image record)
  | None =>
    let image_filename := filename_for (QUrl_path (Query.release query)) in
    let image_dir_name :=
      QString.section_dot_0_to image_filename
        (if QString.endsWith image_filename ".xz" then 3 else 2)%nat
      +:+ "-" +:+ toString_yyyyMMdd (last_modified (Query.release query)) in
    QDir.filePath (QDir.filePath images_dir image_dir_name) image_filename
  end.

Definition url_query : Query :=
  Query.mk "vm1" "http://h/x.img" false EmptyString Query.HttpUrl.

(** The prepared record of the image behind [url_query], as last modified
    at the time the test double reports. *)
Definition cached_url_record : VaultRecord :=
  VaultRecord.mk
    (VMImage.mk "/cache/vault/images/x-20190101/x.img" EmptyString EmptyString "77aa"
                EmptyString EmptyString "Tue Jan 1 00:00:00 2019" [])
    (Query.mk "vm0" "http://h/x.img" false EmptyString Query.HttpUrl)
    1546300800.

Definition vault_with_cached_url : Vault :=
  mkVault
    (mkFS {[ "/cache/vault/images/x-20190101/x.img" := Blob "bytes of http://h/x.img" ]}
          {[ "/cache/vault/images/x-20190101" ]})
    {[ "77aa" := cached_url_record ]} ∅ ∅ [] [].

(** The test double on a platform that supports the default remote only. *)
Definition restricted_collaborators : Collaborators := {|
  image_hosts := @image_hosts (mock_collaborators "abcd");
  download := @download (mock_collaborators "abcd");
  last_modified := @last_modified (mock_collaborators "abcd");
  xz_decode := @xz_decode (mock_collaborators "abcd");
  sha256_hex := @sha256_hex (mock_collaborators "abcd");
  is_image_url_supported := false;
  is_remote_supported := λ remote, bool_decide (remote = EmptyString);
  is_alias_supported := λ _ _, true;
  QUrl_isLocalFile := @QUrl_isLocalFile (mock_collaborators "abcd");
  QUrl_path := @QUrl_path (mock_collaborators "abcd");
  cache_dir_path := "/cache";
  data_dir_path := "/data";
  days_to_expire := 14;
  ticks_per_day := 86400
|}.

(** The fetch task of an alias query fails with [e]: run on the disk the
    first critical section leaves, the task throws [e]. *)
Definition task_fails `{Collaborators} (fetch_type : FetchType) (prepare : PrepareAction)
    (info : VMImageInfo) (disk : FS) (e : exception) : Prop :=
  ∀ v, fs v = QDir.mkpath (image_dir_of info) disk →
    (fetch_task_body (fetch_task fetch_type prepare info) v).1 = Throw e.

(** The prepared record a launch of bionic from the remote [release] leaves. *)
Definition bionic_record : VaultRecord :=
  VaultRecord.mk
    (VMImage.mk "/cache/vault/images/bionic-20190101/b.img" EmptyString EmptyString "abcd"
                "18.04 LTS" EmptyString EmptyString ["bionic"; "b"])
    (bionic_query "vmA") 1546300800.

(** A vault whose cache holds the prepared image of bionic. *)
Definition vault_with_bionic : Vault :=
  mkVault
    (mkFS {[ "/cache/vault/images/bionic-20190101/b.img" := Blob "bytes of http://h/b.img" ]}
          {[ "/cache/vault/images/bionic-20190101" ]})
    {[ "abcd" := bionic_record ]} ∅ ∅ [] [].

Definition hash_mismatch : exception :=
  CreateImageException "Downloaded image hash does not match".

(** A vault in which a fetch of bionic has failed: the in-progress entry
    of the image names the failed future. *)
Definition vault_with_failed_fetch : Vault :=
  mkVault empty_disk ∅ ∅ {[ "abcd" := 0%nat ]} [Finished (Throw hash_mismatch)] [].

(** Operations that remove no record from either catalog and leave the
    instance records of all names but [name] as they are. *)
Definition keeps_records (name : string) (v v' : Vault) : Prop :=
  dom (prepared_image_records v) ⊆ dom (prepared_image_records v')
  ∧ dom (instance_image_records v) ⊆ dom (instance_image_records v')
  ∧ ∀ other, other ≠ name →
      instance_image_records v' !! other = instance_image_records v !! other.

(** Operations that remove no record from either catalog. *)
Definition records_kept (v v' : Vault) : Prop :=
  dom (prepared_image_records v) ⊆ dom (prepared_image_records v')
  ∧ dom (instance_image_records v) ⊆ dom (instance_image_records v').

(** A vault whose cache has an image of an alias the host no longer knows. *)
Definition vault_with_xenial : Vault :=
  mkVault empty_disk
    {[ "9f00" :=
         VaultRecord.mk
           (VMImage.mk "/cache/vault/images/xenial-20180101/x.img" EmptyString EmptyString
                       "9f00" "16.04 LTS" EmptyString EmptyString ["xenial"])
           (Query.mk EmptyString "xenial" false "release" Query.Alias)
           1546300800 ]}
    ∅ ∅ [] [].

(** A vault whose cache has an older image of bionic, fetched for the
    instance vm1, which still has its record. *)
Definition vault_with_stale_bionic : Vault :=
  mkVault
    (mkFS {[ "/cache/vault/images/bionic-20181201/b.img" := Blob "old bytes";
             "/data/vault/instances/vm1/b.img" := Blob "old bytes" ]}
          {[ "/cache/vault/images/bionic-20181201"; "/data/vault/instances/vm1";
             "/data/vault/instances" ]})
    {[ "77c1" :=
         VaultRecord.mk
           (VMImage.mk "/cache/vault/images/bionic-20181201/b.img" EmptyString EmptyString
                       "77c1" "18.04 LTS" EmptyString EmptyString ["bionic"; "b"])
           (bionic_query "vm1") 1543622400 ]}
    {[ "vm1" := vm1_record ]} ∅ [] [].

(** A vault with the instance vm1 and an image fetched from a local file
    without an instance name. *)
Definition vault_with_unnamed : Vault :=
  mkVault
    (mkFS {[ "/data/vault/instances/vm1/b.img" := Blob "bytes of http://h/b.img";
             "/data/vault/instances/custom.img" := Blob "custom bytes" ]}
          {[ "/data/vault/instances/vm1"; "/data/vault/instances" ]})
    ∅
    {[ "vm1" := vm1_record;
       EmptyString :=
         VaultRecord.mk
           (VMImage.mk "/data/vault/instances/custom.img" EmptyString EmptyString
                       EmptyString EmptyString EmptyString EmptyString [])
           local_query 1546300900 ]}
    ∅ [] [].

(** The local image of [vault_with_local_file], asked for instance vm3. *)
Definition named_local_query : Query :=
  Query.mk "vm3" "file:///home/u/custom.img" false EmptyString Query.LocalFile.

Definition vmC_spec : CallSpec :=
  mkCallSpec ImageOnly (bionic_query "vmC") identity_prepare bionic_info.

(** Three launches: vmA starts the fetch, vmB joins it, and vmC takes the
    mutex when the image is in the cache. *)
Definition three_launches_schedule : list Move :=
  [Caller 0 1; Caller 1 2; Caller 2 3; Caller 0 4; Caller 1 5; Worker 0; Caller 1 6;
   Caller 0 7; Caller 2 8].

(** * Properties *)

(** ** The JSON codec: persist and load *)

Section codec.

Lemma isEmpty_insert (o : gmap string QJsonValue) key value :
  QJson.isEmpty (<[key := value]> o) = false.
Proof.
  unfold QJson.isEmpty. apply bool_decide_eq_false, insert_non_empty.
Qed.

Lemma get_insert_eq (o : gmap string QJsonValue) key value :
  QJson.get (<[key := value]> o) key = value.
Proof. unfold QJson.get. by rewrite lookup_insert_eq. Qed.

Lemma get_insert_ne (o : gmap string QJsonValue) key key' value :
  key ≠ key' → QJson.get (<[key := value]> o) key' = QJson.get o key'.
Proof. intros. unfold QJson.get. by rewrite lookup_insert_ne. Qed.

Lemma get_empty key : QJson.get ∅ key = JUndefined.
Proof. unfold QJson.get. by rewrite lookup_empty. Qed.

Lemma aliases_roundtrip (aliases : list string) :
  (λ entry, QJson.toStdString (QJson.get (QJson.toObject entry) "alias"))
    <$> ((λ alias, JObject (<["alias" := JString alias]> ∅)) <$> aliases) = aliases.
Proof.
  rewrite <- list_fmap_compose. rewrite <- (list_fmap_id aliases) at 2.
  apply list_fmap_ext. intros i alias _. simpl. by rewrite get_insert_eq.
Qed.

Ltac get_field :=
  repeat first [ rewrite get_insert_eq | rewrite get_insert_ne by done | rewrite get_empty ].

Lemma load_record_to_json now record :
  load_record now (record_to_json record) = Some (reloaded now record).
Proof.
  destruct record as [[] [] count]. unfold load_record, record_to_json, reloaded.
  cbn [QJson.toObject VaultRecord.image VaultRecord.query VaultRecord.last_accessed].
  rewrite isEmpty_insert. get_field.
  unfold image_to_json, query_to_json.
  cbn [QJson.toObject VMImage.image_path VMImage.kernel_path VMImage.initrd_path
       VMImage.id VMImage.original_release VMImage.current_release
       VMImage.release_date VMImage.aliases Query.release Query.persistent
       Query.remote_name Query.query_type Query.name].
  rewrite !isEmpty_insert. get_field.
  cbn [QJson.toString QJson.toStdString QJson.toArray QJson.isBool QJson.toBool
       QJson.toInt QJson.toDouble negb default].
  by rewrite aliases_roundtrip.
Qed.

Lemma load_records_malformed now entries acc :
  Exists (λ kv, load_record now kv.2 = None) entries →
  load_records now entries acc = ∅.
Proof.
  intros Hex. revert acc.
  induction entries as [|[key value] rest IH]; intros acc; [by inversion Hex|].
  simpl. destruct (load_record now value) as [record|] eqn:Hload; [|done].
  apply Exists_cons in Hex as [Hhd|Htl]; [simpl in Hhd; congruence|by apply IH].
Qed.

Lemma load_records_lookup now entries acc key :
  NoDup entries.*1 →
  Forall (λ kv, is_Some (load_record now kv.2)) entries →
  load_records now entries acc !! key =
    match (list_to_map entries : gmap string QJsonValue) !! key with
    | Some value => load_record now value
    | None => acc !! key
    end.
Proof.
  intros Hnodup Hall. revert acc.
  induction entries as [|[k value] rest IH]; intros acc; [done|].
  apply NoDup_cons in Hnodup as [Hfresh Hnodup].
  apply Forall_cons in Hall as [[record Hload] Hall].
  cbn [load_records list_to_map foldr curry fst snd] in *. rewrite Hload.
  rewrite IH by done.
  destruct (decide (k = key)) as [->|Hne].
  - by rewrite (not_elem_of_list_to_map_1 _ _ Hfresh), !lookup_insert_eq.
  - by rewrite !(lookup_insert_ne _ k key).
Qed.

Lemma load_db_lookup now path disk doc key :
  files disk !! path = Some (JsonDoc (JObject doc)) →
  Forall (λ kv, is_Some (load_record now kv.2)) (map_to_list doc) →
  load_db now path disk !! key = doc !! key ≫= load_record now.
Proof.
  intros Hfile Hall. unfold load_db. rewrite Hfile. cbn [QJson.toObject].
  unfold QJson.isEmpty. case_bool_decide as Hempty.
  - subst doc. by rewrite !lookup_empty.
  - rewrite load_records_lookup; [|apply NoDup_fst_map_to_list|done].
    rewrite list_to_map_to_list. destruct (doc !! key); [done|]. by rewrite lookup_empty.
Qed.

Lemma load_db_malformed now path disk doc :
  files disk !! path = Some (JsonDoc (JObject doc)) →
  Exists (λ kv, load_record now kv.2 = None) (map_to_list doc) →
  load_db now path disk = ∅.
Proof.
  intros Hfile Hex. unfold load_db. rewrite Hfile. cbn [QJson.toObject].
  destruct (QJson.isEmpty doc); [done|]. by apply load_records_malformed.
Qed.

(** Persisting a catalog and loading it again gives the catalog of the
    reloaded records. *)
Lemma load_persisted now path disk (records : gmap string VaultRecord) :
  load_db now path (persist_records records path disk) = reloaded now <$> records.
Proof.
  apply map_eq. intros key.
  rewrite (load_db_lookup _ _ _ (record_to_json <$> records)).
  - rewrite !lookup_fmap. destruct (records !! key) as [record|]; [|done].
    simpl. apply load_record_to_json.
  - unfold persist_records, write_json, QFile.write, records_to_json. simpl.
    by rewrite lookup_insert_eq.
  - apply Forall_forall. intros [k value] Hin.
    apply elem_of_map_to_list in Hin. rewrite lookup_fmap in Hin.
    destruct (records !! k) as [record|]; simplify_eq/=.
    rewrite load_record_to_json. by eexists.
Qed.

End codec.

Section codec_claims.

(** C5 (as stated, refuted): the catalog holding one record of an image
    fetched from a URL for instance vm1 is not what comes back from
    persisting and loading it: the loaded record has type Alias and no
    name. *)
Lemma persist_load_changes_catalog :
  load_db 1546300900 "/cache/vault/multipassd-image-records.json"
    (persist_records {[ "77aa" := http_record ]}
       "/cache/vault/multipassd-image-records.json" empty_disk)
  ≠ {[ "77aa" := http_record ]}.
Proof.
  rewrite load_persisted, map_fmap_singleton.
  intros Heq. apply (f_equal (λ m, VaultRecord.query <$> m !! "77aa")) in Heq.
  rewrite !lookup_singleton_eq in Heq. vm_compute in Heq. discriminate.
Qed.

(** C5 (amended): persisting a catalog and loading the document yields a
    catalog with the same keys; each entry keeps every field of its image
    and the release, persistent flag and remote name of its query, its
    query's name is empty, and its last_accessed count is the original one
    whenever that is non-zero and exactly representable as a double. *)
Theorem persist_then_load_fieldwise now path disk (records : gmap string VaultRecord) :
  let loaded := load_db now path (persist_records records path disk) in
  dom loaded = dom records ∧
  ∀ key record, records !! key = Some record →
    ∃ record', loaded !! key = Some record' ∧
      VaultRecord.image record' = VaultRecord.image record ∧
      Query.name (VaultRecord.query record') = EmptyString ∧
      Query.release (VaultRecord.query record') = Query.release (VaultRecord.query record) ∧
      Query.persistent (VaultRecord.query record')
        = Query.persistent (VaultRecord.query record) ∧
      Query.remote_name (VaultRecord.query record')
        = Query.remote_name (VaultRecord.query record) ∧
      (VaultRecord.last_accessed record ≠ 0 →
       QJson.double_of_qint64 (VaultRecord.last_accessed record)
         = VaultRecord.last_accessed record →
       VaultRecord.last_accessed record' = VaultRecord.last_accessed record).
Proof.
  cbv zeta. rewrite load_persisted. split; [apply dom_fmap_L|].
  intros key record Hkey. exists (reloaded now record).
  rewrite lookup_fmap, Hkey. repeat split; try done.
  intros Hnz Hexact. unfold reloaded. cbn [VaultRecord.last_accessed].
  rewrite Hexact. by destruct (decide _).
Qed.

(** C9: on load, an entry whose stored last_accessed count is 0, or is
    missing (which reads as 0), gets the clock's current time. *)
Theorem load_db_zero_last_accessed now path disk doc key value record :
  files disk !! path = Some (JsonDoc (JObject doc)) →
  doc !! key = Some value →
  QJson.toDouble (QJson.get (QJson.toObject value) "last_accessed") = 0 →
  load_db now path disk !! key = Some record →
  VaultRecord.last_accessed record = now.
Proof.
  intros Hfile Hkey Hzero Hload.
  destruct (decide (Forall (λ kv, is_Some (load_record now kv.2)) (map_to_list doc)))
    as [Hall|Hbad].
  - rewrite (load_db_lookup _ _ _ _ _ Hfile Hall), Hkey in Hload. simpl in Hload.
    unfold load_record in Hload. repeat case_match; simplify_eq; done.
  - apply not_Forall_Exists in Hbad; [|apply _].
    rewrite (load_db_malformed _ _ _ _ Hfile) in Hload; [by rewrite lookup_empty in Hload|].
    eapply Exists_impl; [exact Hbad|]. intros kv Hnone. simpl in Hnone.
    by apply eq_None_not_Some.
Qed.

(** C9 at a catalog file whose only record was stored with count 0. *)
Lemma load_db_zero_last_accessed_witness :
  ∃ record,
    load_db 1546300900 "/db.json"
      (persist_records {[ "abcd" := untouched_record ]} "/db.json" empty_disk)
      !! "abcd" = Some record
    ∧ VaultRecord.last_accessed record = 1546300900.
Proof.
  eexists. split; [by vm_compute|].
  eapply (load_db_zero_last_accessed 1546300900 "/db.json"
            (persist_records {[ "abcd" := untouched_record ]} "/db.json" empty_disk)
            (record_to_json <$> {[ "abcd" := untouched_record ]}) "abcd"
            (record_to_json untouched_record)).
  - by vm_compute.
  - by vm_compute.
  - by vm_compute.
  - by vm_compute.
Defined.

End codec_claims.

(** ** Reasoning in the monad of vault operations *)

Section monad.

Lemma bind_eq {A B} (m : M A) (k : A → M B) v :
  (m ≫= k) v = match m v with
               | (Ok a, v') => k a v'
               | (Throw e, v') => (Throw e, v')
               end.
Proof. done. Qed.

Lemma bind_Ok {A B} (m : M A) (k : A → M B) v a v' :
  m v = (Ok a, v') → (m ≫= k) v = k a v'.
Proof. intros Hm. by rewrite bind_eq, Hm. Qed.

Lemma bind_Throw {A B} (m : M A) (k : A → M B) v e v' :
  m v = (Throw e, v') → (m ≫= k) v = (Throw e, v').
Proof. intros Hm. by rewrite bind_eq, Hm. Qed.

Lemma bind_Ok_inv {A B} (m : M A) (k : A → M B) v b v' :
  (m ≫= k) v = (Ok b, v') → ∃ a v1, m v = (Ok a, v1) ∧ k a v1 = (Ok b, v').
Proof.
  rewrite bind_eq. destruct (m v) as [[a|e] v1]; [eauto|discriminate].
Qed.

Lemma gets_eq {A} (f : Vault → A) v : gets f v = (Ok (f v), v).
Proof. done. Qed.

Lemma modify_eq f v : modify f v = (Ok tt, f v).
Proof. done. Qed.

Lemma mret_eq {A} (a : A) v : (mret a : M A) v = (Ok a, v).
Proof. done. Qed.

Lemma throw_eq {A} e v : (throw e : M A) v = (Throw e, v).
Proof. done. Qed.

End monad.

(** Runs the monadic plumbing of the goal forward. *)
Ltac run :=
  repeat first
    [ rewrite bind_eq
    | rewrite gets_eq
    | rewrite modify_eq
    | rewrite mret_eq
    | rewrite throw_eq
    | progress cbn beta iota ].

(** ** The public operations, one call at a time *)

Section sequential.
Context `{Collaborators}.

(** C4: a query whose name has an instance record is answered from that
    record: the call returns the record's image and leaves the whole vault
    (disk, both catalogs, the in-progress map, the trace of downloader and
    host calls) as it was, so a second call returns the same image. *)
Theorem fetch_image_known_instance fetch_type query prepare now now' (v : Vault) record :
  instance_image_records v !! Query.name query = Some record →
  fetch_image fetch_type query prepare now v = (Ok (VaultRecord.image record), v)
  ∧ (fetch_image fetch_type query prepare now;;
     fetch_image fetch_type query prepare now') v = (Ok (VaultRecord.image record), v).
Proof.
  intros Hrecord.
  assert (∀ t, fetch_image fetch_type query prepare t v = (Ok (VaultRecord.image record), v))
    as Hcall.
  { intros t. unfold fetch_image. run. by rewrite Hrecord. }
  split; [apply Hcall|]. rewrite bind_eq, Hcall. apply Hcall.
Qed.

End sequential.

(** C4 at the vault in which vm1 is materialised. *)
Lemma fetch_image_known_instance_witness :
  @fetch_image (mock_collaborators "abcd") ImageKernelAndInitrd (bionic_query "vm1")
    identity_prepare 1546300900 vault_with_vm1
  = (Ok (VaultRecord.image vm1_record), vault_with_vm1).
Proof.
  apply (@fetch_image_known_instance (mock_collaborators "abcd") ImageKernelAndInitrd
           (bionic_query "vm1") identity_prepare 1546300900 1546300900 vault_with_vm1
           vm1_record).
  reflexivity.
Defined.

(** ** Paths and the disk *)

Section disk.

Lemma append_cons a (s t : string) : String a s +:+ t = String a (s +:+ t).
Proof. done. Qed.

Lemma startsWith_spec s p : QString.startsWith s p = true ↔ ∃ t, s = p +:+ t.
Proof.
  split.
  - revert s. induction p as [|a p IH]; intros s Hs; [by exists s|].
    destruct s as [|b s]; simpl in Hs; [done|].
    destruct (decide (a = b)) as [->|]; [|done].
    destruct (IH _ Hs) as [t ->]. by exists t.
  - intros [t ->]. induction p as [|a p IH]; [done|].
    rewrite append_cons. simpl. by rewrite decide_True.
Qed.

Lemma append_assoc (a b c : string) : (a +:+ b) +:+ c = a +:+ b +:+ c.
Proof. induction a as [|x a IH]; [done|]. by rewrite !append_cons, IH. Qed.

Lemma below_spec d path : QDir.below d path = true ↔ ∃ t, path = d +:+ "/" +:+ t.
Proof.
  unfold QDir.below. rewrite startsWith_spec.
  split; intros [t ->]; exists t; by rewrite append_assoc.
Qed.

Lemma below_trans d1 d2 path :
  QDir.below d1 d2 = true → QDir.below d2 path = true → QDir.below d1 path = true.
Proof.
  rewrite !below_spec. intros [t1 ->] [t2 ->].
  exists (t1 +:+ "/" +:+ t2). by rewrite !append_assoc.
Qed.

(** A path below [d] has a directory part, which is [d] or lies below it. *)
Lemma dir_of_below d path :
  QDir.below d path = true → QDir.dir path = d ∨ QDir.below d (QDir.dir path) = true.
Proof.
  rewrite below_spec. intros [t ->]. unfold QDir.dir.
  enough (∃ d', (QDir.split_path (d +:+ "/" +:+ t)).1 = Some d'
                ∧ (d' = d ∨ QDir.below d d' = true)) as (d' & -> & Hd') by done.
  induction d as [|c d IH].
  - change (EmptyString +:+ "/" +:+ t) with (String "/"%char t).
    cbn [QDir.split_path]. destruct (QDir.split_path t) as [[d0|] f].
    + eexists. split; [done|]. right. done.
    + eexists. split; [by rewrite decide_True|]. by left.
  - destruct IH as (d' & Hsplit & Hd').
    change (String c d +:+ "/" +:+ t) with (String c (d +:+ "/" +:+ t)).
    cbn [QDir.split_path]. destruct (QDir.split_path (d +:+ "/" +:+ t)) as [[d0|] f];
      simplify_eq/=.
    eexists. split; [done|]. destruct Hd' as [->|Hbelow]; [by left|right].
    unfold QDir.below in *. rewrite append_cons. simpl. by rewrite decide_True.
Qed.

Lemma removeRecursively_files d disk path :
  files (QDir.removeRecursively d disk) !! path
  = if QDir.below d path then None else files disk !! path.
Proof.
  unfold QDir.removeRecursively. cbn [files].
  destruct (QDir.below d path) eqn:Hbelow.
  - apply map_lookup_filter_None. right. intros data _. simpl. congruence.
  - destruct (files disk !! path) as [data|] eqn:Hfile.
    + by apply map_lookup_filter_Some.
    + apply map_lookup_filter_None. by left.
Qed.

Lemma removeRecursively_dirs d disk path :
  path ∈ dirs (QDir.removeRecursively d disk)
  ↔ path ∈ dirs disk ∧ path ≠ d ∧ QDir.below d path = false.
Proof. unfold QDir.removeRecursively. cbn [dirs]. rewrite elem_of_filter. tauto. Qed.

Lemma removeRecursively_gone d disk : gone d (QDir.removeRecursively d disk).
Proof.
  split.
  - rewrite removeRecursively_dirs. tauto.
  - intros path Hbelow. by rewrite removeRecursively_files, Hbelow.
Qed.

Lemma removeRecursively_gone_below d d' disk :
  QDir.below d d' = true → gone d' (QDir.removeRecursively d disk).
Proof.
  intros Hbelow. split.
  - rewrite removeRecursively_dirs. intros (_ & _ & ?). congruence.
  - intros path Hpath. by rewrite removeRecursively_files, (below_trans _ _ _ Hbelow Hpath).
Qed.

Lemma removeRecursively_keeps_gone d d' disk :
  gone d' disk → gone d' (QDir.removeRecursively d disk).
Proof.
  intros [Hdir Hfiles]. split.
  - rewrite removeRecursively_dirs. tauto.
  - intros path Hpath. rewrite removeRecursively_files.
    destruct (QDir.below d path); [done|]. by apply Hfiles.
Qed.

End disk.

(** ** Removal and expiry *)

Section removal.
Context `{Collaborators}.

Lemma set_fs_same (v : Vault) : set_fs (λ _, fs v) v = v.
Proof. by destruct v. Qed.

Lemma set_fs_set_fs f g (v : Vault) : set_fs f (set_fs g v) = set_fs (f ∘ g) v.
Proof. by destruct v. Qed.

Lemma persist_instance_records_eq (v : Vault) :
  persist_instance_records v
  = (Ok tt, set_fs (persist_records (instance_image_records v)
                      (QDir.filePath data_dir instance_db_name)) v).
Proof. done. Qed.

Lemma persist_image_records_eq (v : Vault) :
  persist_image_records v
  = (Ok tt, set_fs (persist_records (prepared_image_records v)
                      (QDir.filePath cache_dir image_db_name)) v).
Proof. done. Qed.


End removal.


Section expiry.
Context `{Collaborators}.

Lemma expired_spec record now :
  expired record now = true ↔
    Query.query_type (VaultRecord.query record) = Query.Alias
    ∧ Query.persistent (VaultRecord.query record) = false
    ∧ VaultRecord.last_accessed record + days_to_expire * ticks_per_day ≤ now.
Proof.
  unfold expired. rewrite !andb_true_iff, bool_decide_eq_true, negb_true_iff, Z.leb_le.
  tauto.
Qed.

(** The first loop returns the keys of the expired records and only
    touches the disk. *)
Lemma collect_expired_eq records now (v : Vault) :
  collect_expired records now v
  = (Ok (filter (λ kr, expired kr.2 now = true) records).*1,
     set_fs (λ _, prune_disk records now (fs v)) v).
Proof.
  revert v. induction records as [|[key record] rest IH]; intros v.
  - cbn. by rewrite set_fs_same.
  - cbn [collect_expired prune_disk]. rewrite filter_cons. cbn [snd].
    destruct (expired record now) eqn:Hexpired.
    + rewrite decide_True by done. run.
      destruct (QDir.exists_ _ (fs v)); run; rewrite IH; run; by destruct v.
    + rewrite decide_False by done. apply IH.
Qed.

Lemma lookup_foldl_delete (records : gmap string VaultRecord) keys key :
  foldl (λ m k, delete k m) records keys !! key
  = if decide (key ∈ keys) then None else records !! key.
Proof.
  revert records. induction keys as [|k keys IH]; intros records; [done|].
  cbn [foldl]. rewrite IH. destruct (decide (k = key)) as [->|Hne].
  - rewrite lookup_delete_eq, (decide_True (P := key ∈ key :: keys)) by (apply elem_of_cons; by left).
    by destruct (decide _).
  - rewrite lookup_delete_ne by done.
    destruct (decide (key ∈ keys)) as [Hin|Hnotin].
    + by rewrite decide_True by (apply elem_of_cons; by right).
    + rewrite decide_False; [done|]. by intros [?|?]%elem_of_cons.
Qed.

Lemma prune_disk_gone records now disk :
  (∀ d, gone d disk → gone d (prune_disk records now disk))
  ∧ (∀ path, is_Some (files disk !! path) →
       files (prune_disk records now disk) !! path = None →
       gone (QDir.dir path) (prune_disk records now disk))
  ∧ (∀ key record, (key, record) ∈ records → expired record now = true →
       is_Some (files disk !! VMImage.image_path (VaultRecord.image record)) →
       gone (QDir.dir (VMImage.image_path (VaultRecord.image record)))
            (prune_disk records now disk)).
Proof.
  revert disk. induction records as [|[k r] rest IH]; intros disk.
  { cbn [prune_disk].
    split_and!; [done|intros path [data Hdata] ?; congruence|by intros ?? ?%elem_of_nil]. }
  cbn [prune_disk]. destruct (expired r now) eqn:Hexpired.
  2:{ destruct (IH disk) as (Hkeep & Hfiles & Hrecords).
      split_and!; [exact Hkeep|exact Hfiles|].
      intros key record [?|?]%elem_of_cons ??; simplify_eq; [congruence|eauto]. }
  set (image_file := VMImage.image_path (VaultRecord.image r)).
  set (disk1 := if QDir.exists_ image_file disk
                then QDir.removeRecursively (QDir.dir image_file) disk else disk).
  destruct (IH disk1) as (Hkeep & Hfiles & Hrecords).
  assert (∀ d, gone d disk → gone d disk1) as Hkeep1.
  { intros d Hd. unfold disk1.
    destruct (QDir.exists_ image_file disk); [by apply removeRecursively_keeps_gone|done]. }
  assert (∀ path, is_Some (files disk !! path) → files disk1 !! path = None →
                  gone (QDir.dir path) disk1) as Hstep.
  { intros path [data Hdata]. unfold disk1.
    destruct (QDir.exists_ image_file disk); [|congruence].
    rewrite removeRecursively_files.
    destruct (QDir.below _ path) eqn:Hbelow; [intros _|congruence].
    destruct (dir_of_below _ _ Hbelow) as [->|?].
    - apply removeRecursively_gone.
    - by apply removeRecursively_gone_below. }
  assert (∀ path, is_Some (files disk !! path) →
                  files (prune_disk rest now disk1) !! path = None →
                  gone (QDir.dir path) (prune_disk rest now disk1)) as Hall.
  { intros path Hpath Hnone.
    destruct (files disk1 !! path) as [data|] eqn:Hdisk1; [by eapply Hfiles|].
    by apply Hkeep, Hstep. }
  split_and!; [by eauto|done|].
  intros key record [?|Hin]%elem_of_cons Hexp Hfile; simplify_eq.
  - apply Hkeep. unfold disk1. fold image_file in Hfile.
    assert (QDir.exists_ image_file disk = true) as ->.
    { unfold QDir.exists_. by rewrite bool_decide_eq_true_2. }
    apply removeRecursively_gone.
  - destruct (files disk1 !! VMImage.image_path (VaultRecord.image record)) eqn:Hdisk1.
    + eapply Hrecords; [done..|]. by rewrite Hdisk1.
    + by apply Hkeep, Hstep.
Qed.


End expiry.

(** ** Updating prepared images *)

Section update.
Context `{Collaborators}.

Lemma set_trace_nil (v : Vault) : set_trace (λ t, t ++ []) v = v.
Proof. destruct v. unfold set_trace. cbn. by rewrite app_nil_r. Qed.

Lemma set_trace_app events events' (v : Vault) :
  set_trace (λ t, t ++ events') (set_trace (λ t, t ++ events) v)
  = set_trace (λ t, t ++ (events ++ events')) v.
Proof. destruct v. unfold set_trace. cbn. by rewrite app_assoc. Qed.

Lemma emit_eq e (v : Vault) : emit e v = (Ok tt, set_trace (λ t, t ++ [e]) v).
Proof. done. Qed.

Lemma info_for_any_pure hosts query :
  ∃ r events, image_downloads events = 0%nat
    ∧ ∀ v, info_for_any hosts query v = (r, set_trace (λ t, t ++ events) v).
Proof.
  induction hosts as [|image_host rest (r & events & Hnone & IH)].
  - exists (Throw (runtime_error ("Unable to find an image matching " +:+ dquote
                                   +:+ Query.release query +:+ dquote))), [].
    split; [done|]. intros v. cbn. by rewrite set_trace_nil.
  - cbn [info_for_any]. destruct (host_info_for image_host query) as [info|].
    + exists (Ok info), [EvInfoFor query]. split; [done|]. intros v. by run.
    + exists r, (EvInfoFor query :: events). split; [done|].
      intros v. run. rewrite emit_eq. run. by rewrite IH, set_trace_app.
Qed.

(** What a host lookup returns does not depend on the vault; it only adds
    to the trace, and no download. *)
Lemma info_for_pure query :
  ∃ r events, image_downloads events = 0%nat
    ∧ ∀ v, info_for query v = (r, set_trace (λ t, t ++ events) v).
Proof.
  unfold info_for. destruct (decide _); [|apply info_for_any_pure].
  destruct (remote_image_host_map !! _) as [image_host|].
  - destruct (host_info_for image_host query) as [info|].
    + exists (Ok info), [EvInfoFor query]. split; [done|]. intros v. by run.
    + eexists (Throw _), [EvInfoFor query]. split; [done|]. intros v. by run.
  - eexists (Throw _), []. split; [done|]. intros v. run. by rewrite set_trace_nil.
Qed.

Lemma info_for_result query (v v' : Vault) : (info_for query v).1 = (info_for query v').1.
Proof. destruct (info_for_pure query) as (r & events & _ & Heq). by rewrite !Heq. Qed.

Lemma keys_to_update_spec records (v : Vault) keys v1 :
  keys_to_update records v = (Ok keys, v1) →
  (∃ events, v1 = set_trace (λ t, t ++ events) v)
  ∧ keys `sublist_of` records.*1
  ∧ ∀ key, key ∈ keys →
      ∃ record info, (key, record) ∈ records
        ∧ Query.query_type (VaultRecord.query record) = Query.Alias
        ∧ QString.startsWith key (Query.release (VaultRecord.query record)) = false
        ∧ (info_for (VaultRecord.query record) v).1 = Ok info
        ∧ VMImageInfo.id info ≠ key.
Proof.
  revert v keys v1. induction records as [|[k r] rest IH]; intros v keys v1 Hkeys.
  { cbn [keys_to_update] in Hkeys. rewrite mret_eq in Hkeys. simplify_eq. split_and!.
    - exists []. by rewrite set_trace_nil.
    - done.
    - by intros ? ?%elem_of_nil. }
  cbn [keys_to_update] in Hkeys.
  destruct (bool_decide _ && negb _) eqn:Hguard.
  - apply andb_true_iff in Hguard as [Halias%bool_decide_eq_true Hprefix%negb_true_iff].
    apply bind_Ok_inv in Hkeys as (info & v2 & Hinfo & Hkeys).
    apply bind_Ok_inv in Hkeys as (keys' & v3 & Hrest & Hkeys).
    rewrite mret_eq in Hkeys. simplify_eq.
    destruct (info_for_pure (VaultRecord.query r)) as (res & events & _ & Hpure).
    rewrite Hpure in Hinfo. simplify_eq.
    destruct (IH _ _ _ Hrest) as ((events' & ->) & Hsub & Hspec).
    split_and!.
    + eexists. by rewrite set_trace_app.
    + cbn. destruct (decide _); by constructor.
    + intros key Hkey.
      assert (key = k ∧ VMImageInfo.id info ≠ k ∨ key ∈ keys') as [[-> Hid]|Hin].
      { destruct (decide _); [|by right].
        apply elem_of_cons in Hkey as [->|?]; [by left|by right]. }
      * exists r, info. split_and!; [by left|done..| |done].
        by rewrite Hpure.
      * destruct (Hspec _ Hin) as (record & info' & ? & ? & ? & Hres & ?).
        exists record, info'. split_and!; [by right|done..| |done].
        by rewrite (info_for_result _ _ v) in Hres.
  - destruct (IH _ _ _ Hkeys) as (Hv1 & Hsub & Hspec). split_and!; [done| |].
    + by constructor.
    + intros key Hkey. destruct (Hspec _ Hkey) as (record & info & ? & ?).
      exists record, info. split; [by right|done].
Qed.

Lemma keys_to_update_complete records (v : Vault) keys v1 key record info :
  keys_to_update records v = (Ok keys, v1) →
  (key, record) ∈ records →
  Query.query_type (VaultRecord.query record) = Query.Alias →
  QString.startsWith key (Query.release (VaultRecord.query record)) = false →
  (info_for (VaultRecord.query record) v).1 = Ok info →
  VMImageInfo.id info ≠ key →
  key ∈ keys.
Proof.
  revert v keys v1. induction records as [|[k r] rest IH]; intros v keys v1 Hkeys Hin;
    [by apply elem_of_nil in Hin|].
  intros Halias Hprefix Hinfo Hid. cbn [keys_to_update] in Hkeys.
  destruct (bool_decide _ && negb _) eqn:Hguard.
  - apply bind_Ok_inv in Hkeys as (info' & v2 & Hinfo' & Hkeys).
    apply bind_Ok_inv in Hkeys as (keys' & v3 & Hrest & Hkeys).
    rewrite mret_eq in Hkeys. simplify_eq.
    apply elem_of_cons in Hin as [?|Hin]; simplify_eq.
    + rewrite Hinfo' in Hinfo. simplify_eq/=. rewrite decide_True by done.
      apply elem_of_cons. by left.
    + assert (key ∈ keys').
      { eapply IH; [done..| |done]. by rewrite (info_for_result _ _ v). }
      destruct (decide _); [apply elem_of_cons; by right|done].
  - apply elem_of_cons in Hin as [?|Hin]; simplify_eq.
    + rewrite Halias, Hprefix in Hguard. by rewrite bool_decide_eq_true_2 in Hguard.
    + by eapply IH.
Qed.


End update.



(** ** Frames: what an operation leaves alone *)

Create HintDb frame discriminated.

Section frames.
Context (R : relation Vault) `{!PreOrder R}.

Lemma frame_bind {A B} (m : M A) (k : A → M B) :
  frame R m → (∀ a, frame R (k a)) → frame R (m ≫= k).
Proof.
  intros Hm Hk v. rewrite bind_eq. specialize (Hm v).
  destruct (m v) as [[a|e] v1]; [|done]. etrans; [exact Hm|apply Hk].
Qed.

Lemma frame_mret {A} (a : A) : frame R (mret a : M A).
Proof. by intros v. Qed.

Lemma frame_throw {A} e : frame R (throw e : M A).
Proof. by intros v. Qed.

Lemma frame_gets {A} (f : Vault → A) : frame R (gets f).
Proof. by intros v. Qed.

Lemma frame_modify f : (∀ v, R v (f v)) → frame R (modify f).
Proof. intros Hf v. apply Hf. Qed.

Lemma frame_try_catch {A} (m : M A) handler :
  frame R m → (∀ e, frame R (handler e)) → frame R (try_catch m handler).
Proof.
  intros Hm Hh v. unfold try_catch. specialize (Hm v).
  destruct (m v) as [[a|e] v1]; [done|]. etrans; [exact Hm|apply Hh].
Qed.

Lemma frame_DeleteOnException {A} path (m : M A) :
  (∀ v f, R v (set_fs f v)) → frame R m → frame R (DeleteOnException path m).
Proof.
  intros Hfs Hm v. unfold DeleteOnException. specialize (Hm v).
  destruct (m v) as [[a|e] v1]; [done|]. etrans; [exact Hm|apply Hfs].
Qed.

End frames.

Section relations.

Global Instance disk_only_preorder : PreOrder disk_only.
Proof.
  split; [intros v; split_and!; reflexivity|].
  intros v1 v2 v3 (? & ? & ? & ? & ?) (? & ? & ? & ? & ?).
  unfold disk_only. split_and!; [congruence..|by etrans].
Qed.

Global Instance keeps_fetch_state_preorder : PreOrder keeps_fetch_state.
Proof.
  split; [intros v; split_and!; reflexivity|].
  intros v1 v2 v3 (? & ? & ? & ?) (? & ? & ? & ?).
  unfold keeps_fetch_state. split_and!; [congruence..|by etrans].
Qed.

Global Instance trace_grows_preorder : PreOrder trace_grows.
Proof.
  split; [intros v; unfold trace_grows; reflexivity|].
  intros v1 v2 v3 ??. unfold trace_grows in *. by etrans.
Qed.

Global Instance keeps_in_flight_preorder : PreOrder keeps_in_flight.
Proof.
  split; [by intros v|]. intros v1 v2 v3 [??] [??]. unfold keeps_in_flight.
  split; congruence.
Qed.

Global Instance same_downloads_preorder : PreOrder same_downloads.
Proof.
  split; [by intros v|]. intros v1 v2 v3 ??. unfold same_downloads in *. congruence.
Qed.

Global Instance fs_grows_preorder : PreOrder fs_grows.
Proof.
  split; [by intros disk|]. intros d1 d2 d3 [Hf1 Hd1] [Hf2 Hd2]. split.
  - intros path ?. by apply Hf2, Hf1.
  - by etrans.
Qed.

Global Instance disk_grows_preorder : PreOrder disk_grows.
Proof.
  split; [intros v; unfold disk_grows; reflexivity|].
  intros v1 v2 v3 ??. unfold disk_grows in *. by etrans.
Qed.

Lemma disk_only_keeps v v' : disk_only v v' → keeps_fetch_state v v'.
Proof. intros (? & ? & ? & ? & ?). by split_and!. Qed.

Lemma keeps_fetch_state_grows v v' : keeps_fetch_state v v' → trace_grows v v'.
Proof. by intros (? & ? & ? & ?). Qed.

Lemma keeps_fetch_state_in_flight v v' : keeps_fetch_state v v' → keeps_in_flight v v'.
Proof. by intros (? & ? & ? & ?). Qed.

Lemma disk_only_set_fs v f : disk_only v (set_fs f v).
Proof. destruct v. split_and!; reflexivity. Qed.

Lemma disk_only_set_trace v events : disk_only v (set_trace (λ t, t ++ events) v).
Proof. destruct v. split_and!; [done..|]. by apply prefix_app_r. Qed.

Lemma keeps_fetch_state_set_fs v f : keeps_fetch_state v (set_fs f v).
Proof. destruct v. split_and!; reflexivity. Qed.

Lemma keeps_fetch_state_set_instances v f : keeps_fetch_state v (set_instances f v).
Proof. destruct v. split_and!; reflexivity. Qed.

Lemma trace_grows_set_fs v f : trace_grows v (set_fs f v).
Proof. destruct v. unfold trace_grows. reflexivity. Qed.

Lemma trace_grows_set_instances v f : trace_grows v (set_instances f v).
Proof. destruct v. unfold trace_grows. reflexivity. Qed.

Lemma trace_grows_set_prepared v f : trace_grows v (set_prepared f v).
Proof. destruct v. unfold trace_grows. reflexivity. Qed.

Lemma keeps_in_flight_set_fs v f : keeps_in_flight v (set_fs f v).
Proof. by destruct v. Qed.

Lemma keeps_in_flight_set_instances v f : keeps_in_flight v (set_instances f v).
Proof. by destruct v. Qed.

Lemma keeps_in_flight_set_prepared v f : keeps_in_flight v (set_prepared f v).
Proof. by destruct v. Qed.

Lemma keeps_in_flight_set_trace v f : keeps_in_flight v (set_trace f v).
Proof. by destruct v. Qed.

Lemma same_downloads_set_fs v f : same_downloads v (set_fs f v).
Proof. by destruct v. Qed.

Lemma same_downloads_set_instances v f : same_downloads v (set_instances f v).
Proof. by destruct v. Qed.

Lemma same_downloads_set_prepared v f : same_downloads v (set_prepared f v).
Proof. by destruct v. Qed.

Lemma same_downloads_set_in_progress v f : same_downloads v (set_in_progress f v).
Proof. by destruct v. Qed.

Lemma image_downloads_app events events' :
  image_downloads (events ++ events') = (image_downloads events + image_downloads events')%nat.
Proof. unfold image_downloads. by rewrite filter_app, length_app. Qed.

Lemma same_downloads_set_trace v events :
  image_downloads events = 0%nat → same_downloads v (set_trace (λ t, t ++ events) v).
Proof.
  intros Hnone. destruct v. unfold same_downloads. cbn [trace set_trace].
  rewrite image_downloads_app, Hnone. lia.
Qed.

Lemma disk_grows_set_instances v f : disk_grows v (set_instances f v).
Proof. by destruct v. Qed.

Lemma disk_grows_set_prepared v f : disk_grows v (set_prepared f v).
Proof. by destruct v. Qed.

Lemma disk_grows_set_trace v f : disk_grows v (set_trace f v).
Proof. by destruct v. Qed.

Lemma disk_grows_set_fs v f : (∀ disk, fs_grows disk (f disk)) → disk_grows v (set_fs f v).
Proof. intros Hf. destruct v. apply Hf. Qed.

Lemma disk_grows_set_fs_to v disk : fs_grows (fs v) disk → disk_grows v (set_fs (λ _, disk) v).
Proof. intros Hf. by destruct v. Qed.

Lemma mkpath_grows d disk : fs_grows disk (QDir.mkpath d disk).
Proof. split; [done|]. cbn. set_solver. Qed.

Lemma write_grows path data disk : fs_grows disk (QFile.write path data disk).
Proof.
  split; [|done]. intros p Hp. cbn. destruct (decide (path = p)) as [->|].
  - rewrite lookup_insert_eq. by eexists.
  - by rewrite lookup_insert_ne.
Qed.

Lemma copy_grows src dst disk : fs_grows disk (QFile.copy src dst disk).
Proof.
  unfold QFile.copy. destruct (files disk !! src); [|done].
  destruct (QDir.exists_ dst disk); [done|]. apply write_grows.
Qed.

Lemma persist_records_grows records path disk :
  fs_grows disk (persist_records records path disk).
Proof. apply write_grows. Qed.

End relations.

Global Hint Resolve disk_only_set_fs disk_only_set_trace keeps_fetch_state_set_fs
  keeps_fetch_state_set_instances trace_grows_set_fs trace_grows_set_instances
  trace_grows_set_prepared keeps_in_flight_set_fs keeps_in_flight_set_instances
  keeps_in_flight_set_prepared keeps_in_flight_set_trace same_downloads_set_fs
  same_downloads_set_instances same_downloads_set_prepared same_downloads_set_in_progress
  same_downloads_set_trace disk_grows_set_instances disk_grows_set_prepared
  disk_grows_set_trace disk_grows_set_fs mkpath_grows write_grows copy_grows
  persist_records_grows : frame.

(** Proves that an operation built from binds stays within a frame. *)
Ltac frame_step :=
  lazymatch goal with
  | |- PreOrder _ => apply _
  | |- ∀ _, _ => intros ?
  | |- frame _ (if ?b then _ else _) => destruct b
  | |- frame _ (match ?x with _ => _ end) => destruct x
  | |- frame _ (_ ≫= _) => apply frame_bind
  | |- frame _ (modify _) => apply frame_modify
  | |- frame _ (mret _) => apply frame_mret
  | |- frame _ (throw _) => apply frame_throw
  | |- frame _ (gets _) => apply frame_gets
  | |- frame _ (try_catch _ _) => apply frame_try_catch
  | |- frame _ (DeleteOnException _ _) => apply frame_DeleteOnException
  | |- _ => first [solve [auto with frame] | progress cbv zeta]
  end.

Ltac solve_frame := repeat frame_step.

Section operation_frames.
Context `{Collaborators}.

Lemma frame_weaken {A} (m : M A) : frame disk_only m → frame keeps_fetch_state m.
Proof. intros Hm v. apply disk_only_keeps, Hm. Qed.

Lemma frame_weaken_in_flight {A} (m : M A) :
  frame keeps_fetch_state m → frame keeps_in_flight m.
Proof. intros Hm v. apply keeps_fetch_state_in_flight, Hm. Qed.

Lemma emit_disk_only e : frame disk_only (emit e).
Proof. unfold emit. solve_frame. Qed.

Lemma emit_same_downloads e : is_image_download e = false → frame same_downloads (emit e).
Proof.
  intros He. unfold emit. apply frame_modify. intros v.
  apply same_downloads_set_trace. unfold image_downloads.
  rewrite filter_cons, decide_False; [done|]. by rewrite He.
Qed.

Lemma emit_disk_grows e : frame disk_grows (emit e).
Proof. unfold emit. solve_frame. Qed.

Lemma make_dir_in_disk_only a_dir name : frame disk_only (make_dir_in a_dir name).
Proof. intros v. unfold make_dir_in, make_dir. cbn. apply disk_only_set_fs. Qed.

Lemma make_dir_in_same_downloads a_dir name : frame same_downloads (make_dir_in a_dir name).
Proof. intros v. unfold make_dir_in, make_dir. cbn. apply same_downloads_set_fs. Qed.

Lemma make_dir_in_disk_grows a_dir name : frame disk_grows (make_dir_in a_dir name).
Proof.
  intros v. unfold make_dir_in, make_dir. cbn.
  apply disk_grows_set_fs_to, mkpath_grows.
Qed.

Hint Resolve emit_disk_only emit_same_downloads emit_disk_grows make_dir_in_disk_only
  make_dir_in_same_downloads make_dir_in_disk_grows : frame.

Lemma copy_disk_only file_name output_dir : frame disk_only (copy file_name output_dir).
Proof. unfold copy. solve_frame. Qed.

Lemma copy_same_downloads file_name output_dir :
  frame same_downloads (copy file_name output_dir).
Proof. unfold copy. solve_frame. Qed.

Lemma copy_disk_grows file_name output_dir : frame disk_grows (copy file_name output_dir).
Proof. unfold copy. solve_frame. Qed.

Lemma delete_file_disk_only path : frame disk_only (delete_file path).
Proof. unfold delete_file. solve_frame. Qed.

Lemma delete_file_same_downloads path : frame same_downloads (delete_file path).
Proof. unfold delete_file. solve_frame. Qed.

Hint Resolve copy_disk_only copy_same_downloads copy_disk_grows delete_file_disk_only
  delete_file_same_downloads : frame.

Lemma remove_source_images_disk_only source_image prepared_image :
  frame disk_only (remove_source_images source_image prepared_image).
Proof. unfold remove_source_images. solve_frame. Qed.

Lemma remove_source_images_same_downloads source_image prepared_image :
  frame same_downloads (remove_source_images source_image prepared_image).
Proof. unfold remove_source_images. solve_frame. Qed.

Lemma verify_image_download_disk_only image_path image_hash :
  frame disk_only (verify_image_download image_path image_hash).
Proof. unfold verify_image_download. solve_frame. Qed.

Lemma verify_image_download_same_downloads image_path image_hash :
  frame same_downloads (verify_image_download image_path image_hash).
Proof. unfold verify_image_download. solve_frame. Qed.

Lemma download_to_disk_only url path size phase :
  frame disk_only (download_to url path size phase).
Proof. unfold download_to. solve_frame. Qed.

Lemma download_to_same_downloads url path size phase :
  phase ≠ IMAGE → frame same_downloads (download_to url path size phase).
Proof.
  intros Hphase. unfold download_to.
  assert (is_image_download (EvDownloadTo url path size phase) = false) by by destruct phase.
  solve_frame.
Qed.

Lemma decode_to_disk_only src dst : frame disk_only (decode_to src dst).
Proof. unfold decode_to. solve_frame. Qed.

Lemma decode_to_same_downloads src dst : frame same_downloads (decode_to src dst).
Proof. unfold decode_to. solve_frame. Qed.

Lemma call_prepare_disk_only prepare source_image :
  frame disk_only (call_prepare prepare source_image).
Proof. intros v. unfold call_prepare. destruct (prepare _ _). apply disk_only_set_fs. Qed.

Lemma call_prepare_same_downloads prepare source_image :
  frame same_downloads (call_prepare prepare source_image).
Proof. intros v. unfold call_prepare. destruct (prepare _ _). apply same_downloads_set_fs. Qed.

Hint Resolve remove_source_images_disk_only remove_source_images_same_downloads
  verify_image_download_disk_only verify_image_download_same_downloads
  download_to_disk_only download_to_same_downloads decode_to_disk_only
  decode_to_same_downloads call_prepare_disk_only call_prepare_same_downloads : frame.

Lemma run_prepare_disk_only prepare source_image :
  frame disk_only (run_prepare prepare source_image).
Proof. unfold run_prepare. solve_frame. Qed.

Lemma run_prepare_same_downloads prepare source_image :
  frame same_downloads (run_prepare prepare source_image).
Proof. unfold run_prepare. solve_frame. Qed.

Lemma info_for_disk_only query : frame disk_only (info_for query).
Proof.
  intros v. destruct (info_for_pure query) as (r & events & _ & ->).
  apply disk_only_set_trace.
Qed.

Lemma image_instance_from_disk_only instance_name prepared_image :
  frame disk_only (image_instance_from instance_name prepared_image).
Proof. unfold image_instance_from. solve_frame. Qed.

Lemma image_instance_from_same_downloads instance_name prepared_image :
  frame same_downloads (image_instance_from instance_name prepared_image).
Proof. unfold image_instance_from. solve_frame. Qed.

Lemma image_instance_from_disk_grows instance_name prepared_image :
  frame disk_grows (image_instance_from instance_name prepared_image).
Proof. unfold image_instance_from. solve_frame. Qed.

Lemma extract_downloaded_image_disk_only source_image :
  frame disk_only (extract_downloaded_image source_image).
Proof. unfold extract_downloaded_image. solve_frame. Qed.

Lemma extract_downloaded_image_same_downloads source_image :
  frame same_downloads (extract_downloaded_image source_image).
Proof. unfold extract_downloaded_image. solve_frame. Qed.

Lemma extract_image_from_disk_only instance_name source_image :
  frame disk_only (extract_image_from instance_name source_image).
Proof. unfold extract_image_from. solve_frame. Qed.

Lemma fetch_kernel_and_initrd_disk_only info source_image image_dir :
  frame disk_only (fetch_kernel_and_initrd info source_image image_dir).
Proof. unfold fetch_kernel_and_initrd. solve_frame. Qed.

Lemma fetch_kernel_and_initrd_same_downloads info source_image image_dir :
  frame same_downloads (fetch_kernel_and_initrd info source_image image_dir).
Proof. unfold fetch_kernel_and_initrd. solve_frame. Qed.

Lemma persist_instance_records_disk_only : frame disk_only persist_instance_records.
Proof. unfold persist_instance_records. solve_frame. Qed.

Lemma persist_instance_records_same_downloads : frame same_downloads persist_instance_records.
Proof. unfold persist_instance_records. solve_frame. Qed.

Lemma persist_instance_records_disk_grows : frame disk_grows persist_instance_records.
Proof. unfold persist_instance_records. solve_frame. Qed.

Lemma persist_image_records_disk_only : frame disk_only persist_image_records.
Proof. unfold persist_image_records. solve_frame. Qed.

Lemma persist_image_records_same_downloads : frame same_downloads persist_image_records.
Proof. unfold persist_image_records. solve_frame. Qed.

Lemma persist_image_records_disk_grows : frame disk_grows persist_image_records.
Proof. unfold persist_image_records. solve_frame. Qed.

Hint Resolve run_prepare_disk_only run_prepare_same_downloads info_for_disk_only
  image_instance_from_disk_only image_instance_from_same_downloads
  image_instance_from_disk_grows extract_downloaded_image_disk_only
  extract_downloaded_image_same_downloads extract_image_from_disk_only
  fetch_kernel_and_initrd_disk_only fetch_kernel_and_initrd_same_downloads
  persist_instance_records_disk_only persist_instance_records_same_downloads
  persist_instance_records_disk_grows persist_image_records_disk_only
  persist_image_records_same_downloads persist_image_records_disk_grows : frame.

Hint Resolve frame_weaken : frame.

Lemma finalize_image_records_keeps query prepared_image now :
  frame keeps_fetch_state (finalize_image_records query prepared_image now).
Proof. unfold finalize_image_records. solve_frame. Qed.

Lemma finalize_image_records_same_downloads query prepared_image now :
  frame same_downloads (finalize_image_records query prepared_image now).
Proof. unfold finalize_image_records. solve_frame. Qed.

Lemma finalize_image_records_disk_grows query prepared_image now :
  frame disk_grows (finalize_image_records query prepared_image now).
Proof. unfold finalize_image_records. solve_frame. Qed.

Lemma fetch_task_body_disk_only task : frame disk_only (fetch_task_body task).
Proof. unfold fetch_task_body. solve_frame. Qed.

End operation_frames.

Global Hint Resolve emit_disk_only emit_same_downloads emit_disk_grows make_dir_in_disk_only
  make_dir_in_same_downloads make_dir_in_disk_grows copy_disk_only copy_same_downloads
  copy_disk_grows delete_file_disk_only delete_file_same_downloads
  remove_source_images_disk_only remove_source_images_same_downloads
  verify_image_download_disk_only verify_image_download_same_downloads
  download_to_disk_only download_to_same_downloads decode_to_disk_only
  decode_to_same_downloads call_prepare_disk_only call_prepare_same_downloads
  run_prepare_disk_only run_prepare_same_downloads info_for_disk_only
  image_instance_from_disk_only image_instance_from_same_downloads
  image_instance_from_disk_grows extract_downloaded_image_disk_only
  extract_downloaded_image_same_downloads extract_image_from_disk_only
  fetch_kernel_and_initrd_disk_only fetch_kernel_and_initrd_same_downloads
  persist_instance_records_disk_only persist_instance_records_same_downloads
  persist_instance_records_disk_grows persist_image_records_disk_only
  persist_image_records_same_downloads persist_image_records_disk_grows
  finalize_image_records_keeps finalize_image_records_same_downloads
  finalize_image_records_disk_grows fetch_task_body_disk_only frame_weaken : frame.

Section alias_fetch.
Context `{Collaborators}.

(** The scan of the prepared catalog inserts no record: it only touches
    records that are there. *)
Lemma find_prepared_dom records query id now (v : Vault) r v' :
  (∀ kr, kr ∈ records → is_Some (prepared_image_records v !! kr.1)) →
  find_prepared records query id now v = (r, v') →
  dom (prepared_image_records v') = dom (prepared_image_records v)
  ∧ in_progress_image_fetches v' = in_progress_image_fetches v
  ∧ thread_pool v' = thread_pool v.
Proof.
  induction records as [|[key record] rest IH]; intros Hdom Hfind.
  { cbn [find_prepared] in Hfind. rewrite mret_eq in Hfind. by simplify_eq. }
  cbn [find_prepared] in Hfind.
  assert (∀ kr, kr ∈ rest → is_Some (prepared_image_records v !! kr.1)) as Hrest.
  { intros kr Hin. apply Hdom, elem_of_cons. by right. }
  destruct (decide _); [by apply IH|].
  destruct (bool_decide _ || bool_decide _); [|by apply IH].
  unfold try_catch in Hfind. rewrite bind_eq in Hfind. unfold touch_prepared in Hfind.
  rewrite modify_eq in Hfind. rewrite bind_eq in Hfind.
  match type of Hfind with
  | context [finalize_image_records ?q ?i ?n ?w] =>
    pose proof (finalize_image_records_keeps q i n w) as (Hprep & Hprog & Hpool & _);
    destruct (finalize_image_records q i n w) as [[vm|e] v2]
  end; rewrite ?mret_eq in Hfind; simplify_eq; cbn [snd] in *.
  all: rewrite Hprep, Hprog, Hpool; destruct v; cbn; split_and!; try done.
  all: apply dom_insert_lookup_L, (Hdom (key, record)), elem_of_cons; by left.
Qed.

(** What the first critical section leaves behind when it starts a fetch. *)
Lemma fetch_alias_locked_Started fetch_type query prepare info now (v : Vault)
    future source_path v' :
  fetch_alias_locked fetch_type query prepare info now v
    = (Ok (Started future source_path), v') →
  let image_dir :=
    QDir.filePath images_dir (VMImageInfo.release info +:+ "-" +:+ VMImageInfo.version info) in
  let source_image :=
    VMImage.mk (QDir.filePath image_dir (filename_for (VMImageInfo.image_location info)))
               EmptyString EmptyString (VMImageInfo.id info)
               (VMImageInfo.release_title info) EmptyString EmptyString
               (VMImageInfo.aliases info) in
  source_path = VMImage.image_path source_image
  ∧ in_progress_image_fetches v !! VMImageInfo.id info = None
  ∧ in_progress_image_fetches v'
    = <[VMImageInfo.id info := future]> (in_progress_image_fetches v)
  ∧ future = length (thread_pool v)
  ∧ thread_pool v'
    = thread_pool v ++ [Running (mkFetchTask fetch_type prepare info source_image image_dir
                                             (VMImageInfo.id info))]
  ∧ dom (prepared_image_records v') = dom (prepared_image_records v).
Proof.
  intros Hlocked image_dir source_image. unfold fetch_alias_locked in Hlocked.
  rewrite bind_eq, gets_eq in Hlocked. cbn beta iota in Hlocked.
  destruct (in_progress_image_fetches v !! VMImageInfo.id info) eqn:Hprogress.
  { rewrite bind_eq in Hlocked. rewrite emit_eq in Hlocked. by rewrite mret_eq in Hlocked. }
  rewrite bind_eq in Hlocked.
  assert (∃ found v1,
    (if decide (Query.name query ≠ EmptyString)
     then prepared ← gets prepared_image_records;
          find_prepared (map_to_list prepared) query (VMImageInfo.id info) now
     else mret None) v = (found, v1)
    ∧ dom (prepared_image_records v1) = dom (prepared_image_records v)
    ∧ in_progress_image_fetches v1 = in_progress_image_fetches v
    ∧ thread_pool v1 = thread_pool v) as (found & v1 & Hfound & Hdom & Hprog & Hpool).
  { destruct (decide _).
    - rewrite bind_eq, gets_eq. cbn beta iota.
      destruct (find_prepared _ _ _ _ v) as [found v1] eqn:Hfind.
      exists found, v1. split; [done|]. eapply find_prepared_dom; [|done].
      intros [k r] Hin%elem_of_map_to_list. by exists r.
    - exists (Ok None), v. by rewrite mret_eq. }
  rewrite Hfound in Hlocked. destruct found as [[vm|]|e]; [by rewrite mret_eq in Hlocked| |done].
  rewrite bind_eq in Hlocked. unfold make_dir_in, make_dir in Hlocked.
  cbn beta iota zeta in Hlocked. rewrite bind_eq in Hlocked. unfold spawn in Hlocked.
  rewrite bind_eq, modify_eq, mret_eq in Hlocked. simplify_eq.
  destruct v1. cbn in *. by simplify_eq.
Qed.

(** The fetch task when the downloaded file does not have the expected
    digest: it throws after the download and the VERIFY notice. *)
Lemma fetch_task_body_mismatch task data (v : Vault) :
  download (VMImageInfo.image_location (task_info task)) = Downloaded data →
  sha256_hex data ≠ task_id task →
  let path := VMImage.image_path (task_source_image task) in
  fetch_task_body task v
  = (Throw (CreateImageException "Downloaded image hash does not match"),
     set_trace (λ t, t ++ [EvDownloadTo (VMImageInfo.image_location (task_info task)) path
                             (VMImageInfo.size (task_info task)) IMAGE;
                           EvMonitor VERIFY (-1)])
       (set_fs (QFile.write path data) v)).
Proof.
  intros Hdownload Hdigest path. unfold fetch_task_body, try_catch.
  rewrite bind_eq. unfold download_to. rewrite bind_eq, emit_eq, Hdownload, modify_eq.
  rewrite bind_eq, emit_eq. rewrite bind_eq. unfold verify_image_download.
  rewrite bind_eq, gets_eq. cbn beta iota.
  destruct v as [disk ?????]. cbn [fs set_fs set_trace files QFile.write].
  rewrite lookup_insert_eq, decide_True by done.
  unfold throw, set_trace, set_fs, path. cbn. by rewrite <- app_assoc.
Qed.

(** C3: when an alias fetch starts a download and the downloaded file's
    SHA-256 differs from [info.id], [fetch_image] throws
    [CreateImageException] carrying the hash-mismatch message, no record
    is inserted into either catalog, and the file the download wrote is no
    longer on the disk. *)
Theorem fetch_image_hash_mismatch fetch_type query prepare now (v v1 v2 : Vault)
    info future source_path data :
  instance_image_records v !! Query.name query = None →
  Query.query_type query = Query.Alias →
  resolve_alias query v = (Ok info, v1) →
  fetch_alias_locked fetch_type query prepare info now v1
    = (Ok (Started future source_path), v2) →
  download (VMImageInfo.image_location info) = Downloaded data →
  sha256_hex data ≠ VMImageInfo.id info →
  ∃ v', fetch_image fetch_type query prepare now v
        = (Throw (CreateImageException "Downloaded image hash does not match"), v')
    ∧ dom (prepared_image_records v') = dom (prepared_image_records v)
    ∧ prepared_image_records v' = prepared_image_records v2
    ∧ instance_image_records v' = instance_image_records v2
    ∧ EvDownloadTo (VMImageInfo.image_location info) source_path (VMImageInfo.size info)
                   IMAGE ∈ trace v'
    ∧ files (fs v') !! source_path = None.
Proof.
  intros Hfresh Halias Hresolve Hlocked Hdownload Hdigest.
  destruct (fetch_alias_locked_Started _ _ _ _ _ _ _ _ _ Hlocked)
    as (Hpath & _ & _ & Hfuture & Hpool & Hdom).
  assert (dom (prepared_image_records v1) = dom (prepared_image_records v)) as Hdom1.
  { unfold resolve_alias in Hresolve. apply bind_Ok_inv in Hresolve as (i & w & Hinfo & Hrest).
    pose proof (info_for_disk_only query v) as (Hprep & _). rewrite Hinfo in Hprep.
    repeat (destruct (negb _); [done|]). rewrite mret_eq in Hrest. simplify_eq.
    cbn [snd] in Hprep. by rewrite Hprep. }
  unfold fetch_image. rewrite bind_eq, gets_eq. cbn beta iota. rewrite Hfresh.
  rewrite decide_False by (by intros []). unfold fetch_alias_image.
  rewrite (bind_Ok _ _ _ _ _ Hresolve), (bind_Ok _ _ _ _ _ Hlocked).
  unfold DeleteOnException, future_result. rewrite !bind_eq. unfold run_future.
  rewrite Hpool, Hfuture, lookup_app_r, Nat.sub_diag by done. cbn [lookup list_lookup].
  rewrite (fetch_task_body_mismatch _ data) by done. cbn [task_source_image task_info].
  unfold take_result. rewrite bind_eq, gets_eq. cbn beta iota.
  destruct v2 as [disk prepared instances in_progress pool events].
  cbn [thread_pool set_thread_pool set_trace set_fs] in *. subst pool.
  rewrite list_lookup_insert_eq by (rewrite length_app; cbn; lia).
  rewrite throw_eq. eexists. split; [done|]. cbn.
  split_and!; [by rewrite <- Hdom1|done|done| |].
  - rewrite Hpath. cbn. apply elem_of_app. right. apply elem_of_cons. by left.
  - apply lookup_delete_eq.
Qed.

End alias_fetch.

(** C3 at a fresh vault whose downloader serves bytes with digest ffff for
    the image abcd. *)
Lemma fetch_image_hash_mismatch_witness :
  ∃ v', @fetch_image (mock_collaborators "ffff") ImageOnly (bionic_query "vm1")
          identity_prepare 1546300900 fresh_vault
        = (Throw (CreateImageException "Downloaded image hash does not match"), v')
    ∧ dom (prepared_image_records v') = ∅
    ∧ files (fs v') !! "/cache/vault/images/bionic-20190101/b.img" = None.
Proof.
  destruct (@fetch_image_hash_mismatch (mock_collaborators "ffff") ImageOnly
              (bionic_query "vm1") identity_prepare 1546300900 fresh_vault
              (@resolve_alias (mock_collaborators "ffff") (bionic_query "vm1") fresh_vault).2
              (@fetch_alias_locked (mock_collaborators "ffff") ImageOnly (bionic_query "vm1")
                 identity_prepare bionic_info 1546300900
                 (@resolve_alias (mock_collaborators "ffff") (bionic_query "vm1")
                    fresh_vault).2).2
              bionic_info 0%nat "/cache/vault/images/bionic-20190101/b.img"
              (Blob "bytes of http://h/b.img"))
    as (v' & Hfetch & Hdom & _ & _ & _ & Hfile).
  - reflexivity.
  - reflexivity.
  - by vm_compute.
  - by vm_compute.
  - reflexivity.
  - by vm_compute.
  - exists v'. split; [exact Hfetch|]. split; [|exact Hfile].
    rewrite Hdom. apply dom_empty_L.
Defined.

(** C2 (the code at a failing input): after the fetch of the corrupted
    download has thrown, the in-progress map still maps the image id to the
    failed future; a second fetch of the alias then joins that future and
    throws without asking the downloader again. *)
Lemma failed_fetch_leaves_in_progress_entry :
  let first := @fetch_image (mock_collaborators "ffff") ImageOnly (bionic_query "vm1")
                 identity_prepare 1546300900 fresh_vault in
  let second := @fetch_image (mock_collaborators "ffff") ImageOnly (bionic_query "vm2")
                  identity_prepare 1546300901 first.2 in
  first.1 = Throw (CreateImageException "Downloaded image hash does not match")
  ∧ in_progress_image_fetches first.2 !! "abcd" = Some 0%nat
  ∧ thread_pool first.2
    = [Finished (Throw (CreateImageException "Downloaded image hash does not match"))]
  ∧ second.1 = Throw (CreateImageException "Downloaded image hash does not match")
  ∧ in_progress_image_fetches second.2 !! "abcd" = Some 0%nat
  ∧ trace second.2
    = trace first.2 ++ [EvInfoFor (bionic_query "vm2"); EvMonitor WAITING (-1)].
Proof. cbv zeta. split_and!; by vm_compute. Qed.

(** ** The branch for URLs and local files *)

Section custom.
Context `{Collaborators}.

Lemma prepared_set_trace f (v : Vault) :
  prepared_image_records (set_trace f v) = prepared_image_records v.
Proof. by destruct v. Qed.

Lemma DeleteOnException_Ok_inv {A} path (m : M A) v a v' :
  DeleteOnException path m v = (Ok a, v') → m v = (Ok a, v').
Proof. unfold DeleteOnException. destruct (m v) as [[?|?] ?]; by intros; simplify_eq. Qed.

Lemma copy_Ok file_name output_dir (v : Vault) path v' :
  copy file_name output_dir v = (Ok path, v') →
  path = if decide (file_name = EmptyString) then EmptyString
         else QDir.filePath output_dir (QDir.fileName file_name).
Proof.
  unfold copy. destruct (decide _); [rewrite mret_eq; by intros; simplify_eq|].
  rewrite bind_eq, gets_eq. cbn beta iota. destruct (negb _); [done|].
  rewrite bind_eq, modify_eq, mret_eq. by intros; simplify_eq.
Qed.

Lemma image_instance_from_Ok instance_name prepared_image (v : Vault) vm_image v' :
  image_instance_from instance_name prepared_image v = (Ok vm_image, v') →
  VMImage.image_path vm_image
  = if decide (VMImage.image_path prepared_image = EmptyString) then EmptyString
    else QDir.filePath (QDir.filePath instances_dir instance_name)
                       (QDir.fileName (VMImage.image_path prepared_image)).
Proof.
  unfold image_instance_from. intros Hok.
  apply bind_Ok_inv in Hok as (output_dir & v1 & Hdir & Hok).
  apply bind_Ok_inv in Hok as (image_path & v2 & Himage & Hok).
  apply bind_Ok_inv in Hok as (kernel_path & v3 & _ & Hok).
  apply bind_Ok_inv in Hok as (initrd_path & v4 & _ & Hok).
  rewrite mret_eq in Hok. simplify_eq. cbn [VMImage.image_path].
  unfold make_dir_in, make_dir in Hdir. cbn in Hdir. simplify_eq.
  by apply copy_Ok in Himage.
Qed.

Lemma extract_image_from_Ok instance_name source_image (v : Vault) image v' :
  extract_image_from instance_name source_image v = (Ok image, v') →
  VMImage.image_path image
  = QDir.filePath (QDir.filePath instances_dir instance_name)
      (QString.remove (QDir.fileName (VMImage.image_path source_image)) ".xz").
Proof.
  unfold extract_image_from. intros Hok.
  apply bind_Ok_inv in Hok as (output_dir & v1 & Hdir & Hok).
  apply bind_Ok_inv in Hok as (? & v2 & _ & Hok).
  rewrite mret_eq in Hok. simplify_eq. cbn [VMImage.image_path set_image_path].
  unfold make_dir_in, make_dir in Hdir. cbn in Hdir. by simplify_eq.
Qed.

Lemma fetch_kernel_and_initrd_Ok info source_image image_dir (v : Vault) image v' :
  fetch_kernel_and_initrd info source_image image_dir v = (Ok image, v') →
  VMImage.image_path image = VMImage.image_path source_image.
Proof.
  unfold fetch_kernel_and_initrd. intros Hok.
  do 2 apply DeleteOnException_Ok_inv in Hok.
  apply bind_Ok_inv in Hok as (? & v1 & _ & Hok).
  apply bind_Ok_inv in Hok as (? & v2 & _ & Hok).
  rewrite mret_eq in Hok. by simplify_eq.
Qed.

Lemma fetch_default_kernel_and_initrd_Ok fetch_type query source_image (v : Vault)
    image v' :
  fetch_default_kernel_and_initrd fetch_type query source_image v = (Ok image, v') →
  VMImage.image_path image = VMImage.image_path source_image.
Proof.
  unfold fetch_default_kernel_and_initrd. destruct (decide _).
  - intros Hok. apply bind_Ok_inv in Hok as (info & v1 & _ & Hok).
    by apply fetch_kernel_and_initrd_Ok in Hok.
  - rewrite mret_eq. by intros; simplify_eq.
Qed.

Lemma run_prepare_Ok prepare source_image (v : Vault) vm_image v' :
  run_prepare prepare source_image v = (Ok vm_image, v') →
  EvPrepare source_image ∈ trace v'.
Proof.
  unfold run_prepare. rewrite bind_eq, emit_eq. unfold call_prepare.
  destruct (prepare _ _) as [r disk]. intros; simplify_eq.
  destruct v. cbn. apply elem_of_app. right. apply elem_of_cons. by left.
Qed.

(** The local-file branch hands to the prepare action an image that lies
    in the directory of the instance. *)
Lemma fetch_local_file_Ok fetch_type query prepare (v : Vault) vm_image v' :
  fetch_local_file fetch_type query prepare v = (Ok vm_image, v') →
  ∃ source_image, EvPrepare source_image ∈ trace v'
    ∧ (QUrl_path (Query.release query) ≠ EmptyString →
       in_instance_dir (Query.name query) (VMImage.image_path source_image)).
Proof.
  unfold fetch_local_file. rewrite bind_eq, gets_eq. cbn beta iota.
  destruct (negb _); [done|]. intros Hok.
  apply bind_Ok_inv in Hok as (source1 & v1 & Hsource1 & Hok).
  apply bind_Ok_inv in Hok as (source2 & v2 & Hsource2 & Hok).
  apply bind_Ok_inv in Hok as (vm & v3 & Hprepare & Hok).
  apply bind_Ok_inv in Hok as ([] & v4 & Hremove & Hok).
  rewrite mret_eq in Hok. simplify_eq.
  exists source2. split.
  - pose proof (remove_source_images_disk_only source2 vm_image v3) as (_ & _ & _ & _ & Hpre).
    rewrite Hremove in Hpre. cbn [snd] in Hpre.
    eapply elem_of_prefix; [|exact Hpre]. by eapply run_prepare_Ok.
  - intros Hpath. apply fetch_default_kernel_and_initrd_Ok in Hsource2 as ->.
    cbn [VMImage.image_path set_image_path] in Hsource1.
    destruct (QString.endsWith _ _).
    + apply extract_image_from_Ok in Hsource1 as ->. by eexists.
    + apply image_instance_from_Ok in Hsource1 as ->. cbn [VMImage.image_path set_image_path].
      rewrite decide_False by done. by eexists.
Qed.

(** The download of the HTTP branch ends with the per-instance copy. *)
Lemma download_http_image_Ok fetch_type query prepare hash modified source_image now
    (v : Vault) vm_image v' :
  download_http_image fetch_type query prepare hash modified source_image now v
    = (Ok vm_image, v') →
  VMImage.image_path vm_image = EmptyString
  ∨ in_instance_dir (Query.name query) (VMImage.image_path vm_image).
Proof.
  unfold download_http_image. intros Hok. apply DeleteOnException_Ok_inv in Hok.
  apply bind_Ok_inv in Hok as (? & v1 & _ & Hok).
  apply bind_Ok_inv in Hok as (source1 & v2 & _ & Hok).
  apply bind_Ok_inv in Hok as (source2 & v3 & _ & Hok).
  apply bind_Ok_inv in Hok as (vm & v4 & _ & Hok). cbn zeta in Hok.
  apply bind_Ok_inv in Hok as (? & v5 & _ & Hok).
  apply bind_Ok_inv in Hok as (? & v6 & _ & Hok).
  apply bind_Ok_inv in Hok as (? & v7 & _ & Hok).
  apply image_instance_from_Ok in Hok as ->.
  destruct (decide _); [by left|right]. by eexists.
Qed.

Lemma finalize_image_records_unnamed query prepared_image now (v : Vault) :
  Query.name query = EmptyString →
  (finalize_image_records query prepared_image now v).1 = Ok VMImage.empty
  ∧ instance_image_records (finalize_image_records query prepared_image now v).2
    = instance_image_records v.
Proof.
  intros Hname. unfold finalize_image_records. rewrite decide_False by (by intros []).
  rewrite bind_eq, mret_eq, bind_eq, persist_instance_records_eq, bind_eq,
    persist_image_records_eq, mret_eq.
  by destruct v.
Qed.


End custom.


(** ** Concurrent calls: at most one fetch in flight per image id *)

Section in_flight.
Context `{Collaborators}.

Hint Resolve frame_weaken_in_flight : frame.

Lemma fetch_default_kernel_and_initrd_disk_only fetch_type query source_image :
  frame disk_only (fetch_default_kernel_and_initrd fetch_type query source_image).
Proof. unfold fetch_default_kernel_and_initrd. solve_frame. Qed.

Hint Resolve fetch_default_kernel_and_initrd_disk_only : frame.

Lemma fetch_local_file_disk_only fetch_type query prepare :
  frame disk_only (fetch_local_file fetch_type query prepare).
Proof. unfold fetch_local_file. solve_frame. Qed.

Lemma download_http_image_in_flight fetch_type query prepare hash modified source_image now :
  frame keeps_in_flight
    (download_http_image fetch_type query prepare hash modified source_image now).
Proof. unfold download_http_image. solve_frame. Qed.

Hint Resolve fetch_local_file_disk_only download_http_image_in_flight : frame.

Lemma fetch_http_url_in_flight fetch_type query prepare now :
  frame keeps_in_flight (fetch_http_url fetch_type query prepare now).
Proof. unfold fetch_http_url. solve_frame. Qed.

Hint Resolve fetch_http_url_in_flight : frame.

Lemma fetch_custom_image_in_flight fetch_type query prepare now :
  frame keeps_in_flight (fetch_custom_image fetch_type query prepare now).
Proof. unfold fetch_custom_image. solve_frame. Qed.

Lemma resolve_alias_disk_only query : frame disk_only (resolve_alias query).
Proof. unfold resolve_alias. solve_frame. Qed.

Lemma touch_prepared_in_flight id now : frame keeps_in_flight (touch_prepared id now).
Proof. unfold touch_prepared. solve_frame. Qed.

Hint Resolve touch_prepared_in_flight : frame.

Lemma fetch_alias_joined_in_flight query id prepared_image now :
  frame keeps_in_flight (fetch_alias_joined query id prepared_image now).
Proof. unfold fetch_alias_joined. solve_frame. Qed.

Lemma find_prepared_returns records query id now (v : Vault) :
  ∃ found, (find_prepared records query id now v).1 = Ok found.
Proof.
  revert v. induction records as [|[key record] rest IH]; intros v; [by eexists|].
  cbn [find_prepared]. destruct (decide _); [apply IH|].
  destruct (_ || _); [|apply IH]. unfold try_catch.
  match goal with |- context [match ?m v with _ => _ end] => destruct (m v) as [[?|?] ?] end;
    by eexists.
Qed.

(** The three ways the first critical section ends, with what each does
    to the in-progress map and the thread pool. *)
Lemma fetch_alias_locked_cases fetch_type query prepare info now (v : Vault) r v' :
  fetch_alias_locked fetch_type query prepare info now v = (r, v') →
  (∃ future, r = Ok (WaitFor future)
     ∧ in_progress_image_fetches v !! VMImageInfo.id info = Some future
     ∧ keeps_in_flight v v')
  ∨ (∃ vm_image, r = Ok (Hit vm_image) ∧ keeps_in_flight v v')
  ∨ (∃ future source_path, r = Ok (Started future source_path)).
Proof.
  unfold fetch_alias_locked. rewrite bind_eq, gets_eq. cbn beta iota.
  destruct (in_progress_image_fetches v !! VMImageInfo.id info) eqn:Hprogress.
  { rewrite bind_eq, emit_eq, mret_eq. intros; simplify_eq. left. eexists.
    split_and!; [done..|]. by destruct v. }
  rewrite bind_eq.
  assert (∃ found v1,
    (if decide (Query.name query ≠ EmptyString)
     then prepared ← gets prepared_image_records;
          find_prepared (map_to_list prepared) query (VMImageInfo.id info) now
     else mret None) v = (Ok found, v1)
    ∧ keeps_in_flight v v1) as (found & v1 & -> & Hkeeps).
  { destruct (decide _).
    - rewrite bind_eq, gets_eq. cbn beta iota.
      destruct (find_prepared_returns (map_to_list (prepared_image_records v)) query
                  (VMImageInfo.id info) now v) as [found Hfound].
      destruct (find_prepared _ _ _ _ v) as [r1 v1] eqn:Hfind. simpl in Hfound. subst r1.
      exists found, v1. split; [done|].
      eapply find_prepared_dom in Hfind as (_ & ? & ?); [done|].
      intros [k rec] Hin%elem_of_map_to_list. by exists rec.
    - exists None, v. by rewrite mret_eq. }
  destruct found as [vm|].
  - rewrite mret_eq. intros; simplify_eq. right; left. by eexists.
  - rewrite bind_eq. unfold make_dir_in, make_dir. cbn beta iota zeta.
    rewrite bind_eq. unfold spawn. rewrite bind_eq, modify_eq, mret_eq.
    intros; simplify_eq. right; right. by do 2 eexists.
Qed.

End in_flight.

Section registered.
Context `{Collaborators}.

Lemma registered_keeps sys i c' v' :
  registered sys →
  keeps_in_flight (vault sys) v' →
  (∀ query id future source_path, c' ≠ Fetching query id future source_path) →
  registered (mkSystem v' (<[i := c']> (calls sys))).
Proof.
  intros (Hrun & Hfetch & Huniq) [Hprog Hpool] Hc'. split_and!; cbn [vault calls].
  - intros future task. rewrite Hprog, Hpool. apply Hrun.
  - intros k query id future path [(_ & ? & _)|[_ Hk]]%list_lookup_insert_Some;
      [by destruct (Hc' query id future path)|].
    rewrite Hprog. by eapply Hfetch.
  - intros k j q1 q2 id f1 f2 p1 p2
      [(_ & ? & _)|[_ Hk]]%list_lookup_insert_Some
      [(_ & ? & _)|[_ Hj]]%list_lookup_insert_Some;
      try (by edestruct Hc'). by eapply Huniq.
Qed.

Lemma registered_started sys i query id future source_path task v' :
  registered sys →
  in_progress_image_fetches (vault sys) !! id = None →
  in_progress_image_fetches v' = <[id := future]> (in_progress_image_fetches (vault sys)) →
  future = length (thread_pool (vault sys)) →
  thread_pool v' = thread_pool (vault sys) ++ [Running task] →
  task_id task = id →
  registered (mkSystem v' (<[i := Fetching query id future source_path]> (calls sys))).
Proof.
  intros (Hrun & Hfetch & Huniq) Hnone Hprog Hfuture Hpool Htask.
  split_and!; cbn [vault calls].
  - intros h task'. rewrite Hprog, Hpool.
    intros [Hold|[Hlen Hnew]]%lookup_app_Some.
    + specialize (Hrun _ _ Hold). rewrite lookup_insert_ne; [done|]. congruence.
    + destruct (h - length (thread_pool (vault sys)))%nat eqn:Hdiff; [|done].
      cbn in Hnew. simplify_eq. rewrite lookup_insert_eq. f_equal. lia.
  - intros k q id' f p [(_ & ? & _)|[_ Hk]]%list_lookup_insert_Some; simplify_eq.
    + by rewrite Hprog, lookup_insert_eq.
    + specialize (Hfetch _ _ _ _ _ Hk). rewrite Hprog, lookup_insert_ne; [done|]. congruence.
  - intros k j q1 q2 id' f1 f2 p1 p2
      [(? & ? & _)|[? Hk]]%list_lookup_insert_Some
      [(? & ? & _)|[? Hj]]%list_lookup_insert_Some; simplify_eq; try done.
    + specialize (Hfetch _ _ _ _ _ Hj). congruence.
    + specialize (Hfetch _ _ _ _ _ Hk). congruence.
    + by eapply Huniq.
Qed.

Lemma registered_finished sys i query id future source_path r c' v' :
  registered sys →
  calls sys !! i = Some (Fetching query id future source_path) →
  thread_pool (vault sys) !! future = Some (Finished r) →
  in_progress_image_fetches v' = delete id (in_progress_image_fetches (vault sys)) →
  thread_pool v' = thread_pool (vault sys) →
  (∀ query id future source_path, c' ≠ Fetching query id future source_path) →
  registered (mkSystem v' (<[i := c']> (calls sys))).
Proof.
  intros (Hrun & Hfetch & Huniq) Hi Hdone Hprog Hpool Hc'. split_and!; cbn [vault calls].
  - intros h task. rewrite Hprog, Hpool. intros Hh.
    specialize (Hrun _ _ Hh). specialize (Hfetch _ _ _ _ _ Hi).
    rewrite lookup_delete_ne; [done|]. intros Heq. rewrite <- Heq in Hrun. congruence.
  - intros k q id' f p [(_ & ? & _)|[Hne Hk]]%list_lookup_insert_Some;
      [by edestruct Hc'|].
    rewrite Hprog, lookup_delete_ne; [by eapply Hfetch|].
    intros Heq. subst id'. apply Hne. symmetry. by eapply Huniq.
  - intros k j q1 q2 id' f1 f2 p1 p2
      [(_ & ? & _)|[_ Hk]]%list_lookup_insert_Some
      [(_ & ? & _)|[_ Hj]]%list_lookup_insert_Some;
      try (by edestruct Hc'). by eapply Huniq.
Qed.

(** What the second critical section of the call that started the fetch
    does to the in-progress map and the thread pool. *)
Lemma fetch_alias_complete_cases source_path future query id now (v : Vault) result r v' :
  thread_pool v !! future = Some (Finished result) →
  DeleteOnException source_path
    (prepared_image ← take_result future;
     fetch_alias_finish query id prepared_image now) v = (r, v') →
  thread_pool v' = thread_pool v
  ∧ (in_progress_image_fetches v' = in_progress_image_fetches v
     ∨ in_progress_image_fetches v' = delete id (in_progress_image_fetches v)).
Proof.
  intros Hdone. unfold DeleteOnException, take_result.
  rewrite !bind_eq, gets_eq. cbn beta iota. rewrite Hdone.
  destruct result as [prepared_image|e].
  2:{ rewrite throw_eq. intros; simplify_eq. by destruct v; auto. }
  rewrite mret_eq. unfold fetch_alias_finish. rewrite bind_eq, modify_eq, bind_eq.
  match goal with
  | |- context [finalize_image_records ?q ?i ?n ?w] =>
    pose proof (finalize_image_records_keeps q i n w) as (_ & Hprog & Hpool & _);
    destruct (finalize_image_records q i n w) as [[vm|e] v2]
  end; cbn [snd] in *.
  - rewrite bind_eq, modify_eq, mret_eq. intros; simplify_eq.
    destruct v, v2; cbn in *. simplify_eq. auto.
  - intros; simplify_eq. destruct v, v2; cbn in *. simplify_eq. auto.
Qed.

Lemma registered_exec m sys sys' :
  exec m sys = Some sys' → registered sys → registered sys'.
Proof.
  destruct sys as [v cs]. destruct m as [i now|future]; cbn [exec vault calls].
  - destruct (cs !! i) as [c|] eqn:Hi; [|done]. cbn [mbind option_bind].
    destruct (step_call now c v) as [[c' v']|] eqn:Hstep; [|done].
    cbn [mbind option_bind]. intros ? Hreg; simplify_eq.
    destruct c as [fetch_type query prepare|fetch_type query prepare info|query id future
                  |query id future source_path|r]; cbn [step_call] in Hstep.
    + destruct (instance_image_records v !! Query.name query).
      { simplify_eq. by apply (registered_keeps (mkSystem v' cs)). }
      destruct (decide _).
      * pose proof (fetch_custom_image_in_flight fetch_type query prepare now v) as Hkeeps.
        destruct (fetch_custom_image _ _ _ _ v) as [r v1]. simplify_eq.
        by apply (registered_keeps (mkSystem v cs)).
      * pose proof (resolve_alias_disk_only query v) as Hkeeps.
        apply disk_only_keeps, keeps_fetch_state_in_flight in Hkeeps.
        destruct (resolve_alias query v) as [[info|e] v1]; simplify_eq;
          by apply (registered_keeps (mkSystem v cs)).
    + destruct (fetch_alias_locked _ _ _ _ _ v) as [r v1] eqn:Hlocked.
      destruct (fetch_alias_locked_cases _ _ _ _ _ _ _ _ Hlocked)
        as [(h & -> & _ & Hkeeps)|[(vm & -> & Hkeeps)|(h & path & ->)]]; simplify_eq.
      * by apply (registered_keeps (mkSystem v cs)).
      * by apply (registered_keeps (mkSystem v cs)).
      * destruct (fetch_alias_locked_Started _ _ _ _ _ _ _ _ _ Hlocked)
          as (_ & Hnone & Hprog & Hfuture & Hpool & _).
        by eapply (registered_started (mkSystem v cs)).
    + destruct (thread_pool v !! future) as [[task|[prepared_image|e]]|]; simplify_eq.
      * pose proof (fetch_alias_joined_in_flight query id prepared_image now v) as Hkeeps.
        destruct (fetch_alias_joined _ _ _ _ v) as [r v1]. simplify_eq.
        by apply (registered_keeps (mkSystem v cs)).
      * by apply (registered_keeps (mkSystem v' cs)).
    + destruct (thread_pool v !! future) as [[task|result]|] eqn:Hdone; simplify_eq.
      destruct (DeleteOnException _ _ v) as [r v1] eqn:Hfinish. simplify_eq.
      destruct (fetch_alias_complete_cases _ _ _ _ _ _ _ _ _ Hdone Hfinish)
        as [Hpool [Hprog|Hprog]].
      * by apply (registered_keeps (mkSystem v cs)).
      * by eapply (registered_finished (mkSystem v cs)).
    + done.
  - destruct (thread_pool v !! future) as [[task|result]|] eqn:Hfuture; [|done..].
    intros ? (Hrun & Hfetch & Huniq); simplify_eq. unfold run_future. rewrite Hfuture.
    pose proof (fetch_task_body_disk_only task v) as (_ & _ & Hprog & Hpool & _).
    destruct (fetch_task_body task v) as [r v1]. cbn [snd] in *.
    split_and!; cbn [vault calls].
    + intros h task'. destruct v1; cbn in *. subst.
      intros [(_ & ? & _)|[_ Hh]]%list_lookup_insert_Some; [done|]. by apply Hrun.
    + intros k q id f p Hk. destruct v1; cbn in *. subst. by eapply Hfetch.
    + done.
Qed.

Lemma registered_run schedule sys sys' :
  run schedule sys = Some sys' → registered sys → registered sys'.
Proof.
  revert sys. induction schedule as [|m rest IH]; intros sys Hrun Hreg.
  { cbn in Hrun. by simplify_eq. }
  cbn [run] in Hrun. destruct (exec m sys) as [sys1|] eqn:Hexec; [|done].
  cbn in Hrun. eapply IH; [done|]. by eapply registered_exec.
Qed.

Lemma registered_at_most_one sys : registered sys → at_most_one_in_flight (vault sys).
Proof.
  intros (Hrun & _ & _) f1 f2 t1 t2 H1 H2 Hid.
  specialize (Hrun _ _ H1) as Hf1. specialize (Hrun _ _ H2) as Hf2.
  rewrite Hid in Hf1. congruence.
Qed.

Lemma registered_initial (v : Vault) cs :
  (∀ future task, thread_pool v !! future ≠ Some (Running task)) →
  Forall (λ c, called c = true) cs →
  registered (mkSystem v cs).
Proof.
  intros Hidle Hcalled. split_and!; cbn [vault calls].
  - intros future task Hrun. by destruct (Hidle future task).
  - intros i q id f p Hi. eapply Forall_lookup_1 in Hcalled; [|done]. done.
  - intros i j q1 q2 id f1 f2 p1 p2 Hi. eapply Forall_lookup_1 in Hcalled; [|done]. done.
Qed.

End registered.

(** ** Concurrent calls for one image: what each step does *)

Section effects.
Context `{Collaborators}.

Lemma resolve_alias_eq query info (v0 : Vault) :
  (resolve_alias query v0).1 = Ok info →
  ∃ events, image_downloads events = 0%nat
    ∧ ∀ v, resolve_alias query v = (Ok info, set_trace (λ t, t ++ events) v).
Proof.
  unfold resolve_alias. destruct (info_for_pure query) as (r & events & Hnone & Hpure).
  rewrite bind_eq, Hpure. destruct r as [info'|e]; [|done].
  destruct (negb _) eqn:Hremote; [done|]. destruct (negb (is_alias_supported _ _)) eqn:Halias;
    [done|].
  rewrite mret_eq. cbn [fst]. intros ?; simplify_eq. exists events. split; [done|].
  intros v. by rewrite bind_eq, Hpure.
Qed.

Lemma serves_dec query id key record : Decision (serves query id key record).
Proof. unfold serves. apply _. Qed.

Lemma find_prepared_miss records query id now (v : Vault) :
  Forall (λ kr, ¬ serves query id kr.1 kr.2) records →
  find_prepared records query id now v = (Ok None, v).
Proof.
  induction 1 as [|[key record] rest Hhd _ IH]; [done|]. cbn [find_prepared].
  destruct (decide _) as [|Hremote]; [done|].
  destruct (bool_decide (id = key) || bool_decide _) eqn:Htest; [|done].
  exfalso. apply Hhd. split.
  - simpl. by destruct (decide (Query.remote_name (VaultRecord.query record)
                                = Query.remote_name query)).
  - simpl. apply orb_true_iff in Htest as [?%bool_decide_eq_true|?%bool_decide_eq_true]; auto.
Qed.

Lemma fetch_alias_locked_cold fetch_type query prepare info now (v : Vault) :
  in_progress_image_fetches v !! VMImageInfo.id info = None →
  (∀ key record, prepared_image_records v !! key = Some record →
     ¬ serves query (VMImageInfo.id info) key record) →
  ∃ source_path,
    fetch_alias_locked fetch_type query prepare info now v
    = (Ok (Started (length (thread_pool v)) source_path),
       set_in_progress (<[VMImageInfo.id info := length (thread_pool v)]>)
         (set_thread_pool (λ pool, pool ++ [Running (fetch_task fetch_type prepare info)])
            (set_fs (QDir.mkpath (image_dir_of info)) v))).
Proof.
  intros Hnone Hcold. unfold fetch_alias_locked. rewrite bind_eq, gets_eq. cbn beta iota.
  rewrite Hnone, bind_eq.
  assert ((if decide (Query.name query ≠ EmptyString)
           then prepared ← gets prepared_image_records;
                find_prepared (map_to_list prepared) query (VMImageInfo.id info) now
           else mret None) v = (Ok None, v)) as ->.
  { destruct (decide _); [|done]. rewrite bind_eq, gets_eq. cbn beta iota.
    apply find_prepared_miss, Forall_forall. intros [key record] Hin%elem_of_map_to_list.
    by apply Hcold. }
  eexists. cbn beta iota. rewrite bind_eq. unfold make_dir_in, make_dir. cbn beta iota zeta.
  rewrite bind_eq. unfold spawn. rewrite bind_eq, modify_eq, mret_eq.
  unfold fetch_task, image_dir_of. by destruct v.
Qed.

Lemma fetch_alias_locked_wait fetch_type query prepare info now (v : Vault) future :
  in_progress_image_fetches v !! VMImageInfo.id info = Some future →
  fetch_alias_locked fetch_type query prepare info now v
  = (Ok (WaitFor future), set_trace (λ t, t ++ [EvMonitor WAITING (-1)]) v).
Proof.
  intros Hsome. unfold fetch_alias_locked. rewrite bind_eq, gets_eq. cbn beta iota.
  by rewrite Hsome, bind_eq, emit_eq, mret_eq.
Qed.

Lemma stored_file_grows path disk disk' :
  fs_grows disk disk' → stored_file path disk → stored_file path disk'.
Proof. intros [Hfiles _] [?|?]; [by left|right]. by apply Hfiles. Qed.

Lemma stored_grows image disk disk' : fs_grows disk disk' → stored image disk → stored image disk'.
Proof. intros Hgrows (? & ? & ?). split_and!; by eapply stored_file_grows. Qed.

Lemma exists_grows path disk disk' :
  fs_grows disk disk' → QDir.exists_ path disk = true → QDir.exists_ path disk' = true.
Proof.
  intros [Hfiles Hdirs]. unfold QDir.exists_. rewrite !orb_true_iff, !bool_decide_eq_true.
  intros [?|?]; [left; by apply Hfiles|right; by apply Hdirs].
Qed.

Lemma present_file_grows path disk disk' :
  fs_grows disk disk' → present_file path disk → present_file path disk'.
Proof. intros Hgrows [?|?]; [by left|right]. by eapply exists_grows. Qed.

Lemma present_grows image disk disk' :
  fs_grows disk disk' → present image disk → present image disk'.
Proof. intros Hgrows (? & ? & ?). split_and!; by eapply present_file_grows. Qed.

Lemma copy_stored file_name output_dir (v : Vault) :
  stored_file file_name (fs v) →
  ∃ v', copy file_name output_dir v
        = (Ok (if decide (file_name = EmptyString) then EmptyString
               else QDir.filePath output_dir (QDir.fileName file_name)), v')
    ∧ present_file (if decide (file_name = EmptyString) then EmptyString
                    else QDir.filePath output_dir (QDir.fileName file_name)) (fs v').
Proof.
  intros Hstored. unfold copy. destruct (decide _) as [|Hname].
  { exists v. split; [done|by left]. }
  destruct Hstored as [?|[data Hdata]]; [done|].
  rewrite bind_eq, gets_eq. cbn beta iota.
  assert (QDir.exists_ file_name (fs v) = true) as ->.
  { unfold QDir.exists_. rewrite Hdata. by rewrite bool_decide_eq_true_2 by by eexists. }
  cbn [negb]. rewrite bind_eq, modify_eq, mret_eq. eexists. split; [done|]. right.
  destruct v as [disk ?????]. cbn [fs set_fs] in *. unfold QFile.copy. rewrite Hdata.
  destruct (QDir.exists_ _ disk) eqn:Hexists; [done|].
  unfold QDir.exists_. cbn [files]. rewrite lookup_insert_eq.
  by rewrite bool_decide_eq_true_2 by by eexists.
Qed.

Lemma image_instance_from_stored instance_name prepared_image (v : Vault) :
  stored prepared_image (fs v) →
  ∃ v', image_instance_from instance_name prepared_image v
        = (Ok (instance_copy instance_name prepared_image), v')
    ∧ present (instance_copy instance_name prepared_image) (fs v').
Proof.
  intros (Himage & Hkernel & Hinitrd). unfold image_instance_from.
  rewrite bind_eq. unfold make_dir_in at 1. unfold make_dir. cbn beta iota zeta.
  set (v1 := set_fs _ v).
  assert (fs_grows (fs v) (fs v1)) as Hgrows1.
  { destruct v. apply mkpath_grows. }
  destruct (copy_stored (VMImage.image_path prepared_image)
              (QDir.filePath instances_dir instance_name) v1) as (v2 & Hcopy1 & Hpresent1);
    [by eapply stored_file_grows|].
  pose proof (copy_disk_grows (VMImage.image_path prepared_image)
                (QDir.filePath instances_dir instance_name) v1) as Hgrows2.
  rewrite Hcopy1 in Hgrows2. cbn [snd] in Hgrows2.
  destruct (copy_stored (VMImage.kernel_path prepared_image)
              (QDir.filePath instances_dir instance_name) v2) as (v3 & Hcopy2 & Hpresent2).
  { eapply stored_file_grows; [exact Hgrows2|]. by eapply stored_file_grows. }
  pose proof (copy_disk_grows (VMImage.kernel_path prepared_image)
                (QDir.filePath instances_dir instance_name) v2) as Hgrows3.
  rewrite Hcopy2 in Hgrows3. cbn [snd] in Hgrows3.
  destruct (copy_stored (VMImage.initrd_path prepared_image)
              (QDir.filePath instances_dir instance_name) v3) as (v4 & Hcopy3 & Hpresent3).
  { eapply stored_file_grows; [exact Hgrows3|].
    eapply stored_file_grows; [exact Hgrows2|]. by eapply stored_file_grows. }
  pose proof (copy_disk_grows (VMImage.initrd_path prepared_image)
                (QDir.filePath instances_dir instance_name) v3) as Hgrows4.
  rewrite Hcopy3 in Hgrows4. cbn [snd] in Hgrows4.
  rewrite bind_eq, Hcopy1, bind_eq, Hcopy2, bind_eq, Hcopy3, mret_eq.
  exists v4. split; [done|]. unfold present, instance_copy, copied_path.
  cbn [VMImage.image_path VMImage.kernel_path VMImage.initrd_path].
  split_and!; [|by eapply present_file_grows|done].
  eapply present_file_grows; [exact Hgrows4|]. by eapply present_file_grows.
Qed.

(** The per-instance copy of a stored image succeeds, and says what it
    leaves behind. *)
Lemma finalize_image_records_stored query prepared_image now (v : Vault) :
  Query.name query ≠ EmptyString →
  stored prepared_image (fs v) →
  ∃ v', finalize_image_records query prepared_image now v
        = (Ok (instance_copy (Query.name query) prepared_image), v')
    ∧ keeps_fetch_state v v'
    ∧ same_downloads v v'
    ∧ disk_grows v v'
    ∧ instance_image_records v'
      = <[Query.name query :=
            VaultRecord.mk (instance_copy (Query.name query) prepared_image) query now]>
          (instance_image_records v)
    ∧ present (instance_copy (Query.name query) prepared_image) (fs v').
Proof.
  intros Hname Hstored.
  pose proof (finalize_image_records_keeps query prepared_image now v) as Hkeeps.
  pose proof (finalize_image_records_same_downloads query prepared_image now v) as Hsame.
  pose proof (finalize_image_records_disk_grows query prepared_image now v) as Hgrows.
  unfold finalize_image_records in *. rewrite decide_True in * by done.
  destruct (image_instance_from_stored (Query.name query) prepared_image v Hstored)
    as (v1 & Hcopy & Hpresent).
  pose proof (image_instance_from_disk_only (Query.name query) prepared_image v)
    as (_ & Hinstances & _).
  rewrite Hcopy in Hinstances. cbn [snd] in Hinstances.
  rewrite !bind_eq, Hcopy in *. rewrite bind_eq, modify_eq, mret_eq in *.
  rewrite bind_eq, persist_instance_records_eq, bind_eq, persist_image_records_eq,
    mret_eq in *.
  eexists. split; [done|]. cbn [snd] in *. split_and!; [done..| |].
  - destruct v1. cbn in *. by subst.
  - eapply present_grows; [|exact Hpresent]. destruct v1. cbn.
    etrans; apply persist_records_grows.
Qed.

(** The fetch task asks the downloader for the image once. *)
Lemma fetch_task_body_downloads task (v : Vault) :
  image_downloads (trace (fetch_task_body task v).2) = S (image_downloads (trace v)).
Proof.
  unfold fetch_task_body, try_catch. rewrite bind_eq. unfold download_to at 1.
  rewrite bind_eq, emit_eq.
  set (v1 := set_trace _ v).
  assert (image_downloads (trace v1) = S (image_downloads (trace v))) as Hv1.
  { unfold v1. destruct v. cbn [trace set_trace]. rewrite image_downloads_app.
    unfold image_downloads at 2. rewrite filter_cons, decide_True by done. cbn. lia. }
  rewrite <- Hv1. clear Hv1.
  match goal with
  | |- image_downloads (trace (match (let (r, w) := ?m v1 in _) with _ => _ end).2) = _ =>
    assert (frame same_downloads m) as Hfirst
  end.
  { solve_frame. }
  specialize (Hfirst v1).
  match type of Hfirst with same_downloads _ (?m v1).2 => destruct (m v1) as [[[]|e] v2] end;
    cbn [snd] in Hfirst; [|by rewrite throw_eq].
  match goal with
  | |- image_downloads (trace (match ?m v2 with _ => _ end).2) = _ =>
    assert (frame same_downloads m) as Hrest
  end.
  { solve_frame. }
  specialize (Hrest v2).
  match type of Hrest with same_downloads _ (?m v2).2 => destruct (m v2) as [[?|e] v3] end;
    cbn [snd] in *; [congruence|]. rewrite throw_eq. cbn [snd]. congruence.
Qed.

End effects.

(** ** Concurrent calls for one image: the invariant *)

(** Projections of a vault that is given field by field. *)
Ltac vault_simpl :=
  cbn [fs prepared_image_records instance_image_records in_progress_image_fetches
       thread_pool trace set_fs set_prepared set_instances set_in_progress
       set_thread_pool set_trace vault calls] in *.

Section one_image_invariant.
Context `{Collaborators}.
Variables (v0 : Vault) (remote id : string).

Lemma vault_inv_set_trace phase (v : Vault) events :
  image_downloads events = 0%nat →
  vault_inv v0 remote id phase v →
  vault_inv v0 remote id phase (set_trace (λ t, t ++ events) v).
Proof.
  intros Hnone. destruct v as [disk prepared instances in_progress pool events0].
  assert (image_downloads (events0 ++ events) = image_downloads events0) as Hsame.
  { rewrite image_downloads_app, Hnone. lia. }
  destruct phase; unfold vault_inv, others_unchanged, instances_copied; vault_simpl;
    rewrite Hsame; tauto.
Qed.

Lemma call_inv_transport phase phase' disk disk' j spec c :
  call_inv id phase disk j spec c →
  fs_grows disk disk' →
  (phase ≠ Cold → phase' ≠ Cold) →
  (phase_starter phase = Some j → phase_starter phase' = Some j) →
  (∀ image, phase_image phase = Some image → phase_image phase' = Some image) →
  call_inv id phase' disk' j spec c.
Proof.
  intros Hc Hgrows Hcold Hstarter Himage. destruct c; cbn [call_inv] in *.
  - done.
  - done.
  - destruct Hc as (? & ? & ? & ?). auto.
  - destruct Hc as (? & ? & ? & ?). auto.
  - destruct Hc as (image & ? & ? & ?). exists image. split_and!; [auto|done|].
    by eapply present_grows.
Qed.

(** The vault after a prepared image was copied for an instance. *)
Lemma vault_inv_finalized phase prepared_image query now (v v' : Vault) :
  phase_image phase = Some prepared_image →
  vault_inv v0 remote id phase v →
  keeps_fetch_state v v' →
  same_downloads v v' →
  disk_grows v v' →
  instance_image_records v'
  = <[Query.name query :=
        VaultRecord.mk (instance_copy (Query.name query) prepared_image) query now]>
      (instance_image_records v) →
  present (instance_copy (Query.name query) prepared_image) (fs v') →
  vault_inv v0 remote id phase v'.
Proof.
  intros Himage Hv (Hprep & Hprog & Hpool & _) Hsame Hgrows Hinstances Hpresent.
  unfold same_downloads in Hsame. unfold disk_grows in Hgrows.
  assert (instances_copied v0 prepared_image v → instances_copied v0 prepared_image v')
    as Hcopied.
  { intros Hold name record. rewrite Hinstances.
    intros [[<- <-]|[_ Hname]]%lookup_insert_Some; [by right|].
    destruct (Hold _ _ Hname) as [?|[? ?]]; [by left|right].
    split; [done|]. by eapply present_grows. }
  assert (others_unchanged v0 id v → others_unchanged v0 id v') as Hothers.
  { intros Hold key Hkey. rewrite Hprep. by apply Hold. }
  destruct phase; cbn [phase_image vault_inv] in *; simplify_eq.
  - destruct Hv as (? & ? & ? & ? & ? & ?).
    split_and!; [by eapply stored_grows|congruence..|auto|auto].
  - destruct Hv as (? & ? & ? & ? & ? & ? & ?).
    split_and!; [by eapply stored_grows|congruence..|auto|auto|]. by rewrite Hprep.
Qed.

Lemma vault_inv_touch phase prepared_image now (v : Vault) :
  phase_image phase = Some prepared_image →
  vault_inv v0 remote id phase v →
  vault_inv v0 remote id phase (touch_prepared id now v).2.
Proof.
  intros Himage Hv. unfold touch_prepared. rewrite modify_eq. cbn [snd].
  destruct v as [disk prepared instances in_progress pool events].
  assert (others_unchanged v0 id (mkVault disk prepared instances in_progress pool events) →
          others_unchanged v0 id
            (set_prepared
               (λ records,
                  <[id := VaultRecord.mk
                            (VaultRecord.image
                               (default (VaultRecord.mk VMImage.empty
                                  (Query.mk EmptyString EmptyString false EmptyString
                                            Query.Alias) 0) (records !! id)))
                            (VaultRecord.query
                               (default (VaultRecord.mk VMImage.empty
                                  (Query.mk EmptyString EmptyString false EmptyString
                                            Query.Alias) 0) (records !! id)))
                            now]> records)
               (mkVault disk prepared instances in_progress pool events))) as Hothers.
  { intros Hold key Hkey. cbn. rewrite lookup_insert_ne by done. by apply Hold. }
  destruct phase; cbn [phase_image vault_inv] in *; simplify_eq.
  - destruct Hv as (? & ? & ? & ? & ? & ?). by split_and!; auto.
  - destruct Hv as (? & ? & ? & ? & ? & ? & record & Hrecord & ? & ?).
    split_and!; auto. cbn in *. rewrite Hrecord. cbn. rewrite lookup_insert_eq.
    by eexists.
Qed.

Lemma touch_prepared_frames now (v : Vault) :
  fs (touch_prepared id now v).2 = fs v
  ∧ instance_image_records (touch_prepared id now v).2 = instance_image_records v.
Proof. by destruct v. Qed.

(** A call that joined the fetch, after the future has returned the
    prepared image. *)
Lemma fetch_alias_joined_stored phase prepared_image query now (v : Vault) :
  phase_image phase = Some prepared_image →
  vault_inv v0 remote id phase v →
  stored prepared_image (fs v) →
  Query.name query ≠ EmptyString →
  ∃ v', fetch_alias_joined query id prepared_image now v
        = (Ok (instance_copy (Query.name query) prepared_image), v')
    ∧ vault_inv v0 remote id phase v'
    ∧ fs_grows (fs v) (fs v')
    ∧ present (instance_copy (Query.name query) prepared_image) (fs v').
Proof.
  intros Himage Hv Hstored Hname. unfold fetch_alias_joined. rewrite bind_eq.
  pose proof (vault_inv_touch phase prepared_image now v Himage Hv) as Htouched.
  destruct (touch_prepared_frames now v) as [Hfs Hinstances].
  destruct (touch_prepared id now v) as [[] v1] eqn:Htouch. cbn [snd] in *.
  { destruct (finalize_image_records_stored query prepared_image now v1)
      as (v' & Hfinal & Hkeeps & Hsame & Hgrows & Hinst & Hpresent); [done|by rewrite Hfs|].
    exists v'. split; [done|]. split_and!.
    - by eapply vault_inv_finalized.
    - unfold disk_grows in Hgrows. by rewrite <- Hfs.
    - done. }
  unfold touch_prepared in Htouch. by rewrite modify_eq in Htouch.
Qed.

Lemma find_prepared_hit records query now (v : Vault) record :
  Query.name query ≠ EmptyString →
  stored (VaultRecord.image record) (fs v) →
  Query.remote_name (VaultRecord.query record) = Query.remote_name query →
  (id, record) ∈ records →
  (∀ key r, (key, r) ∈ records → key = id → r = record) →
  (∀ key r, (key, r) ∈ records → key ≠ id → ¬ serves query id key r) →
  find_prepared records query id now v
  = (Ok (Some (instance_copy (Query.name query) (VaultRecord.image record))),
     (fetch_alias_joined query id (VaultRecord.image record) now v).2).
Proof.
  intros Hname Hstored Hremote Hin Hid Hothers.
  induction records as [|[key r] rest IH]; [by apply elem_of_nil in Hin|].
  cbn [find_prepared]. destruct (decide (key = id)) as [->|Hkey].
  - assert (r = record) as -> by (eapply Hid; [apply elem_of_cons; by left|done]).
    rewrite decide_False by (by intros []). rewrite bool_decide_eq_true_2 by done.
    cbn [orb]. unfold try_catch, fetch_alias_joined. rewrite !bind_eq.
    destruct (touch_prepared_frames now v) as [Hfs _].
    destruct (touch_prepared id now v) as [[[]|e] v1] eqn:Htouch; cbn [snd] in *.
    + destruct (finalize_image_records_stored query (VaultRecord.image record) now v1)
        as (v' & Hfinal & _); [done|by rewrite Hfs|]. by rewrite bind_eq, Hfinal.
    + unfold touch_prepared in Htouch. by rewrite modify_eq in Htouch.
  - assert (¬ serves query id key r) as Hmiss.
    { eapply Hothers; [apply elem_of_cons; by left|done]. }
    assert (find_prepared rest query id now v
            = (Ok (Some (instance_copy (Query.name query) (VaultRecord.image record))),
               (fetch_alias_joined query id (VaultRecord.image record) now v).2)) as Hrest.
    { apply IH.
      - apply elem_of_cons in Hin as [?|?]; [by simplify_eq|done].
      - intros k r' ?. apply Hid, elem_of_cons. by right.
      - intros k r' ?. apply Hothers, elem_of_cons. by right. }
    destruct (decide _) as [|Hsame]; [done|].
    destruct (bool_decide (id = key) || bool_decide _) eqn:Htest; [|done].
    exfalso. apply Hmiss. split.
    + by destruct (decide (Query.remote_name (VaultRecord.query r)
                           = Query.remote_name query)).
    + apply orb_true_iff in Htest as [?%bool_decide_eq_true|?%bool_decide_eq_true]; auto.
Qed.

End one_image_invariant.

Section one_image_steps.
Context `{Collaborators}.
Variables (v0 : Vault) (remote id : string) (specs : list CallSpec).
Hypothesis Hadmissible : Forall (admissible v0 remote id) specs.

Lemma fetch_inv_caller phase phase' (v v' : Vault) cs i spec c c' :
  specs !! i = Some spec →
  cs !! i = Some c →
  length cs = length specs →
  (∀ j spec c, specs !! j = Some spec → cs !! j = Some c →
     call_inv id phase (fs v) j spec c) →
  vault_inv v0 remote id phase' v' →
  call_inv id phase' (fs v') i spec c' →
  (∀ j spec c, j ≠ i → call_inv id phase (fs v) j spec c →
     call_inv id phase' (fs v') j spec c) →
  (∀ starter, phase_starter phase' = Some starter →
     ∃ query source_path,
       <[i := c']> cs !! starter = Some (Fetching query id 0%nat source_path)) →
  fetch_inv v0 remote id specs (mkSystem v' (<[i := c']> cs)).
Proof.
  intros Hspec Hc Hlen Hcalls Hv' Hc' Hothers Hstarter. exists phase'.
  vault_simpl. split_and!; [done|by rewrite length_insert| |done].
  intros j spec' c'' Hspec' [(-> & <- & _)|[Hne Hj]]%list_lookup_insert_Some.
  - by simplify_eq.
  - apply Hothers; [done|]. by apply Hcalls.
Qed.

(** A step of a call that is not the one that started the fetch, within
    a phase: the disk only grows. *)
Lemma fetch_inv_same_phase phase (v v' : Vault) cs i spec c c' :
  specs !! i = Some spec →
  cs !! i = Some c →
  length cs = length specs →
  (∀ j spec c, specs !! j = Some spec → cs !! j = Some c →
     call_inv id phase (fs v) j spec c) →
  (∀ starter, phase_starter phase = Some starter →
     ∃ query source_path, cs !! starter = Some (Fetching query id 0%nat source_path)) →
  (∀ query id' future source_path, c ≠ Fetching query id' future source_path) →
  vault_inv v0 remote id phase v' →
  fs_grows (fs v) (fs v') →
  call_inv id phase (fs v') i spec c' →
  fetch_inv v0 remote id specs (mkSystem v' (<[i := c']> cs)).
Proof.
  intros Hspec Hc Hlen Hcalls Hstarter Hnot Hv' Hgrows Hc'.
  eapply fetch_inv_caller; [done..| |].
  - intros j spec' c'' _ Hj. by eapply call_inv_transport.
  - intros starter Hs. destruct (Hstarter _ Hs) as (query & path & Hfetching).
    exists query, path. rewrite list_lookup_insert_ne; [done|].
    intros <-. simplify_eq. by eapply Hnot.
Qed.

Lemma admissible_lookup i spec : specs !! i = Some spec → admissible v0 remote id spec.
Proof. intros Hspec. by eapply Forall_lookup_1 in Hadmissible. Qed.

Lemma admissible_id spec :
  admissible v0 remote id spec → VMImageInfo.id (spec_info spec) = id.
Proof. by intros (_ & _ & _ & _ & _ & _ & ? & _). Qed.

Lemma admissible_remote spec :
  admissible v0 remote id spec → Query.remote_name (spec_query spec) = remote.
Proof. by intros (_ & ? & _). Qed.

Lemma fetch_inv_exec m sys sys' :
  exec m sys = Some sys' →
  fetch_inv v0 remote id specs sys →
  fetch_inv v0 remote id specs sys'.
Proof.
  destruct sys as [v cs]. intros Hexec (phase & Hv & Hlen & Hcalls & Hstarter).
  vault_simpl. destruct m as [i now|future]; cbn [exec vault calls] in Hexec.
  - destruct (cs !! i) as [c|] eqn:Hi; [|done]. cbn [mbind option_bind] in Hexec.
    destruct (step_call now c v) as [[c' v']|] eqn:Hstep; [|done].
    cbn [mbind option_bind] in Hexec. simplify_eq.
    assert (is_Some (specs !! i)) as [spec Hspec].
    { apply lookup_lt_is_Some. rewrite <- Hlen. by eapply lookup_lt_Some. }
    pose proof (admissible_lookup _ _ Hspec) as Hadm.
    pose proof Hadm as (Halias & _ & Hname & Hfresh & Hcold & Hresolve & _ & Htask).
    pose proof (Hcalls _ _ _ Hspec Hi) as Hc.
    destruct c as [fetch_type query prepare|fetch_type query prepare info|query id' future
                  |query id' future source_path|r];
      cbn [step_call call_inv] in Hstep, Hc.
    + (* the lookups before the mutex *)
      destruct Hc as (-> & -> & ->).
      destruct (instance_image_records v !! Query.name (spec_query spec))
        as [record|] eqn:Hrecord.
      * simplify_eq.
        assert (∃ image, phase_image phase = Some image
                  ∧ VaultRecord.image record
                    = instance_copy (Query.name (spec_query spec)) image
                  ∧ present (VaultRecord.image record) (fs v')) as (image & ? & Heq & ?).
        { destruct phase; cbn [vault_inv] in Hv.
          - destruct Hv as (_ & _ & Hinst & _). congruence.
          - destruct Hv as (_ & _ & Hinst & _). congruence.
          - destruct Hv as (_ & _ & _ & _ & _ & Hcopied).
            destruct (Hcopied _ _ Hrecord) as [?|[? ?]]; [congruence|]. by eexists.
          - destruct Hv as (_ & _ & _ & _ & _ & Hcopied & _).
            destruct (Hcopied _ _ Hrecord) as [?|[? ?]]; [congruence|]. by eexists. }
        eapply fetch_inv_same_phase; [done..|].
        cbn [call_inv]. exists image. rewrite <- Heq. by split_and!.
      * rewrite decide_False in Hstep by (by intros []).
        destruct (resolve_alias_eq _ _ _ Hresolve) as (events & Hnone & Heq).
        rewrite Heq in Hstep. simplify_eq.
        eapply fetch_inv_same_phase; [done..|by apply vault_inv_set_trace|by destruct v|done].
    + (* the first critical section *)
      destruct Hc as (-> & -> & -> & ->).
      destruct phase as [|starter spec'|starter image|image]; cbn [vault_inv] in Hv.
      * destruct Hv as (Hfs & Hprep & Hinst & Hprog & Hpool & Hdown).
        destruct (fetch_alias_locked_cold (spec_fetch_type spec) (spec_query spec)
                    (spec_prepare spec) (spec_info spec) now v) as (path & Hlocked).
        { by rewrite (admissible_id _ Hadm). }
        { intros key record. rewrite Hprep, (admissible_id _ Hadm). apply Hcold. }
        rewrite Hlocked, Hpool, (admissible_id _ Hadm) in Hstep. cbn in Hstep. simplify_eq.
        eapply (fetch_inv_caller Cold (InFlight i spec)); [done..| | | |].
        -- destruct v. vault_simpl. subst. cbn [vault_inv]. vault_simpl.
           split_and!; [done..|by rewrite lookup_insert_eq|done|done|].
           by eapply admissible_lookup.
        -- by cbn.
        -- intros j spec' c _ Hc. destruct c; cbn [call_inv] in *; try done.
           ++ by destruct Hc as (_ & _ & _ & ?).
           ++ by destruct Hc as (_ & _ & _ & ?).
           ++ by destruct Hc as (? & ? & _).
        -- intros s [= <-]. do 2 eexists. apply list_lookup_insert_eq.
           by eapply lookup_lt_Some.
      * pose proof Hv as (? & ? & ? & Hprog & ?).
        rewrite (fetch_alias_locked_wait _ _ _ _ _ _ 0%nat) in Hstep
          by by rewrite (admissible_id _ Hadm).
        rewrite (admissible_id _ Hadm) in Hstep. simplify_eq.
        eapply fetch_inv_same_phase; [done..| |by destruct v|by cbn].
        by apply vault_inv_set_trace.
      * pose proof Hv as (? & ? & Hprog & ?).
        rewrite (fetch_alias_locked_wait _ _ _ _ _ _ 0%nat) in Hstep
          by by rewrite (admissible_id _ Hadm).
        rewrite (admissible_id _ Hadm) in Hstep. simplify_eq.
        eapply fetch_inv_same_phase; [done..| |by destruct v|by cbn].
        by apply vault_inv_set_trace.
      * pose proof Hv as (Hstored & Hpool & Hprog & Hdown & Hothers & Hcopied
                          & record & Hrecord & <- & Hrem).
        destruct (fetch_alias_joined_stored v0 remote id (Cached (VaultRecord.image record))
                    (VaultRecord.image record) (spec_query spec) now v)
          as (v1 & Hjoined & Hv1 & Hgrows & Hpresent); [done..|].
        assert (fetch_alias_locked (spec_fetch_type spec) (spec_query spec)
                  (spec_prepare spec) (spec_info spec) now v
                = (Ok (Hit (instance_copy (Query.name (spec_query spec))
                              (VaultRecord.image record))), v1)) as Hlocked.
        { unfold fetch_alias_locked. rewrite bind_eq, gets_eq. cbn beta iota.
          rewrite (admissible_id _ Hadm), Hprog, bind_eq, decide_True by done.
          rewrite bind_eq, gets_eq. cbn beta iota.
          rewrite (find_prepared_hit id _ _ _ _ record); [by rewrite Hjoined|done|done|..].
          - rewrite Hrem. symmetry. by apply admissible_remote.
          - by apply elem_of_map_to_list.
          - intros key r Hin%elem_of_map_to_list ->. congruence.
          - intros key r Hin%elem_of_map_to_list Hkey. apply Hcold.
            by rewrite <- Hothers. }
        clear Hrem. rewrite Hlocked in Hstep. simplify_eq.
        eapply fetch_inv_same_phase; [done..|].
        cbn [call_inv phase_image]. eexists. by split_and!.
    + (* a call that joined the fetch *)
      destruct Hc as (-> & -> & -> & Hphase).
      destruct phase as [|starter spec'|starter image|image]; cbn [vault_inv] in Hv.
      * done.
      * destruct Hv as (_ & _ & _ & _ & Hpool & _). by rewrite Hpool in Hstep.
      * pose proof Hv as (Hstored & Hpool & _). rewrite Hpool in Hstep. cbn in Hstep.
        destruct (fetch_alias_joined_stored v0 remote id (Landed starter image) image
                    (spec_query spec) now v)
          as (v1 & Hjoined & Hv1 & Hgrows & Hpresent); [done..|].
        rewrite Hjoined in Hstep. simplify_eq.
        eapply fetch_inv_same_phase; [done..|].
        cbn [call_inv phase_image]. eexists. by split_and!.
      * pose proof Hv as (Hstored & Hpool & _). rewrite Hpool in Hstep. cbn in Hstep.
        destruct (fetch_alias_joined_stored v0 remote id (Cached image) image
                    (spec_query spec) now v)
          as (v1 & Hjoined & Hv1 & Hgrows & Hpresent); [done..|].
        rewrite Hjoined in Hstep. simplify_eq.
        eapply fetch_inv_same_phase; [done..|].
        cbn [call_inv phase_image]. eexists. by split_and!.
    + (* the call that started the fetch *)
      destruct Hc as (-> & -> & -> & Hphase).
      destruct phase as [|starter spec'|starter image|image]; cbn [vault_inv phase_starter]
        in Hv, Hphase; simplify_eq.
      * destruct Hv as (_ & _ & _ & _ & Hpool & _). by rewrite Hpool in Hstep.
      * destruct Hv as (Hstored & Hpool & Hprog & Hdown & Hothers & Hcopied).
        rewrite Hpool in Hstep. cbn [lookup list_lookup] in Hstep.
        unfold DeleteOnException, take_result in Hstep.
        rewrite !bind_eq, gets_eq in Hstep. cbn beta iota in Hstep.
        rewrite Hpool in Hstep. cbn [lookup list_lookup] in Hstep.
        rewrite mret_eq in Hstep. unfold fetch_alias_finish in Hstep.
        rewrite bind_eq, modify_eq, bind_eq in Hstep.
        set (v1 := set_prepared _ v) in Hstep.
        destruct (finalize_image_records_stored (spec_query spec) image now v1)
          as (v2 & Hfinal & (Hprep2 & Hprog2 & Hpool2 & _) & Hsame & Hgrows & Hinst & Hpresent);
          [done|by destruct v|].
        rewrite Hfinal, bind_eq, modify_eq, mret_eq in Hstep. simplify_eq.
        unfold same_downloads, disk_grows in *.
        eapply (fetch_inv_caller (Landed i image) (Cached image)); [done..| | | |].
        -- subst v1. destruct v, v2. vault_simpl. subst. cbn [vault_inv].
           split_and!; vault_simpl.
           ++ by eapply stored_grows.
           ++ done.
           ++ apply lookup_delete_eq.
           ++ congruence.
           ++ intros key Hkey. vault_simpl. rewrite lookup_insert_ne by done.
              by apply Hothers.
           ++ intros name record. vault_simpl.
              intros [[<- <-]|[_ Hold]]%lookup_insert_Some; [by right|].
              destruct (Hcopied _ _ Hold) as [?|[? ?]]; [by left|right].
              split; [done|]. by eapply present_grows.
           ++ eexists. rewrite lookup_insert_eq. split_and!; [done..|].
              by apply admissible_remote.
        -- cbn [call_inv phase_image]. eexists. split_and!; [done..|].
           by destruct v2.
        -- intros j spec' c Hne Hc. eapply call_inv_transport; [exact Hc| |done| |done].
           ++ subst v1. destruct v, v2. by vault_simpl.
           ++ cbn. intros; simplify_eq.
        -- done.
    + done.
  - (* a worker runs the future *)
    destruct (thread_pool v !! future) as [[task|result]|] eqn:Hfuture; [|done..].
    simplify_eq. destruct phase as [|starter spec|starter image|image];
      cbn [vault_inv] in Hv.
    + destruct Hv as (_ & _ & _ & _ & Hpool & _). by rewrite Hpool in Hfuture.
    + destruct Hv as (Hfs & Hprep & Hinst & Hprog & Hpool & Hdown & Hadm).
      rewrite Hpool in Hfuture. destruct future; [|done]. cbn in Hfuture. simplify_eq.
      destruct Hadm as (_ & _ & _ & _ & _ & _ & _ & Htask).
      destruct (Htask v Hfs) as (image & v1 & Hbody & Hstored).
      pose proof (fetch_task_body_disk_only
                    (fetch_task (spec_fetch_type spec) (spec_prepare spec) (spec_info spec)) v)
        as (Hprep1 & Hinst1 & Hprog1 & Hpool1 & _).
      pose proof (fetch_task_body_downloads
                    (fetch_task (spec_fetch_type spec) (spec_prepare spec) (spec_info spec)) v)
        as Hdown1.
      unfold run_future. rewrite Hpool. cbn [lookup list_lookup].
      rewrite Hbody in *. cbn [snd] in *.
      exists (Landed starter image). vault_simpl. split_and!.
      * destruct v1. vault_simpl. cbn [vault_inv]. vault_simpl. subst.
        rewrite Hpool. split_and!; [done..|congruence| |].
        -- intros key _. vault_simpl. congruence.
        -- intros name record. vault_simpl. rewrite Hinst. by left.
      * done.
      * intros j spec' c Hspec' Hj. specialize (Hcalls _ _ _ Hspec' Hj).
        destruct c; cbn [call_inv] in *; try done.
        -- by destruct Hcalls as (? & ? & ? & _).
        -- destruct Hcalls as (? & Himage & _). by cbn in Himage.
      * done.
    + destruct Hv as (_ & Hpool & _). rewrite Hpool in Hfuture.
      by destruct future as [|[]].
    + destruct Hv as (_ & Hpool & _). rewrite Hpool in Hfuture.
      by destruct future as [|[]].
Qed.

Lemma fetch_inv_run schedule sys sys' :
  run schedule sys = Some sys' →
  fetch_inv v0 remote id specs sys →
  fetch_inv v0 remote id specs sys'.
Proof.
  revert sys. induction schedule as [|m rest IH]; intros sys Hrun Hinv.
  { cbn in Hrun. by simplify_eq. }
  cbn [run] in Hrun. destruct (exec m sys) as [sys1|] eqn:Hexec; [|done].
  cbn in Hrun. eapply IH; [done|]. by eapply fetch_inv_exec.
Qed.

End one_image_steps.

(** ** Reading a computed run

    The result of a run is read off through a projection, so that only the
    projected value is computed. *)

Lemma run_result {A} (o : option A) (Q : A → Prop) :
  match o with Some _ => true | None => false end = true →
  (∀ a, o = Some a → Q a) →
  ∃ a, o = Some a ∧ Q a.
Proof. destruct o as [a|]; [|done]. intros _ HQ. exists a. split; [done|]. by apply HQ. Defined.

Lemma run_result_proj {A B} (o : option A) (a : A) (f : A → B) (b : B) :
  o = Some a → f <$> o = Some b → f a = b.
Proof. intros ->. cbn. congruence. Defined.

Lemma run_result_holds {A} (o : option A) (a : A) (P : A → Prop) :
  o = Some a → from_option P True o → P a.
Proof. by intros ->. Defined.

(** ** Concurrent calls for one image: the result *)

Section one_image_result.
Context `{Collaborators}.


End one_image_result.


(** The two launches of bionic are admissible on a fresh vault. *)
Lemma bionic_launch_admissible name :
  name ≠ EmptyString →
  @admissible (mock_collaborators "abcd") fresh_vault "release" "abcd"
    (mkCallSpec ImageOnly (bionic_query name) identity_prepare bionic_info).
Proof.
  intros Hname. unfold admissible. cbn [spec_query spec_info spec_fetch_type spec_prepare].
  split_and!.
  - reflexivity.
  - reflexivity.
  - exact Hname.
  - apply lookup_empty.
  - intros key record Hrecord. unfold fresh_vault in Hrecord.
    cbn [prepared_image_records] in Hrecord. by rewrite lookup_empty in Hrecord.
  - by vm_compute.
  - reflexivity.
  - intros [disk prepared instances in_progress pool events] Hfs. cbn [fs] in Hfs. subst disk.
    eexists _, _. split; [by vm_compute|]. vm_compute.
    split_and!; [right; by eexists|by left|by left].
Qed.


(** ** The catalog loader, entry by entry *)

Section loader.

Lemma load_record_malformed now value :
  load_record now value = None ↔ malformed value.
Proof.
  unfold load_record, malformed, QJson.isEmpty. cbv zeta.
  repeat (case_bool_decide; [split; [tauto|done]|]).
  destruct (QJson.toString _) eqn:Hpath.
  2:{ split; [intros _; do 2 right; by left|done]. }
  case_bool_decide; [split; [tauto|done]|].
  destruct (QJson.isBool _) eqn:Hbool; cbn [negb].
  2:{ split; [intros _; do 4 right; done|done]. }
  split; [done|]. intros [?|[?|[?|[?|?]]]]; congruence.
Qed.

(** X1: one entry of the catalog file at which the loop of [load_db]
    returns early makes the whole catalog load as empty, whatever the other
    entries are. *)
Theorem load_db_malformed_entry now path disk doc key value :
  files disk !! path = Some (JsonDoc (JObject doc)) →
  doc !! key = Some value →
  malformed value →
  load_db now path disk = ∅.
Proof.
  intros Hfile Hvalue Hmalformed. eapply load_db_malformed; [done|].
  apply Exists_exists. exists (key, value). split.
  - by apply elem_of_map_to_list.
  - by apply load_record_malformed.
Qed.


End loader.


(** X1 at a catalog file with the entry of vm1 and an entry whose
    [persistent] is not a boolean. *)
Lemma load_db_malformed_entry_witness :
  load_db 1546300900 "/db.json"
    (write_json
       (JObject {[ "vm1" := record_to_json vm1_record;
                   "vm2" := JObject {[ "image" := JObject {[ "path" := JString "/b.img" ]};
                                       "query" := JObject {[ "persistent" := JString "no" ]} ]} ]})
       "/db.json" empty_disk)
  = ∅.
Proof.
  apply (load_db_malformed_entry 1546300900 "/db.json" _
           {[ "vm1" := record_to_json vm1_record;
              "vm2" := JObject {[ "image" := JObject {[ "path" := JString "/b.img" ]};
                                  "query" := JObject {[ "persistent" := JString "no" ]} ]} ]}
           "vm2"
           (JObject {[ "image" := JObject {[ "path" := JString "/b.img" ]};
                       "query" := JObject {[ "persistent" := JString "no" ]} ]})).
  - by vm_compute.
  - by vm_compute.
  - apply (load_record_malformed 1546300900). by vm_compute.
Defined.

(** ** Image hosts and remotes *)

Section hosts.
Context `{Collaborators}.

Lemma foldl_insert_remotes (image_host : VMImageHost) remotes
    (m : gmap string VMImageHost) remote :
  foldl (λ m remote, <[remote := image_host]> m) m remotes !! remote
  = if decide (remote ∈ remotes) then Some image_host else m !! remote.
Proof.
  revert m. induction remotes as [|r remotes IH]; intros m; cbn [foldl].
  - by rewrite decide_False by apply not_elem_of_nil.
  - rewrite IH. destruct (decide (remote ∈ remotes)) as [Hin|Hnotin].
    + rewrite decide_True; [done|]. by apply elem_of_cons; right.
    + destruct (decide (remote = r)) as [->|Hne].
      * rewrite lookup_insert_eq. rewrite decide_True; [done|]. by apply elem_of_cons; left.
      * rewrite lookup_insert_ne by done. rewrite decide_False; [done|].
        intros [?|?]%elem_of_cons; done.
Qed.

Lemma foldl_hosts_lookup hosts (m : gmap string VMImageHost) remote :
  foldl (λ m image_host,
           foldl (λ m remote, <[remote := image_host]> m) m (supported_remotes image_host))
        m hosts !! remote
  = match last (filter (λ image_host, remote ∈ supported_remotes image_host) hosts) with
    | Some image_host => Some image_host
    | None => m !! remote
    end.
Proof.
  revert m. induction hosts as [|image_host hosts IH]; intros m; cbn [foldl]; [done|].
  rewrite IH, filter_cons.
  destruct (decide (remote ∈ supported_remotes image_host)) as [Hin|Hnotin].
  - rewrite last_cons.
    destruct (last (filter _ hosts)); [done|].
    rewrite foldl_insert_remotes. by rewrite decide_True.
  - destruct (last (filter _ hosts)); [done|].
    rewrite foldl_insert_remotes. by rewrite decide_False.
Qed.

Lemma remote_image_host_map_lookup remote :
  remote_image_host_map !! remote = last (hosts_of_remote remote).
Proof.
  unfold remote_image_host_map, hosts_of_remote. rewrite foldl_hosts_lookup.
  by destruct (last _).
Qed.

(** X3: a query that names a remote is answered by one host only, the
    last host of the constructor's list that serves the remote: its answer
    is returned, and when it has none [info_for] throws without asking any
    other host. When no host serves the remote, [info_for] throws without
    asking a host at all. *)
Theorem info_for_named_remote query (v : Vault) :
  Query.remote_name query ≠ EmptyString →
  info_for query v
  = match last (hosts_of_remote (Query.remote_name query)) with
    | Some image_host =>
      (match host_info_for image_host query with
       | Some info => Ok info
       | None => Throw (no_image_matching query)
       end,
       set_trace (λ t, t ++ [EvInfoFor query]) v)
    | None =>
      (Throw (runtime_error ("Remote " +:+ dquote +:+ Query.remote_name query +:+ dquote
                             +:+ " is unknown.")), v)
    end.
Proof.
  intros Hremote. unfold info_for. rewrite decide_True by done.
  rewrite remote_image_host_map_lookup.
  destruct (last _) as [image_host|]; [|done].
  rewrite bind_eq, emit_eq. by destruct (host_info_for image_host query).
Qed.

Lemma info_for_any_asked asked image_host rest query info (v : Vault) :
  Forall (λ h, host_info_for h query = None) asked →
  host_info_for image_host query = Some info →
  info_for_any (asked ++ image_host :: rest) query v
  = (Ok info, set_trace (λ t, t ++ replicate (S (length asked)) (EvInfoFor query)) v).
Proof.
  intros Hasked Hinfo. revert v.
  induction Hasked as [|h asked Hh Hasked IH]; intros v; cbn [app info_for_any length].
  - rewrite bind_eq, emit_eq, Hinfo. done.
  - rewrite bind_eq, emit_eq, Hh, IH. f_equal.
    rewrite set_trace_app. done.
Qed.

Lemma info_for_any_nobody hosts query (v : Vault) :
  Forall (λ h, host_info_for h query = None) hosts →
  info_for_any hosts query v
  = (Throw (no_image_matching query),
     set_trace (λ t, t ++ replicate (length hosts) (EvInfoFor query)) v).
Proof.
  intros Hhosts. revert v.
  induction Hhosts as [|h hosts Hh Hhosts IH]; intros v; cbn [info_for_any length].
  - rewrite throw_eq. by rewrite set_trace_nil.
  - rewrite bind_eq, emit_eq, Hh, IH. f_equal.
    rewrite set_trace_app. done.
Qed.

(** X4: a query that names no remote is answered by the first host, in
    the order of the constructor's list, that has an image for it: the
    hosts before it are asked in turn, the hosts after it are not asked. *)
Theorem info_for_first_host asked image_host rest query info (v : Vault) :
  Query.remote_name query = EmptyString →
  image_hosts = asked ++ image_host :: rest →
  Forall (λ h, host_info_for h query = None) asked →
  host_info_for image_host query = Some info →
  info_for query v
  = (Ok info, set_trace (λ t, t ++ replicate (S (length asked)) (EvInfoFor query)) v).
Proof.
  intros Hremote Hhosts Hasked Hinfo. unfold info_for.
  rewrite decide_False by (by intros []).
  rewrite Hhosts. by apply info_for_any_asked.
Qed.

(** X5: when no remote is named and no host has an image for the query,
    every host is asked once and [info_for] throws. *)
Theorem info_for_no_host query (v : Vault) :
  Query.remote_name query = EmptyString →
  Forall (λ h, host_info_for h query = None) image_hosts →
  info_for query v
  = (Throw (no_image_matching query),
     set_trace (λ t, t ++ replicate (length image_hosts) (EvInfoFor query)) v).
Proof.
  intros Hremote Hhosts. unfold info_for.
  rewrite decide_False by (by intros []).
  by apply info_for_any_nobody.
Qed.

End hosts.

(** X3 at the remote [release] of the test double. *)
Lemma info_for_named_remote_witness :
  @info_for (mock_collaborators "abcd") (bionic_query "vm1") fresh_vault
  = (Ok bionic_info, set_trace (λ t, t ++ [EvInfoFor (bionic_query "vm1")]) fresh_vault).
Proof.
  rewrite (@info_for_named_remote (mock_collaborators "abcd") (bionic_query "vm1")
             fresh_vault); [|done].
  reflexivity.
Defined.

(** X4 at a query for bionic that names no remote. *)
Lemma info_for_first_host_witness :
  @info_for (mock_collaborators "abcd") (Query.mk "vm1" "bionic" false EmptyString Query.Alias)
    fresh_vault
  = (Ok bionic_info,
     set_trace (λ t, t ++ [EvInfoFor (Query.mk "vm1" "bionic" false EmptyString Query.Alias)])
       fresh_vault).
Proof.
  apply (@info_for_first_host (mock_collaborators "abcd") [] release_host []).
  - reflexivity.
  - reflexivity.
  - constructor.
  - reflexivity.
Defined.

(** X5 at a query for an alias the host of the test double does not know. *)
Lemma info_for_no_host_witness :
  (@info_for (mock_collaborators "abcd") (Query.mk "vm1" "xenial" false EmptyString Query.Alias)
     fresh_vault).1
  = Throw (@no_image_matching (mock_collaborators "abcd")
             (Query.mk "vm1" "xenial" false EmptyString Query.Alias)).
Proof.
  rewrite (@info_for_no_host (mock_collaborators "abcd")).
  - reflexivity.
  - reflexivity.
  - repeat constructor.
Defined.

(** ** Files of an image *)

Section image_files.
Context `{Collaborators}.

(** X6: [copy] of an existing regular file returns the path of the same
    file name inside the output directory; the file there holds the data of
    the source when nothing existed at that path, and is left as it was when
    something did. No other file changes, and nothing but the disk. *)
Theorem copy_never_overwrites file_name output_dir (v : Vault) data :
  file_name ≠ EmptyString →
  files (fs v) !! file_name = Some data →
  let new_path := QDir.filePath output_dir (QDir.fileName file_name) in
  ∃ v', copy file_name output_dir v = (Ok new_path, v')
    ∧ files (fs v') !! new_path
      = (if QDir.exists_ new_path (fs v) then files (fs v) !! new_path else Some data)
    ∧ (∀ path, path ≠ new_path → files (fs v') !! path = files (fs v) !! path)
    ∧ dirs (fs v') = dirs (fs v)
    ∧ disk_only v v'.
Proof.
  intros Hname Hfile new_path. unfold copy. rewrite decide_False by done.
  rewrite bind_eq, gets_eq.
  assert (QDir.exists_ file_name (fs v) = true) as ->.
  { unfold QDir.exists_. rewrite Hfile. by rewrite bool_decide_eq_true_2. }
  cbn [negb]. rewrite bind_eq, modify_eq, mret_eq. eexists. split; [done|].
  fold new_path. destruct v as [disk prepared instances in_progress pool events].
  cbn [fs set_fs] in *. unfold QFile.copy. rewrite Hfile.
  destruct (QDir.exists_ new_path disk) eqn:Hexists; cbn [files dirs].
  - split_and!; try done; by split_and!.
  - rewrite lookup_insert_eq. split_and!; try done.
    intros path Hpath. by rewrite lookup_insert_ne.
Qed.

(** X7: when the download of the kernel or of the initrd fails,
    [fetch_kernel_and_initrd] throws what the downloader threw and leaves
    neither the kernel file nor the initrd file on the disk, whatever part
    of them had been written; the catalogs are as before. *)
Theorem fetch_kernel_and_initrd_aborted info source_image image_dir (v : Vault)
    partial message :
  download (VMImageInfo.kernel_location info) = Aborted partial message
  ∨ (∃ data, download (VMImageInfo.kernel_location info) = Downloaded data)
    ∧ download (VMImageInfo.initrd_location info) = Aborted partial message →
  let kernel_path := QDir.filePath image_dir (filename_for (VMImageInfo.kernel_location info)) in
  let initrd_path := QDir.filePath image_dir (filename_for (VMImageInfo.initrd_location info)) in
  ∃ v', fetch_kernel_and_initrd info source_image image_dir v
        = (Throw (runtime_error message), v')
    ∧ files (fs v') !! kernel_path = None
    ∧ files (fs v') !! initrd_path = None
    ∧ disk_only v v'.
Proof.
  intros Hdownload kernel_path initrd_path.
  pose proof (fetch_kernel_and_initrd_disk_only info source_image image_dir v) as Hframe.
  unfold fetch_kernel_and_initrd in *. cbv zeta in *. fold kernel_path initrd_path in Hframe |- *.
  unfold DeleteOnException in *.
  assert (∃ v1,
    (download_to (VMImageInfo.kernel_location info) kernel_path (-1) KERNEL;;
     download_to (VMImageInfo.initrd_location info) initrd_path (-1) INITRD;;
     mret (set_kernel_and_initrd source_image kernel_path initrd_path)) v
    = (Throw (runtime_error message), v1)) as [v1 Hv1].
  { unfold download_to.
    destruct Hdownload as [Hkernel|[[data Hkernel] Hinitrd]].
    - rewrite Hkernel. run. rewrite emit_eq. run.
      destruct partial; run; eauto.
    - rewrite Hkernel, Hinitrd. run. rewrite emit_eq. run. rewrite emit_eq. run.
      destruct partial; run; eauto. }
  rewrite Hv1 in Hframe |- *. eexists. split; [done|].
  destruct v1 as [disk prepared instances in_progress pool events].
  cbn [fs set_fs QFile.remove files] in *.
  split_and!.
  - by rewrite lookup_delete_eq.
  - destruct (decide (kernel_path = initrd_path)) as [->|Hne].
    + by rewrite lookup_delete_eq.
    + rewrite lookup_delete_ne by done. by rewrite lookup_delete_eq.
  - exact Hframe.
Qed.

End image_files.

(** ** Suffixes and [QString::remove] *)

Section strings.

Lemma rev_app_spec s1 s2 : String.rev_app s1 s2 = String.rev s1 +:+ s2.
Proof.
  unfold String.rev. revert s2. induction s1 as [|a s1 IH]; intros s2; cbn; [done|].
  rewrite IH, (IH (String a EmptyString)), append_assoc. done.
Qed.

Lemma append_empty_r (s : string) : s +:+ EmptyString = s.
Proof. induction s as [|a s IH]; [done|]. by rewrite append_cons, IH. Qed.

Lemma rev_append s1 s2 : String.rev (s1 +:+ s2) = String.rev s2 +:+ String.rev s1.
Proof.
  induction s1 as [|a s1 IH].
  - by rewrite append_empty_r.
  - rewrite append_cons. unfold String.rev at 1 3. cbn [String.rev_app].
    rewrite !rev_app_spec, IH, append_assoc. done.
Qed.

Lemma rev_involutive (s : string) : String.rev (String.rev s) = s.
Proof.
  induction s as [|a s IH]; [done|].
  unfold String.rev at 2. cbn [String.rev_app]. rewrite rev_app_spec, rev_append, IH.
  done.
Qed.

Lemma endsWith_spec s p : QString.endsWith s p = true ↔ ∃ t, s = t +:+ p.
Proof.
  unfold QString.endsWith. rewrite startsWith_spec. split.
  - intros [t Ht]. exists (String.rev t).
    rewrite <- (rev_involutive s), Ht, rev_append, rev_involutive. done.
  - intros [t ->]. exists (String.rev t). by rewrite rev_append.
Qed.

Lemma length_append (s1 s2 : string) :
  String.length (s1 +:+ s2) = (String.length s1 + String.length s2)%nat.
Proof. induction s1 as [|a s1 IH]; [done|]. rewrite append_cons. cbn. by rewrite IH. Qed.

Lemma length_substring n m (s : string) :
  (String.length (String.substring n m s) ≤ String.length s - n)%nat.
Proof.
  revert n m. induction s as [|a s IH]; intros n m.
  - destruct n, m; cbn; lia.
  - destruct n as [|n].
    + destruct m as [|m]; cbn; [lia|]. specialize (IH 0%nat m). lia.
    + cbn. apply IH.
Qed.

Lemma length_remove_go fuel p (s : string) :
  (String.length (QString.remove_go fuel p s) ≤ String.length s)%nat.
Proof.
  revert s. induction fuel as [|fuel IH]; intros s; cbn [QString.remove_go]; [done|].
  destruct s as [|c s]; [done|].
  destruct (QString.startsWith _ p).
  - etrans; [apply IH|]. etrans; [apply length_substring|]. lia.
  - cbn. specialize (IH s). lia.
Qed.

(** A string in which [p] occurs gets shorter when the occurrences of [p]
    are removed. *)
Lemma length_remove_occurs (p a b : string) :
  p ≠ EmptyString →
  (String.length (QString.remove (a +:+ p +:+ b) p) < String.length (a +:+ p +:+ b))%nat.
Proof.
  intros Hp. unfold QString.remove. destruct p as [|c0 p0] eqn:Hp0; [done|].
  rewrite <- Hp0 in *. clear Hp0 c0 p0.
  assert (0 < String.length p)%nat as Hlen by (destruct p; [done|cbn; lia]).
  assert (∀ fuel a,
            String.length (a +:+ p +:+ b) < fuel →
            String.length (QString.remove_go fuel p (a +:+ p +:+ b))
            < String.length (a +:+ p +:+ b))%nat as Hgo; [|apply Hgo; lia].
  clear a. induction fuel as [|fuel IH]; intros a Hfuel; [lia|].
  cbn [QString.remove_go].
  destruct (a +:+ p +:+ b) as [|c s] eqn:Hs.
  { apply (f_equal String.length) in Hs. rewrite !length_append in Hs. cbn in Hs. lia. }
  destruct (QString.startsWith (String c s) p) eqn:Hstarts.
  - eapply Nat.le_lt_trans; [apply length_remove_go|].
    eapply Nat.le_lt_trans; [apply length_substring|]. cbn. lia.
  - destruct a as [|c' a].
    { exfalso. change (p +:+ b = String c s) in Hs. rewrite <- Hs in Hstarts.
      assert (QString.startsWith (p +:+ b) p = true) as Htrue
        by (apply startsWith_spec; by exists b).
      congruence. }
    rewrite append_cons in Hs. injection Hs as -> <-.
    cbn [String.length] in *. specialize (IH a). lia.
Qed.

Lemma remove_suffix_changes (s p : string) :
  p ≠ EmptyString → QString.endsWith s p = true → QString.remove s p ≠ s.
Proof.
  intros Hp [t ->]%endsWith_spec Heq.
  pose proof (length_remove_occurs p t EmptyString Hp) as Hlen.
  rewrite append_empty_r, Heq in Hlen. lia.
Qed.

End strings.

Section decoded_files.
Context `{Collaborators}.

(** X8: [extract_downloaded_image] of a stored file whose path ends in
    .xz, when the decoder succeeds: the image returned has the path with
    .xz removed, the decoded data is stored there, and the compressed file
    is gone. *)
Theorem extract_downloaded_image_replaces source_image (v : Vault) data decoded :
  QString.endsWith (VMImage.image_path source_image) ".xz" = true →
  files (fs v) !! VMImage.image_path source_image = Some data →
  xz_decode data = Some decoded →
  let image_path := QString.remove (VMImage.image_path source_image) ".xz" in
  ∃ v', extract_downloaded_image source_image v
        = (Ok (set_image_path source_image image_path), v')
    ∧ files (fs v') !! image_path = Some decoded
    ∧ files (fs v') !! VMImage.image_path source_image = None
    ∧ (∀ path, path ≠ image_path → path ≠ VMImage.image_path source_image →
         files (fs v') !! path = files (fs v) !! path)
    ∧ disk_only v v'.
Proof.
  intros Hxz Hfile Hdecode image_path.
  pose proof (extract_downloaded_image_disk_only source_image v) as Hframe.
  assert (image_path ≠ VMImage.image_path source_image) as Hne.
  { by apply remove_suffix_changes. }
  unfold extract_downloaded_image, decode_to, delete_file in *. fold image_path in Hframe |- *.
  revert Hframe. run. rewrite emit_eq. run.
  destruct v as [disk prepared instances in_progress pool events].
  cbn [fs set_fs set_trace] in *. rewrite Hfile, Hdecode. run.
  intros Hframe. eexists. split; [done|].
  cbn [fs set_fs set_trace QFile.remove QFile.write files] in *.
  split_and!.
  - rewrite lookup_delete_ne by done. by rewrite lookup_insert_eq.
  - by rewrite lookup_delete_eq.
  - intros path Hpath Hpath'. rewrite lookup_delete_ne by done.
    by rewrite lookup_insert_ne.
  - exact Hframe.
Qed.

End decoded_files.

(** X6 at the image of the local-file vault, copied for instance vm1. *)
Lemma copy_never_overwrites_witness :
  ∃ v', copy "/home/u/custom.img" "/data/vault/instances/vm1" vault_with_local_file
        = (Ok "/data/vault/instances/vm1/custom.img", v')
    ∧ files (fs v') !! "/data/vault/instances/vm1/custom.img" = Some (Blob "custom bytes").
Proof.
  destruct (copy_never_overwrites "/home/u/custom.img" "/data/vault/instances/vm1"
              vault_with_local_file (Blob "custom bytes"))
    as (v' & Hcopy & Hfile & _).
  - done.
  - by vm_compute.
  - exists v'. split; [exact Hcopy|]. etrans; [exact Hfile|]. by vm_compute.
Defined.

(** X7 at a downloader that breaks off in the initrd of bionic. *)
Lemma fetch_kernel_and_initrd_aborted_witness :
  ∃ v', @fetch_kernel_and_initrd (flaky_collaborators "http://h/b-initrd") bionic_info
          VMImage.empty "/cache/vault/images/bionic-20190101" fresh_vault
        = (Throw (runtime_error "Network timeout"), v')
    ∧ files (fs v') !! "/cache/vault/images/bionic-20190101/b-vmlinuz" = None
    ∧ files (fs v') !! "/cache/vault/images/bionic-20190101/b-initrd" = None.
Proof.
  destruct (@fetch_kernel_and_initrd_aborted (flaky_collaborators "http://h/b-initrd")
              bionic_info VMImage.empty "/cache/vault/images/bionic-20190101" fresh_vault
              (Some (Blob "partial bytes")) "Network timeout")
    as (v' & Hthrow & Hkernel & Hinitrd & _).
  - right. split; [by eexists|reflexivity].
  - exists v'. split_and!; [exact Hthrow|exact Hkernel|exact Hinitrd].
Defined.

(** X8 at the compressed image of [vault_with_xz]. *)
Lemma extract_downloaded_image_replaces_witness :
  ∃ v', @extract_downloaded_image (mock_collaborators "abcd")
          (set_image_path VMImage.empty "/cache/vault/images/x-20190101/x.img.xz")
          vault_with_xz
        = (Ok (set_image_path VMImage.empty "/cache/vault/images/x-20190101/x.img"), v')
    ∧ files (fs v') !! "/cache/vault/images/x-20190101/x.img" = Some (Blob "xz bytes")
    ∧ files (fs v') !! "/cache/vault/images/x-20190101/x.img.xz" = None.
Proof.
  destruct (@extract_downloaded_image_replaces (mock_collaborators "abcd")
              (set_image_path VMImage.empty "/cache/vault/images/x-20190101/x.img.xz")
              vault_with_xz (Blob "xz bytes") (Blob "xz bytes"))
    as (v' & Hextract & Hdecoded & Hgone & _).
  - by vm_compute.
  - by vm_compute.
  - reflexivity.
  - exists v'. split_and!; [exact Hextract|exact Hdecoded|exact Hgone].
Defined.

(** ** [fetch_image] for URLs and local files *)

Section custom_images.
Context `{Collaborators}.

(** X9: for a URL or a local file, when the platform supports neither, or
    when the local file does not exist, [fetch_image] throws and leaves the
    vault and the disk exactly as they were. *)
Theorem fetch_image_custom_rejected fetch_type query prepare now (v : Vault) :
  instance_image_records v !! Query.name query = None →
  Query.query_type query ≠ Query.Alias →
  is_image_url_supported = false
  ∨ (QUrl_isLocalFile (Query.release query) = true
     ∧ QDir.exists_ (QUrl_path (Query.release query)) (fs v) = false) →
  fetch_image fetch_type query prepare now v
  = (Throw (runtime_error
              (if is_image_url_supported
               then "Custom image `" +:+ QUrl_path (Query.release query) +:+ "` does not exist."
               else "http and file based images are not supported")), v).
Proof.
  intros Hnew Htype Hrejected. unfold fetch_image. rewrite bind_eq, gets_eq, Hnew.
  rewrite decide_True by done. unfold fetch_custom_image.
  destruct is_image_url_supported; cbn [negb]; [|done].
  destruct Hrejected as [?|[Hlocal Hmissing]]; [done|].
  rewrite Hlocal. unfold fetch_local_file. run. by rewrite Hmissing.
Qed.

(** X10: when the downloader breaks off while [fetch_image] downloads
    from a URL, the call throws what the downloader threw, the file it was
    downloading to is removed, and both catalogs are as before; so a stale
    cached image that was being refreshed loses its file but keeps its
    record. *)
Theorem fetch_image_http_aborted fetch_type query prepare now (v : Vault) partial message :
  instance_image_records v !! Query.name query = None →
  Query.query_type query ≠ Query.Alias →
  is_image_url_supported = true →
  QUrl_isLocalFile (Query.release query) = false →
  ¬ cached_unmodified query v →
  download (Query.release query) = Aborted partial message →
  ∃ v', fetch_image fetch_type query prepare now v = (Throw (runtime_error message), v')
    ∧ prepared_image_records v' = prepared_image_records v
    ∧ instance_image_records v' = instance_image_records v
    ∧ files (fs v') !! http_source_path query v = None
    ∧ trace v'
      = trace v ++ [EvLastModified (Query.release query);
                    EvDownloadTo (Query.release query) (http_source_path query v) 0 IMAGE].
Proof.
  intros Hnew Htype Hsupported Hremote Hstale Hdownload.
  unfold fetch_image. rewrite bind_eq, gets_eq, Hnew. rewrite decide_True by done.
  unfold fetch_custom_image. rewrite Hsupported, Hremote. cbn [negb].
  assert (∀ source_image (v1 : Vault),
    download_http_image fetch_type query prepare
      (sha256_hex (Blob (Query.release query))) (last_modified (Query.release query))
      source_image now v1
    = (Throw (runtime_error message),
       set_fs (QFile.remove (VMImage.image_path source_image))
         ((match partial with
           | Some data => set_fs (QFile.write (VMImage.image_path source_image) data)
           | None => id
           end)
            (set_trace (λ t, t ++ [EvDownloadTo (Query.release query)
                                     (VMImage.image_path source_image) 0 IMAGE]) v1))))
    as Hfails.
  { intros source_image v1. unfold download_http_image, DeleteOnException, download_to.
    rewrite Hdownload. run. rewrite emit_eq. run. by destruct partial; run. }
  unfold fetch_http_url, http_source_path. run. rewrite emit_eq. run.
  rewrite prepared_set_trace.
  destruct (prepared_image_records v !! sha256_hex (Blob (Query.release query)))
    as [record|] eqn:Hrecord.
  - destruct (isValid _ && bool_decide _) eqn:Hcached.
    { exfalso. apply Hstale. exists record.
      apply andb_true_iff in Hcached as [? ?%bool_decide_eq_true]. by split_and!. }
    run. rewrite Hfails. eexists. split; [done|].
    destruct v as [disk prepared instances in_progress pool events], partial;
      cbn; rewrite lookup_delete_eq, <- app_assoc; done.
  - run. unfold make_dir_in, make_dir. run. rewrite Hfails.
    eexists. split; [done|].
    destruct v as [disk prepared instances in_progress pool events], partial;
      cbn; rewrite lookup_delete_eq, <- app_assoc; done.
Qed.


End custom_images.

(** X9 at a local file that is not on the disk. *)
Lemma fetch_image_custom_rejected_witness :
  @fetch_image (mock_collaborators "abcd") ImageOnly local_query identity_prepare 1546300900
    fresh_vault
  = (Throw (runtime_error "Custom image `/home/u/custom.img` does not exist."), fresh_vault).
Proof.
  apply (@fetch_image_custom_rejected (mock_collaborators "abcd") ImageOnly local_query
           identity_prepare 1546300900 fresh_vault).
  - reflexivity.
  - done.
  - right. split; by vm_compute.
Defined.

(** X10 at a download of [url_query] that breaks off. *)
Lemma fetch_image_http_aborted_witness :
  ∃ v', @fetch_image (flaky_collaborators "http://h/x.img") ImageOnly url_query
          identity_prepare 1546300900 fresh_vault
        = (Throw (runtime_error "Network timeout"), v')
    ∧ files (fs v') !! "/cache/vault/images/x-20190101/x.img" = None.
Proof.
  destruct (@fetch_image_http_aborted (flaky_collaborators "http://h/x.img") ImageOnly
              url_query identity_prepare 1546300900 fresh_vault
              (Some (Blob "partial bytes")) "Network timeout")
    as (v' & Hthrow & _ & _ & Hgone & _).
  - reflexivity.
  - done.
  - reflexivity.
  - reflexivity.
  - intros (record & Hrecord & _). by vm_compute in Hrecord.
  - reflexivity.
  - exists v'. split; [exact Hthrow|exact Hgone].
Defined.


(** ** [fetch_image] for aliases, one call at a time *)

Section alias_images.
Context `{Collaborators}.

(** X12: an alias query whose remote or alias the platform does not
    support is refused after the image host has answered and before
    anything else happens: [fetch_image] throws, and the vault is as
    [info_for] left it. *)
Theorem fetch_image_alias_unsupported fetch_type query prepare now (v : Vault) info :
  instance_image_records v !! Query.name query = None →
  Query.query_type query = Query.Alias →
  (info_for query v).1 = Ok info →
  is_remote_supported (Query.remote_name query) = false
  ∨ is_alias_supported (Query.release query) (Query.remote_name query) = false →
  fetch_image fetch_type query prepare now v
  = (Throw (runtime_error
              (if is_remote_supported (Query.remote_name query)
               then Query.release query
                    +:+ " is not a supported alias. Please use `multipass find` for supported image aliases."
               else Query.remote_name query
                    +:+ " is not a supported remote. Please use `multipass find` for supported images.")),
     (info_for query v).2).
Proof.
  intros Hnew Htype Hinfo Hunsupported. unfold fetch_image.
  rewrite bind_eq, gets_eq, Hnew. rewrite decide_False by (by intros []).
  unfold fetch_alias_image, resolve_alias. rewrite !bind_eq.
  destruct (info_for query v) as [r v1]. cbn [fst snd] in *. subst r.
  destruct (is_remote_supported _); cbn [negb]; [|done].
  destruct Hunsupported as [?|Halias]; [done|]. by rewrite Halias.
Qed.

Lemma future_result_spawned task (v : Vault) :
  future_result (length (thread_pool v))
    (set_in_progress (<[task_id task := length (thread_pool v)]>)
       (set_thread_pool (λ pool, pool ++ [Running task]) v))
  = let '(r, v1) := fetch_task_body task
                      (set_in_progress (<[task_id task := length (thread_pool v)]>)
                         (set_thread_pool (λ pool, pool ++ [Running task]) v)) in
    (r, set_thread_pool (<[length (thread_pool v) := Finished r]>) v1).
Proof.
  unfold future_result. rewrite bind_eq. unfold run_future at 1.
  destruct v as [disk prepared instances in_progress pool events]. vault_simpl.
  rewrite lookup_app_r by done. rewrite Nat.sub_diag. cbn [lookup list_lookup].
  match goal with |- context [fetch_task_body task ?v0] =>
    pose proof (fetch_task_body_disk_only task v0) as Hframe;
    destruct (fetch_task_body task v0) as [r v1] end.
  destruct Hframe as (_ & _ & _ & Hpool & _). cbn [snd] in Hpool. vault_simpl.
  unfold take_result. rewrite bind_eq, gets_eq.
  destruct v1 as [disk1 prepared1 instances1 in_progress1 pool1 events1]. vault_simpl.
  subst pool1. rewrite list_lookup_insert_eq by (rewrite length_app; cbn; lia).
  by destruct r.
Qed.

(** The vault a cold alias fetch hands to the thread pool. *)
Lemma fetch_image_alias_cold_steps fetch_type query prepare now (v : Vault) info :
  instance_image_records v !! Query.name query = None →
  Query.query_type query = Query.Alias →
  (resolve_alias query v).1 = Ok info →
  in_progress_image_fetches v !! VMImageInfo.id info = None →
  (∀ key record, prepared_image_records v !! key = Some record →
     ¬ serves query (VMImageInfo.id info) key record) →
  ∃ events,
    image_downloads events = 0%nat
    ∧ fetch_image fetch_type query prepare now v
      = DeleteOnException
          (VMImage.image_path (task_source_image (fetch_task fetch_type prepare info)))
          (prepared_image ← future_result (length (thread_pool v));
           fetch_alias_finish query (VMImageInfo.id info) prepared_image now)
          (set_in_progress (<[VMImageInfo.id info := length (thread_pool v)]>)
             (set_thread_pool (λ pool, pool ++ [Running (fetch_task fetch_type prepare info)])
                (set_fs (QDir.mkpath (image_dir_of info))
                   (set_trace (λ t, t ++ events) v)))).
Proof.
  intros Hnew Htype Hinfo Hidle Hcold.
  destruct (resolve_alias_eq query info v Hinfo) as (events & Hevents & Hresolve).
  exists events. split; [done|].
  unfold fetch_image. rewrite bind_eq, gets_eq, Hnew. rewrite decide_False by (by intros []).
  unfold fetch_alias_image. rewrite bind_eq, Hresolve, bind_eq.
  destruct (fetch_alias_locked_cold fetch_type query prepare info now
              (set_trace (λ t, t ++ events) v)) as (source_path & Hlocked).
  { destruct v. exact Hidle. }
  { intros key record. destruct v. apply Hcold. }
  pose proof Hlocked as Hstarted.
  apply fetch_alias_locked_Started in Hstarted as (-> & _).
  rewrite Hlocked. by destruct v.
Qed.



(** X15: an alias fetch on a cold vault whose task fails: [fetch_image]
    throws the task's exception, the file it was downloading to is removed
    and the catalogs are as before, but the in-progress entry of the image
    id is left behind and names the failed future. *)
Theorem fetch_image_alias_failed fetch_type query prepare now (v : Vault) info e :
  instance_image_records v !! Query.name query = None →
  Query.query_type query = Query.Alias →
  (resolve_alias query v).1 = Ok info →
  in_progress_image_fetches v !! VMImageInfo.id info = None →
  (∀ key record, prepared_image_records v !! key = Some record →
     ¬ serves query (VMImageInfo.id info) key record) →
  task_fails fetch_type prepare info (fs v) e →
  ∃ v', fetch_image fetch_type query prepare now v = (Throw e, v')
    ∧ prepared_image_records v' = prepared_image_records v
    ∧ instance_image_records v' = instance_image_records v
    ∧ in_progress_image_fetches v'
      = <[VMImageInfo.id info := length (thread_pool v)]> (in_progress_image_fetches v)
    ∧ thread_pool v' = thread_pool v ++ [Finished (Throw e)]
    ∧ files (fs v')
        !! VMImage.image_path (task_source_image (fetch_task fetch_type prepare info))
      = None.
Proof.
  intros Hnew Htype Hinfo Hidle Hcold Htask.
  destruct (fetch_image_alias_cold_steps fetch_type query prepare now v info)
    as (events & Hevents & ->); try done.
  unfold DeleteOnException. rewrite bind_eq.
  change (VMImageInfo.id info) with (task_id (fetch_task fetch_type prepare info)) at 1.
  change (length (thread_pool v))
    with (length (thread_pool (set_fs (QDir.mkpath (image_dir_of info))
                                 (set_trace (λ t, t ++ events) v)))).
  rewrite future_result_spawned.
  match goal with |- context [fetch_task_body ?task ?v2] =>
    pose proof (fetch_task_body_disk_only task v2) as Hframe;
    pose proof (Htask v2) as Hbody;
    destruct (fetch_task_body task v2) as [r v3]
  end.
  cbn [fst snd] in Hframe, Hbody. rewrite Hbody by (by destruct v).
  destruct Hframe as (Hprepared & Hinstances & Hprogress & Hpool & _).
  eexists. split; [done|].
  destruct v as [disk prepared instances in_progress pool events0].
  destruct v3 as [disk3 prepared3 instances3 in_progress3 pool3 events3].
  vault_simpl. subst. split_and!; try done.
  - rewrite insert_app_r_alt by done. by rewrite Nat.sub_diag.
  - cbn. by rewrite lookup_delete_eq.
Qed.

(** X16: while the in-progress entry of an image id names a future that
    has failed, every alias query that resolves to the id fails with that
    future's exception: [fetch_image] announces that it waits, throws, and
    neither downloads nor changes anything but the trace. *)
Theorem fetch_image_joins_failed_fetch fetch_type query prepare now (v : Vault) info
    future e :
  instance_image_records v !! Query.name query = None →
  Query.query_type query = Query.Alias →
  (resolve_alias query v).1 = Ok info →
  in_progress_image_fetches v !! VMImageInfo.id info = Some future →
  thread_pool v !! future = Some (Finished (Throw e)) →
  ∃ events,
    image_downloads events = 0%nat
    ∧ fetch_image fetch_type query prepare now v
      = (Throw e, set_trace (λ t, t ++ events ++ [EvMonitor WAITING (-1)]) v).
Proof.
  intros Hnew Htype Hinfo Hentry Hfailed.
  destruct (resolve_alias_eq query info v Hinfo) as (events & Hevents & Hresolve).
  exists events. split; [done|].
  unfold fetch_image. rewrite bind_eq, gets_eq, Hnew. rewrite decide_False by (by intros []).
  unfold fetch_alias_image. rewrite bind_eq, Hresolve, bind_eq.
  rewrite (fetch_alias_locked_wait _ _ _ _ _ _ future) by (by destruct v).
  rewrite bind_eq. unfold future_result. rewrite bind_eq. unfold run_future, take_result.
  rewrite set_trace_app.
  replace (thread_pool (set_trace (λ t, t ++ events ++ [EvMonitor WAITING (-1)]) v)
             !! future) with (Some (Finished (Throw e))) by (by destruct v).
  rewrite bind_eq, gets_eq.
  replace (thread_pool (set_trace (λ t, t ++ events ++ [EvMonitor WAITING (-1)]) v)
             !! future) with (Some (Finished (Throw e))) by (by destruct v).
  done.
Qed.

End alias_images.

(** X12 at a platform that supports the default remote only. *)
Lemma fetch_image_alias_unsupported_witness :
  (@fetch_image restricted_collaborators ImageOnly (bionic_query "vm1") identity_prepare
     1546300900 fresh_vault).1
  = Throw (runtime_error
             "release is not a supported remote. Please use `multipass find` for supported images.").
Proof.
  rewrite (@fetch_image_alias_unsupported restricted_collaborators ImageOnly
             (bionic_query "vm1") identity_prepare 1546300900 fresh_vault bionic_info).
  - reflexivity.
  - reflexivity.
  - reflexivity.
  - reflexivity.
  - left. reflexivity.
Defined.

(** The fetch task of bionic succeeds on the test double. *)
Lemma bionic_task_succeeds :
  @task_succeeds (mock_collaborators "abcd") ImageOnly identity_prepare bionic_info empty_disk.
Proof.
  intros [disk prepared instances in_progress pool events] Hfs. cbn [fs] in Hfs. subst disk.
  eexists _, _. split; [by vm_compute|]. vm_compute.
  split_and!; [right; by eexists|by left|by left].
Qed.



(** The fetch task of bionic fails when the digest of the download is not
    the id of the image. *)
Lemma bionic_task_fails :
  @task_fails (mock_collaborators "ffff") ImageOnly identity_prepare bionic_info empty_disk
    hash_mismatch.
Proof.
  intros v _.
  by rewrite (@fetch_task_body_mismatch (mock_collaborators "ffff") _
                (Blob "bytes of http://h/b.img")).
Qed.

(** X15 at a launch of bionic whose download has the wrong digest. *)
Lemma fetch_image_alias_failed_witness :
  ∃ v', @fetch_image (mock_collaborators "ffff") ImageOnly (bionic_query "vm1")
          identity_prepare 1546300900 fresh_vault
        = (Throw hash_mismatch, v')
    ∧ in_progress_image_fetches v' !! "abcd" = Some 0%nat
    ∧ thread_pool v' = [Finished (Throw hash_mismatch)].
Proof.
  destruct (@fetch_image_alias_failed (mock_collaborators "ffff") ImageOnly
              (bionic_query "vm1") identity_prepare 1546300900 fresh_vault bionic_info
              hash_mismatch)
    as (v' & Hfetch & _ & _ & Hprogress & Hpool & _).
  - reflexivity.
  - reflexivity.
  - reflexivity.
  - reflexivity.
  - intros key record Hrecord. unfold fresh_vault in Hrecord.
    cbn [prepared_image_records] in Hrecord. by rewrite lookup_empty in Hrecord.
  - exact bionic_task_fails.
  - exists v'. split_and!; [exact Hfetch| |exact Hpool].
    rewrite Hprogress. by vm_compute.
Defined.

(** X16 at a launch of bionic after the failed fetch. *)
Lemma fetch_image_joins_failed_fetch_witness :
  (@fetch_image (mock_collaborators "abcd") ImageOnly (bionic_query "vm2") identity_prepare
     1546300900 vault_with_failed_fetch).1
  = Throw hash_mismatch.
Proof.
  destruct (@fetch_image_joins_failed_fetch (mock_collaborators "abcd") ImageOnly
              (bionic_query "vm2") identity_prepare 1546300900 vault_with_failed_fetch
              bionic_info 0%nat hash_mismatch)
    as (events & _ & ->).
  - reflexivity.
  - reflexivity.
  - reflexivity.
  - by vm_compute.
  - reflexivity.
  - reflexivity.
Defined.

(** ** What [fetch_image] and [update_images] never remove *)

Section kept_records.
Context `{Collaborators}.

Global Instance keeps_records_preorder name : PreOrder (keeps_records name).
Proof.
  split; [by intros v|].
  intros v1 v2 v3 (Hp1 & Hi1 & Ho1) (Hp2 & Hi2 & Ho2). split_and!.
  - by etrans.
  - by etrans.
  - intros other Hother. by rewrite Ho2, Ho1.
Qed.

Global Instance records_kept_preorder : PreOrder records_kept.
Proof.
  split; [by intros v|]. intros v1 v2 v3 [Hp1 Hi1] [Hp2 Hi2]. split; by etrans.
Qed.

Lemma keeps_records_kept name v v' : keeps_records name v v' → records_kept v v'.
Proof. by intros (? & ? & _). Qed.

Lemma disk_only_keeps_records name v v' : disk_only v v' → keeps_records name v v'.
Proof. intros (Hprepared & Hinstances & _). unfold keeps_records. by rewrite Hprepared, Hinstances. Qed.

Lemma frame_disk_only_keeps_records name {A} (m : M A) :
  frame disk_only m → frame (keeps_records name) m.
Proof. intros Hm v. apply disk_only_keeps_records, Hm. Qed.

Lemma keeps_records_set_fs name v f : keeps_records name v (set_fs f v).
Proof. by destruct v. Qed.

Lemma keeps_records_set_trace name v f : keeps_records name v (set_trace f v).
Proof. by destruct v. Qed.

Lemma keeps_records_set_in_progress name v f : keeps_records name v (set_in_progress f v).
Proof. by destruct v. Qed.

Lemma keeps_records_set_thread_pool name v f : keeps_records name v (set_thread_pool f v).
Proof. by destruct v. Qed.

Lemma keeps_records_set_instances name v record :
  keeps_records name v (set_instances (<[name := record]>) v).
Proof.
  destruct v as [disk prepared instances in_progress pool events]. unfold keeps_records.
  vault_simpl. split_and!; [done|set_solver|].
  intros other Hother. by rewrite lookup_insert_ne.
Qed.

Lemma keeps_records_set_prepared name v key record :
  keeps_records name v (set_prepared (<[key := record]>) v).
Proof.
  destruct v as [disk prepared instances in_progress pool events]. unfold keeps_records.
  vault_simpl. split_and!; [set_solver|done|done].
Qed.

Hint Resolve keeps_records_set_fs keeps_records_set_trace keeps_records_set_in_progress
  keeps_records_set_thread_pool keeps_records_set_instances keeps_records_set_prepared
  : frame.

Hint Resolve fetch_default_kernel_and_initrd_disk_only fetch_local_file_disk_only
  resolve_alias_disk_only fetch_task_body_disk_only info_for_disk_only
  emit_disk_only make_dir_in_disk_only copy_disk_only delete_file_disk_only
  remove_source_images_disk_only verify_image_download_disk_only download_to_disk_only
  decode_to_disk_only call_prepare_disk_only run_prepare_disk_only
  image_instance_from_disk_only extract_downloaded_image_disk_only
  extract_image_from_disk_only fetch_kernel_and_initrd_disk_only
  persist_instance_records_disk_only persist_image_records_disk_only : frame.

Hint Resolve frame_disk_only_keeps_records : frame.

Lemma touch_prepared_keeps_records name id now :
  frame (keeps_records name) (touch_prepared id now).
Proof.
  intros [disk prepared instances in_progress pool events]. unfold keeps_records.
  cbn. split_and!; [set_solver|done|done].
Qed.

Hint Resolve touch_prepared_keeps_records : frame.

Section one_query.
Variable query : Query.

Lemma finalize_image_records_keeps_records prepared_image now :
  frame (keeps_records (Query.name query)) (finalize_image_records query prepared_image now).
Proof. unfold finalize_image_records. solve_frame. Qed.

Hint Resolve finalize_image_records_keeps_records : frame.

Lemma download_http_image_keeps_records fetch_type prepare hash modified source_image now :
  frame (keeps_records (Query.name query)) (download_http_image fetch_type query prepare hash modified source_image now).
Proof. unfold download_http_image. solve_frame. Qed.

Hint Resolve download_http_image_keeps_records : frame.

Lemma fetch_http_url_keeps_records fetch_type prepare now :
  frame (keeps_records (Query.name query)) (fetch_http_url fetch_type query prepare now).
Proof. unfold fetch_http_url. solve_frame. Qed.

Hint Resolve fetch_http_url_keeps_records : frame.

Lemma fetch_custom_image_keeps_records fetch_type prepare now :
  frame (keeps_records (Query.name query)) (fetch_custom_image fetch_type query prepare now).
Proof. unfold fetch_custom_image. solve_frame. Qed.

Lemma find_prepared_keeps_records records id now :
  frame (keeps_records (Query.name query)) (find_prepared records query id now).
Proof.
  induction records as [|[key record] rest IH]; cbn [find_prepared]; solve_frame.
Qed.

Hint Resolve find_prepared_keeps_records : frame.

Lemma spawn_keeps_records task : frame (keeps_records (Query.name query)) (spawn task).
Proof. intros v. unfold spawn. cbn [snd]. auto with frame. Qed.

Hint Resolve spawn_keeps_records : frame.

Lemma fetch_alias_locked_keeps_records fetch_type prepare info now :
  frame (keeps_records (Query.name query)) (fetch_alias_locked fetch_type query prepare info now).
Proof. unfold fetch_alias_locked. solve_frame. Qed.

Lemma run_future_keeps_records future : frame (keeps_records (Query.name query)) (run_future future).
Proof.
  intros v. unfold run_future. destruct (thread_pool v !! future) as [[task|r]|]; try done.
  pose proof (fetch_task_body_disk_only task v) as Hbody.
  destruct (fetch_task_body task v) as [r v']. cbn [snd] in *.
  etrans; [by apply disk_only_keeps_records|]. auto with frame.
Qed.

Lemma take_result_keeps_records future : frame (keeps_records (Query.name query)) (take_result future).
Proof. unfold take_result. solve_frame. Qed.

Hint Resolve run_future_keeps_records take_result_keeps_records
  fetch_alias_locked_keeps_records fetch_custom_image_keeps_records : frame.

Lemma future_result_keeps_records future : frame (keeps_records (Query.name query)) (future_result future).
Proof. unfold future_result. solve_frame. Qed.

Hint Resolve future_result_keeps_records : frame.

Lemma fetch_alias_image_keeps_records fetch_type prepare now :
  frame (keeps_records (Query.name query)) (fetch_alias_image fetch_type query prepare now).
Proof. unfold fetch_alias_image, fetch_alias_joined, fetch_alias_finish. solve_frame. Qed.

Hint Resolve fetch_alias_image_keeps_records : frame.

Lemma fetch_image_keeps_records fetch_type prepare now :
  frame (keeps_records (Query.name query)) (fetch_image fetch_type query prepare now).
Proof. unfold fetch_image. solve_frame. Qed.

End one_query.

(** X17: [fetch_image], whether it returns or throws, removes no record
    from the prepared catalog or from the instance catalog, and leaves the
    instance record of every name other than the query's as it was. *)
Theorem fetch_image_removes_nothing fetch_type query prepare now (v : Vault) :
  let v' := (fetch_image fetch_type query prepare now v).2 in
  (∀ key, is_Some (prepared_image_records v !! key) →
          is_Some (prepared_image_records v' !! key))
  ∧ (∀ name, is_Some (instance_image_records v !! name) →
             is_Some (instance_image_records v' !! name))
  ∧ (∀ name, name ≠ Query.name query →
             instance_image_records v' !! name = instance_image_records v !! name).
Proof.
  destruct (fetch_image_keeps_records query fetch_type prepare now v)
    as (Hprepared & Hinstances & Hothers).
  split_and!.
  - intros key. rewrite <- !elem_of_dom. apply Hprepared.
  - intros name. rewrite <- !elem_of_dom. apply Hinstances.
  - exact Hothers.
Qed.

Lemma frame_keeps_records_kept name {A} (m : M A) :
  frame (keeps_records name) m → frame records_kept m.
Proof. intros Hm v. eapply keeps_records_kept, Hm. Qed.

Lemma frame_disk_only_records_kept {A} (m : M A) : frame disk_only m → frame records_kept m.
Proof.
  intros Hm. apply (frame_keeps_records_kept EmptyString).
  by apply frame_disk_only_keeps_records.
Qed.

Lemma keys_to_update_disk_only records : frame disk_only (keys_to_update records).
Proof. induction records as [|[key record] rest IH]; cbn [keys_to_update]; solve_frame. Qed.

Lemma refetch_records_kept keys fetch_type prepare now :
  frame records_kept (refetch keys fetch_type prepare now).
Proof.
  induction keys as [|key keys IH]; cbn [refetch]; [solve_frame|].
  apply frame_bind; [apply _|solve_frame|]. intros touch.
  apply frame_bind; [apply _| |].
  - destruct touch; [solve_frame|]. apply frame_modify. intros v.
    eapply keeps_records_kept, (keeps_records_set_prepared EmptyString).
  - intros _. apply frame_bind; [apply _| |done].
    eapply frame_keeps_records_kept, fetch_image_keeps_records.
Qed.

(** X18: [update_images], whether it returns or throws, removes no record
    from either catalog: the image an alias pointed to before it was
    refreshed keeps its record. *)
Theorem update_images_removes_nothing fetch_type prepare now (v : Vault) :
  let v' := (update_images fetch_type prepare now v).2 in
  (∀ key, is_Some (prepared_image_records v !! key) →
          is_Some (prepared_image_records v' !! key))
  ∧ (∀ name, is_Some (instance_image_records v !! name) →
             is_Some (instance_image_records v' !! name)).
Proof.
  assert (frame records_kept (update_images fetch_type prepare now)) as Hframe.
  { unfold update_images. apply frame_bind; [apply _|solve_frame|]. intros prepared.
    apply frame_bind; [apply _| |].
    - apply frame_disk_only_records_kept, keys_to_update_disk_only.
    - intros keys. apply refetch_records_kept. }
  destruct (Hframe v) as [Hprepared Hinstances]. split.
  - intros key. rewrite <- !elem_of_dom. apply Hprepared.
  - intros name. rewrite <- !elem_of_dom. apply Hinstances.
Qed.

End kept_records.

(** ** [update_images]: what stops a refresh *)

Section update_stops.
Context `{Collaborators}.

Lemma keys_to_update_pure records :
  ∃ r events, image_downloads events = 0%nat
    ∧ ∀ v, keys_to_update records v = (r, set_trace (λ t, t ++ events) v).
Proof.
  induction records as [|[key record] rest (r & events & Hevents & IH)].
  - exists (Ok []), []. split; [done|]. intros v. by rewrite set_trace_nil.
  - cbn [keys_to_update]. destruct (_ && _); [|by exists r, events].
    destruct (info_for_pure (VaultRecord.query record)) as (ri & eventsi & Heventsi & Hinfo).
    destruct ri as [info|e].
    + exists (match r with
              | Ok keys => Ok (if decide (VMImageInfo.id info ≠ key) then key :: keys else keys)
              | Throw e => Throw e
              end), (eventsi ++ events).
      split; [rewrite image_downloads_app; lia|]. intros v.
      rewrite bind_eq, Hinfo, bind_eq, IH, set_trace_app. by destruct r.
    + exists (Throw e), eventsi. split; [done|]. intros v. by rewrite bind_eq, Hinfo.
Qed.

Lemma keys_to_update_throws records key record e (v : Vault) :
  (key, record) ∈ records →
  Query.query_type (VaultRecord.query record) = Query.Alias →
  QString.startsWith key (Query.release (VaultRecord.query record)) = false →
  (info_for (VaultRecord.query record) v).1 = Throw e →
  ∃ e', (keys_to_update records v).1 = Throw e'.
Proof.
  intros Hin Htype Hprefix Hinfo. revert v Hinfo.
  induction records as [|[key' record'] rest IH]; intros v Hinfo.
  { by apply elem_of_nil in Hin. }
  cbn [keys_to_update]. apply elem_of_cons in Hin as [Heq|Hin].
  - injection Heq as <- <-. rewrite Htype, Hprefix, bool_decide_eq_true_2 by done.
    cbn [andb negb]. rewrite bind_eq.
    destruct (info_for (VaultRecord.query record) v) as [[info|e0] v1]; [done|]. by eexists.
  - destruct (_ && _); [|by apply IH]. rewrite bind_eq.
    destruct (info_for (VaultRecord.query record') v) as [[info|e0] v1] eqn:Hinfo';
      [|by eexists].
    rewrite bind_eq. destruct (IH Hin v1) as [e' He'].
    { rewrite <- Hinfo. apply info_for_result. }
    destruct (keys_to_update rest v1) as [[keys|e1] v2]; [done|]. by eexists.
Qed.

(** X19: when the host of one alias record that [update_images] looks up
    cannot resolve its query, [update_images] throws before it refreshes any
    image: no record, no file and no fetch state changes, and nothing is
    downloaded. *)
Theorem update_images_unresolved fetch_type prepare now (v : Vault) key record e :
  prepared_image_records v !! key = Some record →
  Query.query_type (VaultRecord.query record) = Query.Alias →
  QString.startsWith key (Query.release (VaultRecord.query record)) = false →
  (info_for (VaultRecord.query record) v).1 = Throw e →
  ∃ e' events,
    image_downloads events = 0%nat
    ∧ update_images fetch_type prepare now v
      = (Throw e', set_trace (λ t, t ++ events) v).
Proof.
  intros Hrecord Htype Hprefix Hinfo. unfold update_images. rewrite bind_eq, gets_eq.
  destruct (keys_to_update_pure (map_to_list (prepared_image_records v)))
    as (r & events & Hevents & Hpure).
  destruct (keys_to_update_throws (map_to_list (prepared_image_records v)) key record e v)
    as [e' He']; try done.
  { by apply elem_of_map_to_list. }
  rewrite Hpure in He'. cbn [fst] in He'. subst r.
  exists e', events. split; [done|]. by rewrite bind_eq, Hpure.
Qed.

Lemma refetch_known_instances keys fetch_type prepare now (v : Vault) :
  (∀ key, key ∈ keys →
     ∃ record, prepared_image_records v !! key = Some record
       ∧ is_Some (instance_image_records v !! Query.name (VaultRecord.query record))) →
  refetch keys fetch_type prepare now v = (Ok tt, v).
Proof.
  induction keys as [|key keys IH]; intros Hkeys; [done|]. cbn [refetch].
  destruct (Hkeys key) as (record & Hrecord & [instance Hinstance]).
  { by apply elem_of_cons; left. }
  rewrite bind_eq, gets_eq. cbn beta iota. rewrite Hrecord. cbn [from_option].
  rewrite bind_eq, mret_eq, bind_eq.
  unfold fetch_image. rewrite bind_eq, gets_eq. cbn beta iota. rewrite Hinstance, mret_eq.
  apply IH. intros key' Hin. apply Hkeys. by apply elem_of_cons; right.
Qed.

(** X20: an image is not refreshed while the instance named in the query
    stored with it has a record: when that holds of every prepared record,
    [update_images] asks the hosts and changes nothing else, however stale
    the images are. *)
Theorem update_images_known_instances fetch_type prepare now (v : Vault) :
  (∀ key record, prepared_image_records v !! key = Some record →
     is_Some (instance_image_records v !! Query.name (VaultRecord.query record))) →
  ∃ r events,
    image_downloads events = 0%nat
    ∧ update_images fetch_type prepare now v = (r, set_trace (λ t, t ++ events) v).
Proof.
  intros Hknown. unfold update_images. rewrite bind_eq, gets_eq.
  destruct (keys_to_update_pure (map_to_list (prepared_image_records v)))
    as (r & events & Hevents & Hpure).
  destruct r as [keys|e].
  2:{ exists (Throw e), events. split; [done|]. by rewrite bind_eq, Hpure. }
  exists (Ok tt), events. split; [done|]. rewrite bind_eq, Hpure.
  apply refetch_known_instances. intros key Hin.
  destruct (keys_to_update_spec _ _ _ _ (Hpure v)) as (_ & _ & Hkeys).
  destruct (Hkeys key Hin) as (record & _ & Hrecord%elem_of_map_to_list & _).
  exists record. destruct v. split; [done|]. by apply (Hknown key).
Qed.

End update_stops.

(** ** [remove] and [prune_expired_images], once more *)

Section removal_again.
Context `{Collaborators}.

Lemma remove_eq name (v : Vault) record :
  instance_image_records v !! name = Some record →
  remove name v
  = (Ok tt,
     set_fs (persist_records (delete name (instance_image_records v))
               (QDir.filePath data_dir instance_db_name))
       (set_instances (delete name)
          (set_fs (λ disk, match QDir.cd instances_dir name disk with
                           | Some instance_dir => QDir.removeRecursively instance_dir disk
                           | None => disk
                           end) v))).
Proof.
  intros Hrecord. unfold remove. run. rewrite Hrecord. run.
  destruct (QDir.cd instances_dir name (fs v)) as [instance_dir|] eqn:Hcd; run;
    rewrite persist_instance_records_eq;
    destruct v as [disk prepared instances in_progress pool events];
    unfold set_fs, set_instances; vault_simpl; by rewrite Hcd.
Qed.

Lemma remove_absent name (v : Vault) :
  instance_image_records v !! name = None → remove name v = (Ok tt, v).
Proof. intros Hnone. unfold remove. run. by rewrite Hnone. Qed.

(** X21: [remove] of a name that has no instance record changes nothing,
    not even the catalog file; so removing an instance a second time has no
    effect. *)
Theorem remove_twice name (v : Vault) :
  (instance_image_records v !! name = None → remove name v = (Ok tt, v))
  ∧ remove name (remove name v).2 = (Ok tt, (remove name v).2).
Proof.
  split; [apply remove_absent|].
  destruct (instance_image_records v !! name) as [record|] eqn:Hrecord.
  - rewrite (remove_eq _ _ _ Hrecord). cbn [snd]. apply remove_absent.
    destruct v as [disk prepared instances in_progress pool events]. vault_simpl.
    apply lookup_delete_eq.
  - rewrite (remove_absent _ _ Hrecord). cbn [snd]. by apply remove_absent.
Qed.

(** X22: [remove] of an instance leaves alone what is not the instance's:
    the prepared catalog, the fetch state and the trace, the records of the
    other instances, and every file outside the instance's directory other
    than the catalog file it rewrites. *)
Theorem remove_leaves_the_rest name (v : Vault) record :
  instance_image_records v !! name = Some record →
  let v' := (remove name v).2 in
  prepared_image_records v' = prepared_image_records v
  ∧ in_progress_image_fetches v' = in_progress_image_fetches v
  ∧ thread_pool v' = thread_pool v
  ∧ trace v' = trace v
  ∧ (∀ other, other ≠ name →
       instance_image_records v' !! other = instance_image_records v !! other)
  ∧ (∀ path, QDir.below (QDir.filePath instances_dir name) path = false →
       path ≠ QDir.filePath data_dir instance_db_name →
       files (fs v') !! path = files (fs v) !! path).
Proof.
  intros Hrecord v'. unfold v'. rewrite (remove_eq _ _ _ Hrecord). cbn [snd].
  destruct v as [disk prepared instances in_progress pool events]. vault_simpl.
  split_and!; try done.
  - intros other Hother. by rewrite lookup_delete_ne.
  - intros path Hbelow Hdb. unfold persist_records, write_json, QFile.write. cbn [files].
    rewrite lookup_insert_ne by done.
    destruct (QDir.cd instances_dir name disk) as [instance_dir|] eqn:Hcd; [|done].
    rewrite removeRecursively_files.
    assert (instance_dir = QDir.filePath instances_dir name) as ->.
    { unfold QDir.cd in Hcd. destruct name; [by simplify_eq|].
      by case_bool_decide; simplify_eq. }
    by rewrite Hbelow.
Qed.

(** X23: the record stored under the empty name, which a fetch of a URL
    or a local file without an instance name leaves, stands for the
    instances directory itself: [remove] of it removes every file and
    directory below the instances directory, while the records of the named
    instances stay in the catalog. *)
Theorem remove_unnamed_instance (v : Vault) record :
  instance_image_records v !! EmptyString = Some record →
  let v' := (remove EmptyString v).2 in
  (instances_dir ∉ dirs (fs v'))
  ∧ (∀ path, QDir.below instances_dir path = true →
       path ≠ QDir.filePath data_dir instance_db_name →
       files (fs v') !! path = None ∧ path ∉ dirs (fs v'))
  ∧ instance_image_records v' = delete EmptyString (instance_image_records v).
Proof.
  intros Hrecord v'. unfold v'. rewrite (remove_eq _ _ _ Hrecord). cbn [snd].
  destruct v as [disk prepared instances in_progress pool events]. vault_simpl.
  cbn [QDir.cd]. unfold persist_records, write_json, QFile.write. cbn [files dirs].
  split_and!; [|intros path Hbelow Hdb; split|done].
  - rewrite removeRecursively_dirs. by intros (_ & ? & _).
  - rewrite lookup_insert_ne by done. by rewrite removeRecursively_files, Hbelow.
  - rewrite removeRecursively_dirs. intros (_ & _ & ?). congruence.
Qed.

End removal_again.

Section pruning_again.
Context `{Collaborators}.

Lemma prune_expired_images_eq now (v : Vault) :
  let records := map_to_list (prepared_image_records v) in
  let kept :=
    foldl (λ m key, delete key m) (prepared_image_records v)
          (filter (λ kr, expired kr.2 now = true) records).*1 in
  prune_expired_images now v
  = (Ok tt,
     mkVault (persist_records kept (QDir.filePath cache_dir image_db_name)
                (prune_disk records now (fs v)))
             kept (instance_image_records v) (in_progress_image_fetches v)
             (thread_pool v) (trace v)).
Proof.
  intros records kept. unfold prune_expired_images. run.
  rewrite collect_expired_eq. run. rewrite persist_image_records_eq.
  by destruct v.
Qed.

Lemma prune_disk_nothing_expired records now disk :
  Forall (λ kr, expired kr.2 now = false) records → prune_disk records now disk = disk.
Proof.
  induction 1 as [|[key record] rest Hfresh _ IH]; [done|]. cbn [prune_disk].
  cbn [snd] in Hfresh. by rewrite Hfresh.
Qed.

Lemma filter_nothing_expired (records : list (string * VaultRecord)) now :
  Forall (λ kr, expired kr.2 now = false) records →
  filter (λ kr, expired kr.2 now = true) records = [].
Proof.
  induction 1 as [|kr rest Hfresh _ IH]; [done|].
  rewrite filter_cons, decide_False by congruence. done.
Qed.

(** X24: [prune_expired_images] leaves nothing to prune: run again at the
    same time, it changes nothing, neither in the catalog nor on the disk. *)
Theorem prune_expired_images_twice now (v : Vault) :
  prune_expired_images now (prune_expired_images now v).2
  = (Ok tt, (prune_expired_images now v).2).
Proof.
  rewrite (prune_expired_images_eq now v). cbn [snd]. cbv zeta.
  set (records := map_to_list (prepared_image_records v)).
  set (kept := foldl (λ m key, delete key m) (prepared_image_records v)
                 (filter (λ kr, expired kr.2 now = true) records).*1).
  rewrite prune_expired_images_eq. cbv zeta. vault_simpl.
  assert (Forall (λ kr, expired kr.2 now = false) (map_to_list kept)) as Hfresh.
  { apply Forall_forall. intros [key record] Hin%elem_of_map_to_list. cbn [snd].
    unfold kept in Hin. rewrite lookup_foldl_delete in Hin.
    destruct (decide _) as [|Hnotin]; [done|].
    destruct (expired record now) eqn:Hexpired; [|done].
    exfalso. apply Hnotin. apply list_elem_of_fmap. exists (key, record). split; [done|].
    apply list_elem_of_filter. split; [done|]. by apply elem_of_map_to_list. }
  rewrite (filter_nothing_expired _ _ Hfresh), (prune_disk_nothing_expired _ _ _ Hfresh).
  cbn [fmap list_fmap foldl]. do 2 f_equal.
  unfold persist_records, write_json, QFile.write. cbn [files dirs]. f_equal.
  apply insert_insert_eq.
Qed.

End pruning_again.

(** ** A vault constructed on the disk another one left *)

Section restart.
Context `{Collaborators}.

Lemma split_path_file d f :
  QDir.split_path f = (None, f) → QDir.split_path (d +:+ "/" +:+ f) = (Some d, f).
Proof.
  intros Hf. induction d as [|c d IH].
  - change (EmptyString +:+ "/" +:+ f) with (String "/" f). cbn [QDir.split_path].
    rewrite Hf. by rewrite decide_True.
  - rewrite append_cons. cbn [QDir.split_path]. by rewrite IH.
Qed.

Lemma fileName_filePath d f :
  f ≠ EmptyString → QDir.split_path f = (None, f) → QDir.fileName (QDir.filePath d f) = f.
Proof.
  intros Hne Hf. unfold QDir.fileName, QDir.filePath. destruct f as [|c f]; [done|].
  destruct (QString.endsWith d "/") eqn:Hslash.
  - apply endsWith_spec in Hslash as [t ->]. rewrite append_assoc.
    by rewrite split_path_file.
  - by rewrite split_path_file.
Qed.

Lemma db_names_differ :
  QDir.filePath data_dir instance_db_name ≠ QDir.filePath cache_dir image_db_name.
Proof.
  intros Heq. apply (f_equal QDir.fileName) in Heq.
  rewrite !fileName_filePath in Heq by done. discriminate.
Qed.

Lemma load_db_other_file now path other records disk :
  path ≠ other →
  load_db now path (persist_records records other disk) = load_db now path disk.
Proof.
  intros Hne. unfold load_db, persist_records, write_json, QFile.write. cbn [files].
  by rewrite lookup_insert_ne.
Qed.

(** X25: after [finalize_image_records] has returned, a vault
    constructed on the disk has both catalogs as they were in memory, up to
    what the catalog files do not keep: the instance name and the query
    type of a record, and a zero access time. *)
Theorem restart_after_finalize query prepared_image now now' (v : Vault) vm_image v' :
  finalize_image_records query prepared_image now v = (Ok vm_image, v') →
  prepared_image_records (DefaultVMImageVault now' (fs v'))
    = reloaded now' <$> prepared_image_records v'
  ∧ instance_image_records (DefaultVMImageVault now' (fs v'))
    = reloaded now' <$> instance_image_records v'.
Proof.
  intros Hfinal. unfold finalize_image_records in Hfinal.
  apply bind_Ok_inv in Hfinal as (vm & v1 & _ & Hfinal).
  rewrite bind_eq, persist_instance_records_eq, bind_eq, persist_image_records_eq, mret_eq
    in Hfinal.
  injection Hfinal as _ <-. unfold DefaultVMImageVault.
  destruct v1 as [disk prepared instances in_progress pool events]. vault_simpl.
  split.
  - apply load_persisted.
  - rewrite load_db_other_file by apply db_names_differ. apply load_persisted.
Qed.

(** X26: after [remove] of an instance, a vault constructed on the disk
    knows the instances that are left and not the removed one; after
    [prune_expired_images], it knows the prepared images that were kept. *)
Theorem restart_after_remove_or_prune name now now' (v : Vault) :
  (is_Some (instance_image_records v !! name) →
   instance_image_records (DefaultVMImageVault now' (fs (remove name v).2))
   = reloaded now' <$> delete name (instance_image_records v))
  ∧ prepared_image_records (DefaultVMImageVault now' (fs (prune_expired_images now v).2))
    = reloaded now' <$> prepared_image_records (prune_expired_images now v).2.
Proof.
  split.
  - intros [record Hrecord]. rewrite (remove_eq _ _ _ Hrecord). cbn [snd].
    destruct v as [disk prepared instances in_progress pool events].
    unfold DefaultVMImageVault. vault_simpl. apply load_persisted.
  - rewrite prune_expired_images_eq. cbn [snd]. cbv zeta.
    unfold DefaultVMImageVault. vault_simpl. apply load_persisted.
Qed.

End restart.

(** ** What a successful [fetch_image] leaves *)

Section recorded.
Context `{Collaborators}.

Lemma modify_Ok_inv f (v : Vault) u v' : modify f v = (Ok u, v') → v' = f v.
Proof. rewrite modify_eq. congruence. Qed.

Lemma finalize_image_records_recorded query prepared_image now (v : Vault) vm_image v' :
  Query.name query ≠ EmptyString →
  finalize_image_records query prepared_image now v = (Ok vm_image, v') →
  instance_image_records v' !! Query.name query
  = Some (VaultRecord.mk vm_image query now).
Proof.
  intros Hname Hfinal. unfold finalize_image_records in Hfinal.
  rewrite decide_True in Hfinal by done.
  apply bind_Ok_inv in Hfinal as (vm & v1 & Hcopy & Hfinal).
  apply bind_Ok_inv in Hcopy as (vm' & v2 & _ & Hcopy).
  rewrite bind_eq, modify_eq, mret_eq in Hcopy. injection Hcopy as -> <-.
  rewrite bind_eq, persist_instance_records_eq, bind_eq, persist_image_records_eq, mret_eq
    in Hfinal.
  injection Hfinal as <- <-. destruct v2. vault_simpl. apply lookup_insert_eq.
Qed.

Lemma fetch_custom_image_recorded fetch_type query prepare now (v : Vault) vm_image v' :
  Query.name query ≠ EmptyString →
  fetch_custom_image fetch_type query prepare now v = (Ok vm_image, v') →
  instance_image_records v' !! Query.name query
  = Some (VaultRecord.mk vm_image query now).
Proof.
  intros Hname Hfetch. unfold fetch_custom_image in Hfetch.
  destruct (negb is_image_url_supported); [done|].
  apply bind_Ok_inv in Hfetch as (fetched & v1 & Hfetched & Hrest).
  destruct fetched as [vm|vm].
  - rewrite mret_eq in Hrest. injection Hrest as -> ->.
    destruct (QUrl_isLocalFile _).
    { apply bind_Ok_inv in Hfetched as (? & ? & _ & Hfetched).
      by rewrite mret_eq in Hfetched. }
    unfold fetch_http_url in Hfetched.
    apply bind_Ok_inv in Hfetched as ([] & v2 & _ & Hfetched).
    apply bind_Ok_inv in Hfetched as (prepared & v3 & _ & Hfetched).
    destruct (prepared !! _) as [record|].
    + destruct (_ && _).
      * apply bind_Ok_inv in Hfetched as ([] & v4 & _ & Hfetched).
        apply bind_Ok_inv in Hfetched as (vm & v5 & Hfinal & Hfetched).
        rewrite mret_eq in Hfetched. injection Hfetched as -> ->.
        by eapply finalize_image_records_recorded.
      * apply bind_Ok_inv in Hfetched as (vm & v4 & _ & Hfetched).
        by rewrite mret_eq in Hfetched.
    + apply bind_Ok_inv in Hfetched as (image_dir & v4 & _ & Hfetched).
      apply bind_Ok_inv in Hfetched as (vm & v5 & _ & Hfetched).
      by rewrite mret_eq in Hfetched.
  - rewrite bind_eq, modify_eq, bind_eq, persist_instance_records_eq, mret_eq in Hrest.
    injection Hrest as <- <-. destruct v1. vault_simpl. apply lookup_insert_eq.
Qed.

Lemma find_prepared_recorded records query id now (v : Vault) vm_image v' :
  Query.name query ≠ EmptyString →
  find_prepared records query id now v = (Ok (Some vm_image), v') →
  instance_image_records v' !! Query.name query
  = Some (VaultRecord.mk vm_image query now).
Proof.
  intros Hname. induction records as [|[key record] rest IH]; cbn [find_prepared].
  { by rewrite mret_eq. }
  destruct (decide _); [done|]. destruct (_ || _); [|done].
  unfold try_catch.
  match goal with |- context [match ?m v with _ => _ end] =>
    destruct (m v) as [[found|e] v1] eqn:Hbody end.
  2:{ by rewrite mret_eq. }
  intros Hfound. injection Hfound as -> ->.
  apply bind_Ok_inv in Hbody as ([] & v2 & _ & Hbody).
  apply bind_Ok_inv in Hbody as (vm & v3 & Hfinal & Hbody).
  rewrite mret_eq in Hbody. injection Hbody as -> ->.
  by eapply finalize_image_records_recorded.
Qed.

Lemma fetch_alias_image_recorded fetch_type query prepare now (v : Vault) vm_image v' :
  Query.name query ≠ EmptyString →
  fetch_alias_image fetch_type query prepare now v = (Ok vm_image, v') →
  instance_image_records v' !! Query.name query
  = Some (VaultRecord.mk vm_image query now).
Proof.
  intros Hname Hfetch. unfold fetch_alias_image in Hfetch.
  apply bind_Ok_inv in Hfetch as (info & v1 & _ & Hfetch).
  apply bind_Ok_inv in Hfetch as (locked & v2 & Hlocked & Hfetch).
  destruct locked as [future|vm|future source_path].
  - apply bind_Ok_inv in Hfetch as (prepared_image & v3 & _ & Hjoined).
    unfold fetch_alias_joined in Hjoined.
    apply bind_Ok_inv in Hjoined as ([] & v4 & _ & Hfinal).
    by eapply finalize_image_records_recorded.
  - rewrite mret_eq in Hfetch. injection Hfetch as -> ->.
    unfold fetch_alias_locked in Hlocked.
    apply bind_Ok_inv in Hlocked as (in_progress & v3 & _ & Hlocked).
    destruct (in_progress !! _).
    { apply bind_Ok_inv in Hlocked as ([] & v4 & _ & Hlocked).
      by rewrite mret_eq in Hlocked. }
    apply bind_Ok_inv in Hlocked as (found & v4 & Hfound & Hlocked).
    destruct found as [vm|].
    + rewrite mret_eq in Hlocked. injection Hlocked as -> ->.
      rewrite decide_True in Hfound by done.
      apply bind_Ok_inv in Hfound as (prepared & v5 & _ & Hfound).
      by eapply find_prepared_recorded.
    + apply bind_Ok_inv in Hlocked as (image_dir & v5 & _ & Hlocked).
      apply bind_Ok_inv in Hlocked as (future & v6 & _ & Hlocked).
      apply bind_Ok_inv in Hlocked as ([] & v7 & _ & Hlocked).
      by rewrite mret_eq in Hlocked.
  - apply DeleteOnException_Ok_inv in Hfetch.
    apply bind_Ok_inv in Hfetch as (prepared_image & v3 & _ & Hfinish).
    unfold fetch_alias_finish in Hfinish.
    apply bind_Ok_inv in Hfinish as ([] & v4 & _ & Hfinish).
    apply bind_Ok_inv in Hfinish as (vm & v5 & Hfinal & Hfinish).
    rewrite bind_eq, modify_eq, mret_eq in Hfinish. injection Hfinish as -> <-.
    destruct v5. vault_simpl.
    by apply (finalize_image_records_recorded _ _ _ _ _ _ Hname Hfinal).
Qed.

(** X27: when [fetch_image] returns for a query with an instance name,
    by whichever of its paths, the instance catalog has a record under that
    name whose image is the one returned; so [has_record_for] answers yes,
    and a further [fetch_image] for the name returns the same image and
    changes nothing. *)
Theorem fetch_image_records_instance fetch_type query prepare now (v : Vault) vm_image v' :
  Query.name query ≠ EmptyString →
  fetch_image fetch_type query prepare now v = (Ok vm_image, v') →
  (∃ record, instance_image_records v' !! Query.name query = Some record
     ∧ VaultRecord.image record = vm_image)
  ∧ has_record_for (Query.name query) v' = (Ok true, v')
  ∧ ∀ fetch_type' prepare' now',
      fetch_image fetch_type' query prepare' now' v' = (Ok vm_image, v').
Proof.
  intros Hname Hfetch.
  assert (∃ record, instance_image_records v' !! Query.name query = Some record
            ∧ VaultRecord.image record = vm_image) as (record & Hrecord & Himage).
  { unfold fetch_image in Hfetch. rewrite bind_eq, gets_eq in Hfetch. cbn beta iota in Hfetch.
    destruct (instance_image_records v !! Query.name query) as [record|] eqn:Hknown.
    - rewrite mret_eq in Hfetch. injection Hfetch as <- <-. by exists record.
    - exists (VaultRecord.mk vm_image query now). split; [|reflexivity].
      destruct (decide _).
      + by eapply fetch_custom_image_recorded.
      + by eapply fetch_alias_image_recorded. }
  split_and!.
  - by exists record.
  - unfold has_record_for. rewrite bind_eq, gets_eq, mret_eq. cbn beta iota.
    by rewrite Hrecord, bool_decide_eq_true_2.
  - intros fetch_type' prepare' now'. unfold fetch_image.
    rewrite bind_eq, gets_eq. cbn beta iota. by rewrite Hrecord, mret_eq, Himage.
Qed.

End recorded.

(** ** Concurrent calls, in general *)

Section concurrent_calls.
Context `{Collaborators}.

(** X28: whatever calls of [fetch_image] run concurrently, and in
    whatever order their steps and the workers of the thread pool are
    scheduled, from a vault in which no fetch is running: no two running
    futures fetch the same image id, and the future that fetches an id is
    the one its in-progress entry names. *)
Theorem one_running_fetch_per_image schedule (v : Vault) cs sys :
  (∀ future task, thread_pool v !! future ≠ Some (Running task)) →
  Forall (λ c, called c = true) cs →
  run schedule (mkSystem v cs) = Some sys →
  at_most_one_in_flight (vault sys)
  ∧ ∀ future task,
      thread_pool (vault sys) !! future = Some (Running task) →
      in_progress_image_fetches (vault sys) !! task_id task = Some future.
Proof.
  intros Hidle Hcalled Hrun.
  assert (registered sys) as Hregistered.
  { eapply registered_run; [done|]. by apply registered_initial. }
  split; [by apply registered_at_most_one|]. by destruct Hregistered as (Hrunning & _).
Qed.


End concurrent_calls.

(** ** Local files *)

Section local_files.
Context `{Collaborators}.

Lemma info_for_same_downloads query : frame same_downloads (info_for query).
Proof.
  intros v. destruct (info_for_pure query) as (r & events & Hevents & Hpure).
  rewrite Hpure. cbn [snd]. by apply same_downloads_set_trace.
Qed.

Hint Resolve info_for_same_downloads emit_same_downloads make_dir_in_same_downloads
  copy_same_downloads delete_file_same_downloads remove_source_images_same_downloads
  decode_to_same_downloads call_prepare_same_downloads run_prepare_same_downloads
  image_instance_from_same_downloads fetch_kernel_and_initrd_same_downloads
  persist_instance_records_same_downloads same_downloads_set_instances : frame.

Lemma extract_image_from_same_downloads instance_name source_image :
  frame same_downloads (extract_image_from instance_name source_image).
Proof. unfold extract_image_from. solve_frame. Qed.

Hint Resolve extract_image_from_same_downloads : frame.

Lemma fetch_local_file_same_downloads fetch_type query prepare :
  frame same_downloads (fetch_local_file fetch_type query prepare).
Proof. unfold fetch_local_file, fetch_default_kernel_and_initrd. solve_frame. Qed.

(** X30: an image given as a local file is neither downloaded nor
    cached: whether [fetch_image] returns or throws, [download_to] is not
    invoked for an image, and the prepared catalog, the in-progress map and
    the thread pool are as before. *)
Theorem fetch_image_local_file_not_cached fetch_type query prepare now (v : Vault) :
  Query.query_type query ≠ Query.Alias →
  QUrl_isLocalFile (Query.release query) = true →
  let v' := (fetch_image fetch_type query prepare now v).2 in
  image_downloads (trace v') = image_downloads (trace v)
  ∧ prepared_image_records v' = prepared_image_records v
  ∧ in_progress_image_fetches v' = in_progress_image_fetches v
  ∧ thread_pool v' = thread_pool v.
Proof.
  intros Htype Hlocal.
  assert (frame same_downloads (fetch_image fetch_type query prepare now)
          ∧ frame keeps_fetch_state (fetch_image fetch_type query prepare now))
    as [Hsame Hkeeps].
  { unfold fetch_image. rewrite decide_True by done. unfold fetch_custom_image.
    rewrite Hlocal.
    pose proof (fetch_local_file_same_downloads fetch_type query prepare).
    pose proof (frame_weaken _ (fetch_local_file_disk_only fetch_type query prepare)).
    split; solve_frame. }
  cbv zeta. destruct (Hkeeps v) as (? & ? & ? & _). by split_and!; [apply Hsame|..].
Qed.

End local_files.

(** X30 at the local image of [vault_with_local_file]. *)
Lemma fetch_image_local_file_not_cached_witness :
  image_downloads
    (trace (@fetch_image (mock_collaborators "abcd") ImageOnly named_local_query
              identity_prepare 1546300900 vault_with_local_file).2) = 0%nat
  ∧ prepared_image_records
      (@fetch_image (mock_collaborators "abcd") ImageOnly named_local_query
         identity_prepare 1546300900 vault_with_local_file).2 = ∅.
Proof.
  destruct (@fetch_image_local_file_not_cached (mock_collaborators "abcd") ImageOnly
              named_local_query identity_prepare 1546300900 vault_with_local_file)
    as (Hdownloads & Hprepared & _).
  - done.
  - reflexivity.
  - split; [exact Hdownloads|exact Hprepared].
Defined.

(** ** The remaining properties at concrete vaults *)

(** X19 at a cached image of xenial, which the host does not know. *)
Lemma update_images_unresolved_witness :
  ∃ e events,
    @update_images (mock_collaborators "abcd") ImageOnly identity_prepare 1546300900
      vault_with_xenial
    = (Throw e, set_trace (λ t, t ++ events) vault_with_xenial).
Proof.
  destruct (@update_images_unresolved (mock_collaborators "abcd") ImageOnly identity_prepare
              1546300900 vault_with_xenial "9f00"
              (VaultRecord.mk
                 (VMImage.mk "/cache/vault/images/xenial-20180101/x.img" EmptyString
                             EmptyString "9f00" "16.04 LTS" EmptyString EmptyString ["xenial"])
                 (Query.mk EmptyString "xenial" false "release" Query.Alias)
                 1546300800)
              (@no_image_matching (mock_collaborators "abcd")
                 (Query.mk EmptyString "xenial" false "release" Query.Alias)))
    as (e & events & _ & Hupdate).
  - by vm_compute.
  - reflexivity.
  - reflexivity.
  - reflexivity.
  - by exists e, events.
Defined.

(** X20 at a stale image of bionic whose instance vm1 has a record. *)
Lemma update_images_known_instances_witness :
  prepared_image_records
    (@update_images (mock_collaborators "abcd") ImageOnly identity_prepare 1546300900
       vault_with_stale_bionic).2
  = prepared_image_records vault_with_stale_bionic.
Proof.
  destruct (@update_images_known_instances (mock_collaborators "abcd") ImageOnly
              identity_prepare 1546300900 vault_with_stale_bionic)
    as (r & events & _ & ->).
  - intros key record Hrecord. unfold vault_with_stale_bionic in Hrecord.
    cbn [prepared_image_records] in Hrecord.
    apply lookup_singleton_Some in Hrecord as [_ <-]. vm_compute. by eexists.
  - reflexivity.
Defined.

(** X22 at the removal of vm1. *)
Lemma remove_leaves_the_rest_witness :
  trace (@remove (mock_collaborators "abcd") "vm1" vault_with_vm1).2 = []
  ∧ thread_pool (@remove (mock_collaborators "abcd") "vm1" vault_with_vm1).2 = [].
Proof.
  destruct (@remove_leaves_the_rest (mock_collaborators "abcd") "vm1" vault_with_vm1
              vm1_record)
    as (_ & _ & Hpool & Htrace & _).
  - by vm_compute.
  - split; [exact Htrace|exact Hpool].
Defined.

(** X23 at a vault with vm1 and an unnamed image. *)
Lemma remove_unnamed_instance_witness :
  files (fs (@remove (mock_collaborators "abcd") EmptyString vault_with_unnamed).2)
    !! "/data/vault/instances/vm1/b.img" = None
  ∧ instance_image_records
      (@remove (mock_collaborators "abcd") EmptyString vault_with_unnamed).2 !! "vm1"
    = Some vm1_record.
Proof.
  destruct (@remove_unnamed_instance (mock_collaborators "abcd") vault_with_unnamed
              (VaultRecord.mk
                 (VMImage.mk "/data/vault/instances/custom.img" EmptyString EmptyString
                             EmptyString EmptyString EmptyString EmptyString [])
                 local_query 1546300900))
    as (_ & Hbelow & Hrecords).
  - by vm_compute.
  - split.
    + apply Hbelow; [reflexivity|]. by vm_compute.
    + rewrite Hrecords. by vm_compute.
Defined.

(** X25 at the copy of the cached bionic image for vm2. *)
Lemma restart_after_finalize_witness :
  instance_image_records
    (@DefaultVMImageVault (mock_collaborators "abcd") 1546300950
       (fs (@finalize_image_records (mock_collaborators "abcd") (bionic_query "vm2")
              (VaultRecord.image bionic_record) 1546300900 vault_with_bionic).2))
  = reloaded 1546300950
    <$> instance_image_records
          (@finalize_image_records (mock_collaborators "abcd") (bionic_query "vm2")
             (VaultRecord.image bionic_record) 1546300900 vault_with_bionic).2.
Proof.
  destruct (@finalize_image_records (mock_collaborators "abcd") (bionic_query "vm2")
              (VaultRecord.image bionic_record) 1546300900 vault_with_bionic)
    as [r v'] eqn:Hfinal.
  assert (r = Ok (@instance_copy (mock_collaborators "abcd") "vm2"
                    (VaultRecord.image bionic_record))) as ->.
  { apply (f_equal fst) in Hfinal. cbn [fst] in Hfinal. rewrite <- Hfinal. by vm_compute. }
  cbn [snd].
  by destruct (@restart_after_finalize (mock_collaborators "abcd") _ _ _ 1546300950 _ _ _
                 Hfinal) as [_ ?].
Defined.

(** X27 at a launch from a local file for instance vm3. *)
Lemma fetch_image_records_instance_witness :
  (has_record_for "vm3"
     (@fetch_image (mock_collaborators "abcd") ImageOnly named_local_query identity_prepare
        1546300900 vault_with_local_file).2).1
  = Ok true.
Proof.
  destruct (@fetch_image (mock_collaborators "abcd") ImageOnly named_local_query
              identity_prepare 1546300900 vault_with_local_file)
    as [r v'] eqn:Hfetch.
  assert (r = Ok (VMImage.mk "/data/vault/instances/vm3/custom.img" EmptyString EmptyString
                             EmptyString EmptyString EmptyString EmptyString [])) as ->.
  { apply (f_equal fst) in Hfetch. cbn [fst] in Hfetch. rewrite <- Hfetch. by vm_compute. }
  cbn [snd].
  destruct (@fetch_image_records_instance (mock_collaborators "abcd") ImageOnly
              named_local_query identity_prepare 1546300900 vault_with_local_file
              (VMImage.mk "/data/vault/instances/vm3/custom.img" EmptyString EmptyString
                          EmptyString EmptyString EmptyString EmptyString []) v')
    as (_ & Hhas & _).
  - done.
  - exact Hfetch.
  - change (Query.name named_local_query) with "vm3" in Hhas. by rewrite Hhas.
Defined.

(** X28 at the two launches of bionic scheduled one after the other. *)
Lemma one_running_fetch_per_image_witness :
  ∃ sys,
    @run (mock_collaborators "abcd") late_schedule
      (mkSystem fresh_vault [call_of vmA_spec; call_of vmB_any_remote_spec]) = Some sys
    ∧ at_most_one_in_flight (vault sys).
Proof.
  apply run_result; [by vm_compute|]. intros sys Hrun.
  destruct (@one_running_fetch_per_image (mock_collaborators "abcd") late_schedule
              fresh_vault [call_of vmA_spec; call_of vmB_any_remote_spec] sys)
    as [Hone _].
  - intros future task. by destruct future.
  - by repeat constructor.
  - exact Hrun.
  - exact Hone.
Defined.

